(** * A bounded MPMC ring buffer: package [rb] of go-socketlib

    The development embeds [ringbuf/rb/rb.go]: the [ringBuf] and [rbItem]
    structures, the atomic primitives of [sync/atomic] that the two
    protocols use, [Enqueue] and [Dequeue] as sequential functions with
    explicit state passing, and the same two protocols as a machine whose
    steps are the individual shared-memory accesses, so that several
    calls can be interleaved.  The two views agree: calls made one after
    the other are one schedule of the machine.

    Proved below: the answers [ErrQueueFull] and [ErrQueueEmpty] and what
    they leave behind; the range of the indices; the four transitions of
    the slot markers; the refinement of a queue by calls made one after
    the other, first in first out; that no task races when calls are
    interleaved on a well-formed buffer; and an interleaving of two
    producers and one consumer in which a payload enqueued without error
    is never delivered. *)

From Stdlib Require Import ZArith Lia Bool List.
From stdpp Require Import base numbers option list.

Local Open Scope Z_scope.

Module Rb.

(** ** Machine integers *)

(** [uint32] and [uint64] values are integers with the wrap-around of Go's
    unsigned arithmetic written out. *)
Definition u32 (z : Z) : Z := z mod 2 ^ 32.
Definition u64 (z : Z) : Z := z mod 2 ^ 64.
Arguments u32 : simpl never.
Arguments u64 : simpl never.

(** Modelled from the spec: the constant [MaxUint32_64] is declared in a
    file of the package that is not part of the sources at hand; the index
    pair keeps [head] in the low 32 bits of the 64-bit word, so the mask
    selecting it is [2^32 - 1]. *)
Definition MaxUint32_64 : Z := 2 ^ 32 - 1.
Arguments MaxUint32_64 : simpl never.

(** ** Errors *)

(** The three sentinels of the package, and the values that [fmt.Errorf]
    builds around them in [Enqueue] and [Dequeue].  [Errorf_W] and
    [Errorf_R] wrap a sentinel with [%w] and carry the [readWrite] marker
    that was read for the message; [Errorf_GET] is the error of the
    nil-element path with the five numbers it prints. *)
Inductive error : Type :=
| ErrQueueFull
| ErrQueueEmpty
| ErrRaced
| Errorf_W (wrapped : error) (rw : Z)
| Errorf_R (wrapped : error) (rw : Z)
| Errorf_GET (cap qty head tail nh : Z).

(** [errors.Is err ErrRaced]: the sentinel itself or a value wrapping it. *)
Fixpoint is_raced (e : error) : bool :=
  match e with
  | ErrRaced => true
  | Errorf_W w _ | Errorf_R w _ => is_raced w
  | _ => false
  end.

(** What the logger collaborator is asked to write. *)
Inductive logEntry : Type :=
| LogWarn (cap qty tail head nh : Z)
| LogFatal.

(** How a call ends.  [Returned a]: control comes back to the caller with
    the results [a].  [Fatal a]: [logger.Fatal] was called while the named
    results held [a]; zap then exits the process (a custom hook that
    returns would let the call return [a]).  [Panicked]: a run-time panic
    of an index expression.  [Spinning]: the retry loop was still running
    when the fuel ran out. *)
Inductive outcome (A : Type) : Type :=
| Returned (a : A)
| Fatal (a : A)
| Panicked
| Spinning.
Arguments Returned {A} a.
Arguments Fatal {A} a.
Arguments Panicked {A}.
Arguments Spinning {A}.

Section WithPayload.

(** The payload is an [interface{}]: [None] is the nil interface, [Some v]
    any other value. *)
Context {V : Type}.

(** ** Data model *)

Record rbItem : Type := mkItem {
  readWrite : Z;            (* uint64: 0 writable, 1 readable, 2 write ok, 3 read ok *)
  value : option V          (* interface{} *)
}.

Record ringBuf : Type := mkRingBuf {
  cap : Z;                  (* uint32 *)
  capModMask : Z;           (* uint32 *)
  head : Z;                 (* uint32 *)
  tail : Z;                 (* uint32 *)
  putWaits : Z;             (* uint64 *)
  getWaits : Z;             (* uint64 *)
  data : list rbItem;
  debugMode : bool
}.

Definition set_head (rb : ringBuf) (h : Z) : ringBuf :=
  mkRingBuf (cap rb) (capModMask rb) h (tail rb) (putWaits rb) (getWaits rb)
            (data rb) (debugMode rb).

Definition set_tail (rb : ringBuf) (t : Z) : ringBuf :=
  mkRingBuf (cap rb) (capModMask rb) (head rb) t (putWaits rb) (getWaits rb)
            (data rb) (debugMode rb).

Definition set_putWaits (rb : ringBuf) (n : Z) : ringBuf :=
  mkRingBuf (cap rb) (capModMask rb) (head rb) (tail rb) n (getWaits rb)
            (data rb) (debugMode rb).

Definition set_getWaits (rb : ringBuf) (n : Z) : ringBuf :=
  mkRingBuf (cap rb) (capModMask rb) (head rb) (tail rb) (putWaits rb) n
            (data rb) (debugMode rb).

Definition set_data (rb : ringBuf) (d : list rbItem) : ringBuf :=
  mkRingBuf (cap rb) (capModMask rb) (head rb) (tail rb) (putWaits rb)
            (getWaits rb) d (debugMode rb).

(** ** The shared-memory primitives *)

(** The 64-bit [atomic.LoadUint64] at the address of [rb.head]: [head]
    and [tail] are adjacent 32-bit fields, [head] first, read as one
    little-endian 64-bit word. *)
Definition LoadUint64_head (rb : ringBuf) : Z :=
  Z.lor (u32 (head rb)) (Z.shiftl (u32 (tail rb)) 32).

(** The two indices of a snapshot, as lines 84-85 and 130-131 extract
    them: [(head, tail)]. *)
Definition snapshot (rb : ringBuf) : Z * Z :=
  let quad := LoadUint64_head rb in
  (u32 (Z.land quad MaxUint32_64), u32 (Z.shiftr quad 32)).

(** [holder] is a pointer to [rb.data[i]]; it is kept as the index [i]. *)
Definition rw_at (rb : ringBuf) (holder : nat) : Z :=
  match data rb !! holder with
  | Some it => readWrite it
  | None => 0
  end.

Definition value_at (rb : ringBuf) (holder : nat) : option V :=
  match data rb !! holder with
  | Some it => value it
  | None => None
  end.

(** [atomic.CompareAndSwapUint64(&holder.readWrite, old, new)] *)
Definition CompareAndSwap_readWrite (rb : ringBuf) (holder : nat) (old new : Z)
  : bool * ringBuf :=
  match data rb !! holder with
  | Some it =>
      if readWrite it =? old
      then (true, set_data rb (<[holder := mkItem new (value it)]> (data rb)))
      else (false, rb)
  | None => (false, rb)
  end.

(** [holder.value = item] *)
Definition store_value (rb : ringBuf) (holder : nat) (item : option V) : ringBuf :=
  match data rb !! holder with
  | Some it => set_data rb (<[holder := mkItem (readWrite it) item]> (data rb))
  | None => rb
  end.

(** [atomic.CompareAndSwapUint32(&rb.tail, old, new)] *)
Definition CompareAndSwap_tail (rb : ringBuf) (old new : Z) : bool * ringBuf :=
  if tail rb =? old then (true, set_tail rb new) else (false, rb).

(** [atomic.CompareAndSwapUint32(&rb.head, old, new)] *)
Definition CompareAndSwap_head (rb : ringBuf) (old new : Z) : bool * ringBuf :=
  if head rb =? old then (true, set_head rb new) else (false, rb).

(** [atomic.AddUint64(&rb.putWaits, 1)] and [atomic.AddUint64(&rb.getWaits, 1)] *)
Definition AddUint64_putWaits (rb : ringBuf) (delta : Z) : ringBuf :=
  set_putWaits rb (u64 (putWaits rb + delta)).

Definition AddUint64_getWaits (rb : ringBuf) (delta : Z) : ringBuf :=
  set_getWaits rb (u64 (getWaits rb + delta)).

(** Modelled from the spec: [qty] is a method of [ringBuf] declared outside
    the sources at hand; the quantity is [(tail - head) & capacity_mask].
    It is used only for the numbers printed on the nil-element path. *)
Definition qty (rb : ringBuf) (head tail : Z) : Z :=
  Z.land (u32 (tail - head)) (capModMask rb).

(** ** [Enqueue] and [Dequeue], one call run alone *)

(** The [for] loop of [Enqueue] runs once per unit of fuel.  The final
    state is returned with every outcome. *)
Fixpoint Enqueue (fuel : nat) (rb : ringBuf) (item : option V)
  : ringBuf * outcome (option error) :=
  match fuel with
  | O => (rb, Spinning)
  | S fuel' =>
      let quad := LoadUint64_head rb in
      let head := u32 (Z.land quad MaxUint32_64) in
      let tail := u32 (Z.shiftr quad 32) in
      let nt := Z.land (u32 (tail + 1)) (capModMask rb) in
      if nt =? head then (rb, Returned (Some ErrQueueFull))
      else
        let holder := Z.to_nat tail in
        match data rb !! holder with
        | None => (rb, Panicked)
        | Some _ =>
            let '(claimed, rb1) := CompareAndSwap_readWrite rb holder 0 2 in
            if claimed then
              let rb2 := store_value rb1 holder item in
              let '(_, rb3) := CompareAndSwap_tail rb2 tail nt in
              let '(released, rb4) := CompareAndSwap_readWrite rb3 holder 2 1 in
              if negb released
              then (rb4, Returned (Some (Errorf_W ErrRaced (rw_at rb4 holder))))
              else (rb4, Returned None)
            else
              Enqueue fuel' (AddUint64_putWaits rb1 1) item
        end
  end.

(** [Put] *)
Definition Put (fuel : nat) (rb : ringBuf) (item : option V) :=
  Enqueue fuel rb item.

(** Lines 185-193 of [Dequeue]: the nil-element check after a successful
    release, with the entries it sends to the logger. *)
Definition check_nil (rb : ringBuf) (item : option V) (head tail nh : Z)
  : list logEntry * outcome (option V * option error) :=
  match item with
  | None =>
      let err := Errorf_GET (cap rb) (qty rb head tail) head tail nh in
      let warn := if negb (debugMode rb)
                  then [LogWarn (cap rb) (qty rb head tail) tail head nh]
                  else [] in
      (warn ++ [LogFatal], Fatal (None, Some err))
  | Some _ => ([], Returned (item, None))
  end.

Fixpoint Dequeue (fuel : nat) (rb : ringBuf)
  : ringBuf * list logEntry * outcome (option V * option error) :=
  match fuel with
  | O => (rb, [], Spinning)
  | S fuel' =>
      let quad := LoadUint64_head rb in
      let head := u32 (Z.land quad MaxUint32_64) in
      let tail := u32 (Z.shiftr quad 32) in
      if head =? tail then (rb, [], Returned (None, Some ErrQueueEmpty))
      else
        let holder := Z.to_nat head in
        match data rb !! holder with
        | None => (rb, [], Panicked)
        | Some _ =>
            let '(claimed, rb1) := CompareAndSwap_readWrite rb holder 1 3 in
            if claimed then
              let item := value_at rb1 holder in
              let nh := Z.land (u32 (head + 1)) (capModMask rb1) in
              let '(_, rb2) := CompareAndSwap_head rb1 head nh in
              let '(released, rb3) := CompareAndSwap_readWrite rb2 holder 3 0 in
              if negb released
              then (rb3, [],
                    Returned (item, Some (Errorf_R ErrRaced (rw_at rb3 holder))))
              else
                let '(lg, out) := check_nil rb3 item head tail nh in
                (rb3, lg, out)
            else
              Dequeue fuel' (AddUint64_getWaits rb1 1)
        end
  end.

(** [Get] *)
Definition Get (fuel : nat) (rb : ringBuf) := Dequeue fuel rb.

(** Modelled from the spec: the rounding of the requested capacity is
    done by the constructor, which is declared outside the sources at
    hand.  The capacity is rounded up to the next power of two, at
    least 2. *)
Definition roundUpToPower2 (size : Z) : Z := 2 ^ Z.log2_up (Z.max size 2).

(** Modelled from the spec: the constructor [New] is declared outside the
    sources at hand.  It fixes the capacity and the mask, allocates that
    many slots, each writable with no value, and starts with
    [head = tail = 0] and zero counters. *)
Definition New (capacity : Z) (debug : bool) : ringBuf :=
  let c := roundUpToPower2 capacity in
  mkRingBuf c (c - 1) 0 0 0 0 (replicate (Z.to_nat c) (mkItem 0 None)) debug.

(** Modelled from the spec: [IsEmpty], [IsFull] and [Quantity] are declared
    outside the sources at hand; each is computed from one snapshot of the
    index pair. *)
Definition IsEmpty (rb : ringBuf) : bool :=
  let '(head, tail) := snapshot rb in head =? tail.

Definition IsFull (rb : ringBuf) : bool :=
  let '(head, tail) := snapshot rb in
  Z.land (u32 (tail + 1)) (capModMask rb) =? head.

Definition Quantity (rb : ringBuf) : Z :=
  let '(head, tail) := snapshot rb in qty rb head tail.

(** The fullness and emptiness tests of the two loops, on a snapshot. *)
Definition full_at (rb : ringBuf) : Prop :=
  Z.land (u32 (snd (snapshot rb) + 1)) (capModMask rb) = fst (snapshot rb).

Definition empty_at (rb : ringBuf) : Prop := fst (snapshot rb) = snd (snapshot rb).

(** ** The queue a buffer holds

    [Repr rb q]: the capacity is a power of two, the mask is one less, both
    indices are below the capacity, and reading the slots from [head] up
    to [tail], modulo the capacity, gives the payloads of [q]; those slots
    are readable and every other slot is writable. *)
Record Repr (rb : ringBuf) (q : list (option V)) : Prop := mkRepr {
  repr_cap : ∃ k, 0 ≤ k < 32 ∧ cap rb = 2 ^ k;
  repr_mask : capModMask rb = cap rb - 1;
  repr_len : Z.of_nat (length (data rb)) = cap rb;
  repr_head : 0 ≤ head rb < cap rb;
  repr_tail : 0 ≤ tail rb < cap rb;
  repr_qlen : Z.of_nat (length q) = (tail rb - head rb) mod cap rb;
  repr_slots : ∀ i it, data rb !! i = Some it →
    match q !! Z.to_nat ((Z.of_nat i - head rb) mod cap rb) with
    | Some v => readWrite it = 1 ∧ value it = v
    | None => readWrite it = 0
    end
}.

(** ** A sequence of calls made one after the other *)

Inductive call : Type :=
| CallEnqueue (item : option V)
| CallDequeue.

Inductive reply : Type :=
| EnqueueReply (out : outcome (option error))
| DequeueReply (out : outcome (option V * option error)).

Definition do_call (fuel : nat) (c : call) (rb : ringBuf) : ringBuf * reply :=
  match c with
  | CallEnqueue item =>
      let '(rb', out) := Enqueue fuel rb item in (rb', EnqueueReply out)
  | CallDequeue =>
      let '(rb', _, out) := Dequeue fuel rb in (rb', DequeueReply out)
  end.

Fixpoint run_calls (fuel : nat) (cs : list call) (rb : ringBuf)
  : ringBuf * list reply :=
  match cs with
  | [] => (rb, [])
  | c :: cs' =>
      let '(rb1, r) := do_call fuel c rb in
      let '(rb2, rs) := run_calls fuel cs' rb1 in
      (rb2, r :: rs)
  end.

(** The replies of calls that went through without a violated invariant:
    success, a full or an empty queue, or the nil-element path of
    [Dequeue]. *)
Definition orderly (r : reply) : Prop :=
  match r with
  | EnqueueReply (Returned None) => True
  | EnqueueReply (Returned (Some ErrQueueFull)) => True
  | DequeueReply (Returned (Some _, None)) => True
  | DequeueReply (Returned (None, Some ErrQueueEmpty)) => True
  | DequeueReply (Fatal (None, Some (Errorf_GET _ _ _ _ _))) => True
  | _ => False
  end.

(** A reply that carries [ErrRaced]. *)
Definition raced (r : reply) : bool :=
  match r with
  | EnqueueReply (Returned (Some e)) | EnqueueReply (Fatal (Some e)) => is_raced e
  | DequeueReply (Returned (_, Some e)) | DequeueReply (Fatal (_, Some e)) => is_raced e
  | _ => false
  end.

(** Both indices are below the capacity, which is a power of two with the
    mask one less. *)
Definition indices_ok (rb : ringBuf) : Prop :=
  (∃ k, 0 ≤ k ∧ cap rb = 2 ^ k) ∧ capModMask rb = cap rb - 1
  ∧ 0 ≤ head rb < cap rb ∧ 0 ≤ tail rb < cap rb.

(** Every slot marker is one of the four states. *)
Definition marker (rw : Z) : Prop := rw = 0 ∨ rw = 1 ∨ rw = 2 ∨ rw = 3.

Definition markers_ok (rb : ringBuf) : Prop :=
  ∀ j it, data rb !! j = Some it → marker (readWrite it).

(** ** The two protocols as machines over shared memory

    A call in flight is a program point with the locals that are live
    there.  One step is one access to the shared [ringBuf] together with
    the local computation that follows it, so that calls of several
    goroutines can be interleaved access by access.  The operations of
    [sync/atomic] are sequentially consistent, which is what an
    interleaving of steps expresses; the two plain accesses to
    [holder.value] are made by the task that holds the slot, between its
    claim and its release. *)

Inductive enq_pc : Type :=
| E_load                                        (* lines 83-96 *)
| E_claim (head tail nt : Z) (holder : nat)     (* line 98 *)
| E_store (tail nt : Z) (holder : nat)          (* line 99 *)
| E_advance (tail nt : Z) (holder : nat)        (* line 100 *)
| E_wait                                        (* lines 104-105 *)
| E_release (holder : nat)                      (* line 108 *)
| E_errorf (holder : nat)                       (* line 109 *)
| E_end (out : outcome (option error)).

Definition step_enq (item : option V) (pc : enq_pc) (rb : ringBuf)
  : enq_pc * ringBuf :=
  match pc with
  | E_load =>
      let quad := LoadUint64_head rb in
      let head := u32 (Z.land quad MaxUint32_64) in
      let tail := u32 (Z.shiftr quad 32) in
      let nt := Z.land (u32 (tail + 1)) (capModMask rb) in
      if nt =? head then (E_end (Returned (Some ErrQueueFull)), rb)
      else
        let holder := Z.to_nat tail in
        match data rb !! holder with
        | None => (E_end Panicked, rb)
        | Some _ => (E_claim head tail nt holder, rb)
        end
  | E_claim head tail nt holder =>
      let '(claimed, rb1) := CompareAndSwap_readWrite rb holder 0 2 in
      if claimed then (E_store tail nt holder, rb1) else (E_wait, rb1)
  | E_store tail nt holder =>
      (E_advance tail nt holder, store_value rb holder item)
  | E_advance tail nt holder =>
      let '(_, rb1) := CompareAndSwap_tail rb tail nt in
      (E_release holder, rb1)
  | E_wait => (E_load, AddUint64_putWaits rb 1)
  | E_release holder =>
      let '(released, rb1) := CompareAndSwap_readWrite rb holder 2 1 in
      if negb released then (E_errorf holder, rb1)
      else (E_end (Returned None), rb1)
  | E_errorf holder =>
      (E_end (Returned (Some (Errorf_W ErrRaced (rw_at rb holder)))), rb)
  | E_end out => (E_end out, rb)
  end.

Inductive deq_pc : Type :=
| D_load                                                   (* lines 129-141 *)
| D_claim (head tail : Z) (holder : nat)                   (* line 143 *)
| D_read (head tail : Z) (holder : nat)                    (* lines 166-167 *)
| D_advance (item : option V) (head tail nh : Z) (holder : nat)   (* line 168 *)
| D_wait                                                   (* lines 172-173 *)
| D_release (item : option V) (head tail nh : Z) (holder : nat)   (* line 180 *)
| D_errorf (item : option V) (holder : nat)                (* line 181 *)
| D_check (item : option V) (head tail nh : Z)             (* lines 185-193 *)
| D_end (out : outcome (option V * option error)).

Definition step_deq (pc : deq_pc) (rb : ringBuf)
  : deq_pc * ringBuf * list logEntry :=
  match pc with
  | D_load =>
      let quad := LoadUint64_head rb in
      let head := u32 (Z.land quad MaxUint32_64) in
      let tail := u32 (Z.shiftr quad 32) in
      if head =? tail then (D_end (Returned (None, Some ErrQueueEmpty)), rb, [])
      else
        let holder := Z.to_nat head in
        match data rb !! holder with
        | None => (D_end Panicked, rb, [])
        | Some _ => (D_claim head tail holder, rb, [])
        end
  | D_claim head tail holder =>
      let '(claimed, rb1) := CompareAndSwap_readWrite rb holder 1 3 in
      if claimed then (D_read head tail holder, rb1, []) else (D_wait, rb1, [])
  | D_read head tail holder =>
      let item := value_at rb holder in
      let nh := Z.land (u32 (head + 1)) (capModMask rb) in
      (D_advance item head tail nh holder, rb, [])
  | D_advance item head tail nh holder =>
      let '(_, rb1) := CompareAndSwap_head rb head nh in
      (D_release item head tail nh holder, rb1, [])
  | D_wait => (D_load, AddUint64_getWaits rb 1, [])
  | D_release item head tail nh holder =>
      let '(released, rb1) := CompareAndSwap_readWrite rb holder 3 0 in
      if negb released then (D_errorf item holder, rb1, [])
      else (D_check item head tail nh, rb1, [])
  | D_errorf item holder =>
      (D_end (Returned (item, Some (Errorf_R ErrRaced (rw_at rb holder)))), rb, [])
  | D_check item head tail nh =>
      let '(lg, out) := check_nil rb item head tail nh in
      (D_end out, rb, lg)
  | D_end out => (D_end out, rb, [])
  end.

(** Several steps of one task in a row, with what they log. *)
Fixpoint steps_enq (n : nat) (item : option V) (pc : enq_pc) (rb : ringBuf)
  : enq_pc * ringBuf :=
  match n with
  | O => (pc, rb)
  | S n' => let '(pc', rb') := step_enq item pc rb in steps_enq n' item pc' rb'
  end.

Fixpoint steps_deq (n : nat) (pc : deq_pc) (rb : ringBuf)
  : deq_pc * ringBuf * list logEntry :=
  match n with
  | O => (pc, rb, [])
  | S n' =>
      let '(pc', rb', lg) := step_deq pc rb in
      let '(pc'', rb'', lg') := steps_deq n' pc' rb' in
      (pc'', rb'', lg ++ lg')
  end.

(** A task is one call of one goroutine.  A goroutine that makes several
    calls in a row is a row of tasks that the schedule runs one after the
    other. *)
Inductive task : Type :=
| TEnqueue (item : option V) (pc : enq_pc)
| TDequeue (pc : deq_pc).

Record config : Type := mkConfig {
  mem : ringBuf;
  logged : list logEntry;
  tasks : list task
}.

(** The next index that a task carries to its compare-and-swap on [tail]
    or [head] is below the capacity [c]. *)
Definition task_ok (c : Z) (t : task) : Prop :=
  match t with
  | TEnqueue _ (E_claim _ _ nt _)
  | TEnqueue _ (E_store _ nt _)
  | TEnqueue _ (E_advance _ nt _) => 0 ≤ nt < c
  | TDequeue (D_advance _ _ _ nh _) => 0 ≤ nh < c
  | _ => True
  end.

(** A configuration whose capacity is [c0], whose indices are in range
    and whose tasks carry next indices in range. *)
Definition config_ok (c0 : Z) (c : config) : Prop :=
  indices_ok (mem c) ∧ cap (mem c) = c0 ∧ Forall (task_ok c0) (tasks c).

(** Ownership of slots.  A producer holds slot [j] for writing from its
    successful claim to its release, a consumer holds it for reading in
    the same way; [raced_task] tells the tasks that are building or have
    returned an [ErrRaced] error. *)
Definition holds_w (j : nat) (t : task) : nat :=
  match t with
  | TEnqueue _ (E_store _ _ h)
  | TEnqueue _ (E_advance _ _ h)
  | TEnqueue _ (E_release h) => if decide (h = j) then 1%nat else 0%nat
  | _ => 0%nat
  end.

Definition holds_r (j : nat) (t : task) : nat :=
  match t with
  | TDequeue (D_read _ _ h)
  | TDequeue (D_advance _ _ _ _ h)
  | TDequeue (D_release _ _ _ _ h) => if decide (h = j) then 1%nat else 0%nat
  | _ => 0%nat
  end.

Definition raced_task (t : task) : bool :=
  match t with
  | TEnqueue _ (E_errorf _) => true
  | TEnqueue _ (E_end (Returned (Some e))) => is_raced e
  | TDequeue (D_errorf _ _) => true
  | TDequeue (D_end (Returned (_, Some e))) => is_raced e
  | _ => false
  end.

Definition ind (P : Prop) `{Decision P} : nat := if decide P then 1%nat else 0%nat.

(** How many tasks hold a slot. *)
Fixpoint total (f : task → nat) (l : list task) : nat :=
  match l with
  | [] => 0%nat
  | t :: l' => (f t + total f l')%nat
  end.

(** A slot is in state 2 exactly when one producer holds it, in state 3
    exactly when one consumer holds it, and no task has raced. *)
Definition owned (c : config) : Prop :=
  (∀ j, total (holds_w j) (tasks c) = ind (rw_at (mem c) j = 2))
  ∧ (∀ j, total (holds_r j) (tasks c) = ind (rw_at (mem c) j = 3))
  ∧ Forall (λ t, raced_task t = false) (tasks c).

(** The scheduler lets task [i] make its next step. *)
Definition sched_step (c : config) (i : nat) : config :=
  match tasks c !! i with
  | Some (TEnqueue item pc) =>
      let '(pc', rb') := step_enq item pc (mem c) in
      mkConfig rb' (logged c) (<[i := TEnqueue item pc']> (tasks c))
  | Some (TDequeue pc) =>
      let '(pc', rb', lg) := step_deq pc (mem c) in
      mkConfig rb' (logged c ++ lg) (<[i := TDequeue pc']> (tasks c))
  | None => c
  end.

Definition run (sched : list nat) (c : config) : config :=
  fold_left sched_step sched c.

Definition start (c : call) : task :=
  match c with
  | CallEnqueue item => TEnqueue item E_load
  | CallDequeue => TDequeue D_load
  end.

Definition spawn (rb : ringBuf) (cs : list call) : config :=
  mkConfig rb [] (map start cs).

(** The task of a call that has ended with a reply, and the replies of
    calls that ran out of fuel. *)
Definition ended (c : call) (r : reply) : task :=
  match c, r with
  | CallEnqueue item, EnqueueReply out => TEnqueue item (E_end out)
  | CallDequeue, DequeueReply out => TDequeue (D_end out)
  | _, _ => start c
  end.

Definition spins (r : reply) : bool :=
  match r with
  | EnqueueReply Spinning | DequeueReply Spinning => true
  | _ => false
  end.

(** The payloads of the [Enqueue] tasks that returned without error, and
    the payloads that [Dequeue] tasks returned without error. *)
Definition enqueued (t : task) : list (option V) :=
  match t with
  | TEnqueue item (E_end (Returned None)) => [item]
  | _ => []
  end.

Definition dequeued (t : task) : list (option V) :=
  match t with
  | TDequeue (D_end (Returned (item, None))) => [item]
  | _ => []
  end.

Definition finished (t : task) : bool :=
  match t with
  | TEnqueue _ (E_end _) | TDequeue (D_end _) => true
  | _ => false
  end.

(** ** Vocabulary for further properties *)

(** The parts of the buffer that no step of [Enqueue] or [Dequeue]
    writes: capacity, mask and debug flag, and the number of slots. *)
Definition same_shape (rb rb' : ringBuf) : Prop :=
  cap rb' = cap rb ∧ capModMask rb' = capModMask rb
  ∧ debugMode rb' = debugMode rb ∧ length (data rb') = length (data rb).

Definition producer (t : task) : Prop :=
  match t with TEnqueue _ _ => True | TDequeue _ => False end.

Definition consumer (t : task) : Prop :=
  match t with TDequeue _ => True | TEnqueue _ _ => False end.

(** A task that ended in a run-time panic. *)
Definition panicked_task (t : task) : bool :=
  match t with
  | TEnqueue _ (E_end Panicked) | TDequeue (D_end Panicked) => true
  | _ => false
  end.

(** A configuration whose buffer has as many slots as its capacity, at
    most [2^32], and in which no task has panicked. *)
Definition in_bounds (c0 : Z) (c : config) : Prop :=
  config_ok c0 c ∧ c0 ≤ 2 ^ 32 ∧ Z.of_nat (length (data (mem c))) = c0
  ∧ Forall (λ t, panicked_task t = false) (tasks c).


(** The two accesses to [holder.value] that are not atomic: the store of
    line 99 and the load of line 166.  [plain_access j t]: the next step
    of task [t] is such an access to slot [j]. *)
Definition plain_access (j : nat) (t : task) : Prop :=
  match t with
  | TEnqueue _ (E_store _ _ h) => h = j
  | TDequeue (D_read _ _ h) => h = j
  | _ => False
  end.

(** Task [t] is between its successful claim of slot [j] and its
    release. *)
Definition holds (j : nat) (t : task) : Prop :=
  holds_w j t = 1%nat ∨ holds_r j t = 1%nat.

(** ** The bounded queue of the interface

    The reference against which sequential use of the buffer is compared:
    a list of at most [c0 - 1] payloads, where [c0] is the capacity, to
    which [QPut] appends unless it is full and from which [QGet] takes
    the first.  It is no part of the source. *)
Inductive qcall : Type :=
| QPut (x : V)
| QGet.

Definition to_call (c : qcall) : call :=
  match c with
  | QPut x => CallEnqueue (Some x)
  | QGet => CallDequeue
  end.

Definition queue_call (c0 : Z) (c : qcall) (q : list V) : list V * reply :=
  match c with
  | QPut x =>
      if Z.of_nat (length q) =? c0 - 1
      then (q, EnqueueReply (Returned (Some ErrQueueFull)))
      else (q ++ [x], EnqueueReply (Returned None))
  | QGet =>
      match q with
      | [] => (q, DequeueReply (Returned (None, Some ErrQueueEmpty)))
      | x :: q' => (q', DequeueReply (Returned (Some x, None)))
      end
  end.

Fixpoint queue_calls (c0 : Z) (cs : list qcall) (q : list V)
  : list V * list reply :=
  match cs with
  | [] => (q, [])
  | c :: cs' =>
      let '(q1, r) := queue_call c0 c q in
      let '(q2, rs) := queue_calls c0 cs' q1 in
      (q2, r :: rs)
  end.

(** Modelled from the spec: [Cap] is declared outside the sources at
    hand; it returns the capacity, the power of two itself. *)
Definition Cap (rb : ringBuf) : Z := cap rb.


(** ** Where the payloads are

    The payloads in the buffer are those of the slots that are readable
    or held by a consumer.  A consumer has taken a payload out once it
    has released the slot it read. *)
Definition in_slot (it : rbItem) : list (option V) :=
  if decide (readWrite it = 1 ∨ readWrite it = 3) then [value it] else [].

Definition resident (rb : ringBuf) : list (option V) :=
  flat_map in_slot (data rb).

Definition taken (t : task) : list (option V) :=
  match t with
  | TDequeue (D_check item _ _ _) => [item]
  | TDequeue (D_end (Returned (item, None))) => [item]
  | TDequeue (D_end (Fatal (item, _))) => [item]
  | _ => []
  end.

(** A producer that has stored its payload and a consumer that has read
    one still find it in the slot they hold. *)
Definition carries (rb : ringBuf) (t : task) : Prop :=
  match t with
  | TEnqueue item (E_advance _ _ h) | TEnqueue item (E_release h) =>
      value_at rb h = item
  | TDequeue (D_advance item _ _ _ h) | TDequeue (D_release item _ _ _ h) =>
      value_at rb h = item
  | _ => True
  end.

(** The payloads in the buffer and those taken out are the payloads
    [init] and those of the calls of [Enqueue] that have returned without
    error, each as often. *)
Definition conserved (init : list (option V)) (c : config) : Prop :=
  owned c ∧ Forall (carries (mem c)) (tasks c)
  ∧ resident (mem c) ++ flat_map taken (tasks c)
    ≡ₚ init ++ flat_map enqueued (tasks c).


(** ** One producer and one consumer

    All calls of [Enqueue] in the list of tasks are made by one goroutine,
    in the order of the list, and all calls of [Dequeue] by another.  A
    task is ready to take a step when every earlier call of its goroutine
    has ended; a schedule respects the program order when it only lets
    ready tasks step. *)
Definition is_producer (t : task) : bool :=
  match t with TEnqueue _ _ => true | TDequeue _ => false end.

Definition fresh (t : task) : bool :=
  match t with
  | TEnqueue _ E_load | TDequeue D_load => true
  | _ => false
  end.

Definition ready (c : config) (i : nat) : bool :=
  match tasks c !! i with
  | Some t =>
      forallb (λ t', implb (Bool.eqb (is_producer t') (is_producer t)) (finished t'))
              (take i (tasks c))
  | None => true
  end.

Fixpoint respects (sched : list nat) (c : config) : bool :=
  match sched with
  | [] => true
  | i :: sched' => ready c i && respects sched' (sched_step c i)
  end.

(** The call that a goroutine is making: the first of its tasks that has
    not ended.  [k] is [true] for the producer. *)
Fixpoint cur_of (k : bool) (l : list task) : option task :=
  match l with
  | [] => None
  | t :: l' =>
      if Bool.eqb (is_producer t) k && negb (finished t) then Some t
      else cur_of k l'
  end.

(** The calls of goroutine [k] that come after the one it is making have
    not begun. *)
Fixpoint ordered (k : bool) (l : list task) : Prop :=
  match l with
  | [] => True
  | t :: l' =>
      if Bool.eqb (is_producer t) k && negb (finished t)
      then Forall (λ t', is_producer t' = k → fresh t' = true) l'
      else ordered k l'
  end.

(** The marker that a slot has once the call in flight is accounted
    for: a slot claimed by a producer that has not moved [tail] yet
    counts as writable, and as readable once [tail] is moved; a slot
    claimed by a consumer counts as readable until [head] is moved, and as
    writable afterwards. *)
Definition slot_view (o : option task) (i : nat) (rw : Z) : Z :=
  match o with
  | Some (TEnqueue _ (E_store _ _ h)) | Some (TEnqueue _ (E_advance _ _ h)) =>
      if decide (i = h) then 0 else rw
  | Some (TEnqueue _ (E_release h)) => if decide (i = h) then 1 else rw
  | Some (TDequeue (D_read _ _ h)) | Some (TDequeue (D_advance _ _ _ _ h)) =>
      if decide (i = h) then 1 else rw
  | Some (TDequeue (D_release _ _ _ _ h)) => if decide (i = h) then 0 else rw
  | _ => rw
  end.

Definition settled (p c : option task) (rb : ringBuf) : ringBuf :=
  set_data rb
    (imap (λ i it, mkItem (slot_view c i (slot_view p i (readWrite it))) (value it))
          (data rb)).

(** What the call in flight knows of the buffer: the producer's snapshot
    of [tail] is exact and there is room, and the producer is never sent
    to wait; the consumer's snapshot of [head] is exact and there is a
    payload, the one it has read, and the slot it releases is the one
    behind [head]. *)
Definition in_step (rb : ringBuf) (Q : list (option V)) (o : option task) : Prop :=
  match o with
  | Some (TEnqueue _ (E_claim _ tl nt h))
  | Some (TEnqueue _ (E_store tl nt h))
  | Some (TEnqueue _ (E_advance tl nt h)) =>
      tl = tail rb ∧ h = Z.to_nat (tail rb) ∧ nt = (tail rb + 1) mod cap rb
      ∧ Z.of_nat (length Q) < cap rb - 1
  | Some (TEnqueue _ (E_release h)) =>
      h = Z.to_nat ((tail rb - 1) mod cap rb) ∧ Q ≠ []
  | Some (TEnqueue _ E_wait) => False
  | Some (TDequeue (D_release _ _ _ _ h)) =>
      h = Z.to_nat ((head rb - 1) mod cap rb)
  | Some (TDequeue (D_claim hd _ h)) | Some (TDequeue (D_read hd _ h)) =>
      hd = head rb ∧ h = Z.to_nat (head rb) ∧ Q ≠ []
  | Some (TDequeue (D_advance item hd _ nh h)) =>
      hd = head rb ∧ h = Z.to_nat (head rb) ∧ nh = (head rb + 1) mod cap rb
      ∧ ∃ Q', Q = item :: Q'
  | _ => True
  end.

(** The payloads of the calls of [Enqueue] that have moved [tail], and
    of the calls of [Dequeue] that have moved [head]. *)
Definition put_done (t : task) : list (option V) :=
  match t with
  | TEnqueue item (E_release _) | TEnqueue item (E_end (Returned None)) => [item]
  | _ => []
  end.

Definition got_done (t : task) : list (option V) :=
  match t with
  | TDequeue (D_release item _ _ _ _) => [item]
  | _ => taken t
  end.

(** The buffer, with the calls in flight accounted for, holds a queue [Q]
    which is what has been put in, less what has been taken out at the
    front. *)
Definition spsc (q0 : list (option V)) (c : config) : Prop :=
  ∃ Q,
    ordered true (tasks c) ∧ ordered false (tasks c)
    ∧ Repr (settled (cur_of true (tasks c)) (cur_of false (tasks c)) (mem c)) Q
    ∧ in_step (mem c) Q (cur_of true (tasks c))
    ∧ in_step (mem c) Q (cur_of false (tasks c))
    ∧ q0 ++ flat_map put_done (tasks c) = flat_map got_done (tasks c) ++ Q.


(** A goroutine between two calls. *)
Definition at_rest (o : option task) : Prop :=
  match o with
  | None => True
  | Some t => fresh t || finished t = true
  end.


(** ** Producers alone, consumers alone

    [in_range rb i]: slot [i] lies between [head] and [tail]. *)
Definition in_range (rb : ringBuf) (i : nat) : bool :=
  (Z.of_nat i - head rb) mod cap rb <? (tail rb - head rb) mod cap rb.

(** While only producers run, a slot that a producer has claimed counts
    as readable once [tail] has passed it and as writable before; while
    only consumers run, a slot that a consumer has claimed counts as
    readable until [head] has passed it and as writable afterwards.
    [mark] is 2 in the first case and 3 in the second. *)
Definition claimed_as (rb : ringBuf) (mark : Z) (i : nat) (rw : Z) : Z :=
  if decide (rw = mark) then (if in_range rb i then 1 else 0) else rw.

Definition phase_view (mark : Z) (rb : ringBuf) : ringBuf :=
  set_data rb
    (imap (λ i it, mkItem (claimed_as rb mark i (readWrite it)) (value it))
          (data rb)).

(** What a call of [Enqueue] in flight holds of the buffer while no
    consumer runs: the [tail] of its snapshot is not ahead of [tail], and
    it is [tail] itself once the claim has succeeded; the slot it is about
    to release lies between [head] and [tail]. *)
Definition producing (rb : ringBuf) (t : task) : Prop :=
  match t with
  | TEnqueue _ (E_claim _ tl nt h) =>
      h = Z.to_nat tl ∧ 0 ≤ tl < cap rb ∧ nt = (tl + 1) mod cap rb
      ∧ nt ≠ head rb
      ∧ (tl - head rb) mod cap rb ≤ (tail rb - head rb) mod cap rb
  | TEnqueue _ (E_store tl nt h) | TEnqueue _ (E_advance tl nt h) =>
      tl = tail rb ∧ h = Z.to_nat tl ∧ nt = (tl + 1) mod cap rb
      ∧ (tail rb + 1) mod cap rb ≠ head rb
  | TEnqueue _ (E_release h) => in_range rb h = true
  | TEnqueue _ _ => True
  | TDequeue _ => False
  end.

(** What a call of [Dequeue] in flight holds of the buffer while no
    producer runs. *)
Definition consuming (rb : ringBuf) (t : task) : Prop :=
  match t with
  | TDequeue (D_claim hd _ h) =>
      h = Z.to_nat hd ∧ 0 ≤ hd < cap rb
      ∧ (tail rb - head rb) mod cap rb ≤ (tail rb - hd) mod cap rb
  | TDequeue (D_read hd _ h) =>
      hd = head rb ∧ h = Z.to_nat hd ∧ head rb ≠ tail rb
  | TDequeue (D_advance _ hd _ nh h) =>
      hd = head rb ∧ h = Z.to_nat hd ∧ nh = (hd + 1) mod cap rb
      ∧ head rb ≠ tail rb
  | TDequeue (D_release _ _ _ _ h) => (h < Z.to_nat (cap rb))%nat ∧ in_range rb h = false
  | TDequeue _ => True
  | TEnqueue _ _ => False
  end.

Definition producers_only (q0 : list (option V)) (c : config) : Prop :=
  ∃ l, Repr (phase_view 2 (mem c)) (q0 ++ l) ∧ Forall (producing (mem c)) (tasks c).

Definition consumers_only (q0 : list (option V)) (c : config) : Prop :=
  ∃ l Q, q0 = l ++ Q ∧ Repr (phase_view 3 (mem c)) Q
         ∧ Forall (consuming (mem c)) (tasks c).


End WithPayload.

Arguments LoadUint64_head : simpl never.
Arguments snapshot : simpl never.
Arguments qty : simpl never.
Arguments rbItem : clear implicits.
Arguments ringBuf : clear implicits.
Arguments call : clear implicits.
Arguments qcall : clear implicits.
Arguments reply : clear implicits.
Arguments deq_pc : clear implicits.
Arguments task : clear implicits.
Arguments config : clear implicits.

(** ** Concrete buffers and schedules *)

Definition ints (n : nat) : list Z := map Z.of_nat (seq 0 n).

Definition scenario16 : list (call Z) :=
  map (fun i => CallEnqueue (Some i)) (ints 16) ++ repeat CallDequeue 16.

(** Two producers and one consumer on a buffer of capacity 4.  Tasks 0
    and 1 are [Enqueue(10)] and [Enqueue(20)] of the two producers; tasks
    2 and 3 are two calls of [Dequeue] by the consumer, one after the
    other. *)
Definition lost_calls : list (call Z) :=
  [CallEnqueue (Some 10); CallEnqueue (Some 20); CallDequeue; CallDequeue].

(** The second producer loads its snapshot and is preempted; the first
    producer enqueues 10; the consumer dequeues it; the second producer
    resumes with the snapshot it holds; the consumer calls [Dequeue]
    again. *)
Definition lost_schedule : list nat :=
  [1; 0; 0; 0; 0; 0; 2; 2; 2; 2; 2; 2; 1; 1; 1; 1; 3]%nat.

Definition lost_config : config Z :=
  run lost_schedule (spawn (New 4 false) lost_calls).

(** Three more payloads through the buffer that [lost_config] leaves. *)
Definition after_loss : ringBuf Z :=
  fst (run_calls 1
         [CallEnqueue (Some 30); CallDequeue; CallEnqueue (Some 40); CallDequeue;
          CallEnqueue (Some 50); CallDequeue]
         (mem lost_config)).

(** ** The sequential test [TestRingBuf_Put_OneByOne]

    The payloads are the [uint32] loop counters.  [steps] bounds the
    number of turns of each loop of the test, [fuel] the number of turns
    of each call. *)

Definition NLtd : Z := 16.

(** Go's [int], 64 bits wide, with its wrap-around. *)
Definition int64 (z : Z) : Z := (z + 2 ^ 63) mod 2 ^ 64 - 2 ^ 63.

(** How a run of the test ends: it passes, it fails at one of the three
    calls of [t.Fatalf], a call ends the process, or the bound on the
    number of turns is reached. *)
Inductive verdict : Type :=
| Pass
| Fatalf_put (i : Z) (err : error)
| Fatalf_full (i : Z) (err : option error)
| Fatalf_get (i : Z) (err : error) (it : option Z)
| Stopped
| Unfinished.

(** Lines 22-29: [for i := uint32(0); i < size; i++]. *)
Fixpoint put_loop (steps fuel : nat) (size i : Z) (rb : ringBuf Z)
  : ringBuf Z * option verdict :=
  match steps with
  | O => (rb, Some Unfinished)
  | S steps' =>
      if i <? size then
        match Enqueue fuel rb (Some i) with
        | (rb', Returned None) => put_loop steps' fuel size (u32 (i + 1)) rb'
        | (rb', Returned (Some err)) => (rb', Some (Fatalf_put i err))
        | (rb', Spinning) => (rb', Some Unfinished)
        | (rb', _) => (rb', Some Stopped)
        end
      else (rb, None)
  end.

(** Lines 31-36: [for i := uint32(size); i < uint32(size)+6; i++]. *)
Fixpoint full_loop (steps fuel : nat) (bound i : Z) (rb : ringBuf Z)
  : ringBuf Z * option verdict :=
  match steps with
  | O => (rb, Some Unfinished)
  | S steps' =>
      if i <? bound then
        match Enqueue fuel rb (Some i) with
        | (rb', Returned (Some ErrQueueFull)) =>
            full_loop steps' fuel bound (u32 (i + 1)) rb'
        | (rb', Returned err) => (rb', Some (Fatalf_full i err))
        | (rb', Spinning) => (rb', Some Unfinished)
        | (rb', _) => (rb', Some Stopped)
        end
      else (rb, None)
  end.

(** Lines 38-50: [for i := 0; ; i++], left by [break] on
    [ErrQueueEmpty]. *)
Fixpoint get_loop (steps fuel : nat) (i : Z) (rb : ringBuf Z)
  : ringBuf Z * verdict :=
  match steps with
  | O => (rb, Unfinished)
  | S steps' =>
      match Dequeue fuel rb with
      | (rb', _, Returned (_, None)) => get_loop steps' fuel (int64 (i + 1)) rb'
      | (rb', _, Returned (_, Some ErrQueueEmpty)) => (rb', Pass)
      | (rb', _, Returned (it, Some err)) => (rb', Fatalf_get i err it)
      | (rb', _, Spinning) => (rb', Unfinished)
      | (rb', _, _) => (rb', Stopped)
      end
  end.

(** The body of the test for a requested capacity [n]; [rb.Close()],
    deferred to the end, is declared outside the sources at hand and
    leaves the storage alone. *)
Definition one_by_one (steps fuel : nat) (n : Z) : ringBuf Z * verdict :=
  let rb := New n true in
  let size := u32 (Cap rb - 1) in
  match put_loop steps fuel size 0 rb with
  | (rb1, Some v) => (rb1, v)
  | (rb1, None) =>
      match full_loop steps fuel (u32 (size + 6)) size rb1 with
      | (rb2, Some v) => (rb2, v)
      | (rb2, None) => get_loop steps fuel 0 rb2
      end
  end.

Definition TestRingBuf_Put_OneByOne (steps fuel : nat) : ringBuf Z * verdict :=
  one_by_one steps fuel NLtd.


(** One producer that calls [Enqueue(1)] and then [Enqueue(2)], tasks 0
    and 1, and one consumer that calls [Dequeue] twice, tasks 2 and 3.
    The consumer finds the first slot claimed and not yet released, waits
    and comes back; the second call of the producer runs between the
    steps of the first call of the consumer. *)
Definition spsc_calls : list (call Z) :=
  [CallEnqueue (Some 1); CallEnqueue (Some 2); CallDequeue; CallDequeue].

Definition spsc_schedule : list nat :=
  [0; 0; 0; 0; 2; 2; 0; 2; 2; 2; 1; 2; 1; 2; 1; 2; 1; 2; 1; 3; 3; 3; 3; 3; 3; 3]%nat.


(** One producer and two consumers on a buffer of capacity 4.  Tasks 0
    to 4 are the calls [Enqueue(1)], ..., [Enqueue(5)] of the producer;
    task 5 is the call of [Dequeue] of the first consumer; tasks 6 and 7
    are two calls of [Dequeue] by the second consumer, one after the
    other.  The first consumer loads its snapshot after [Enqueue(1)] and
    is preempted; the second consumer takes 1; the producer puts 2, 3 and
    4; the second consumer takes 2; the producer puts 5 into slot 0, which
    has come round; the first consumer resumes with the snapshot it
    holds. *)
Definition overtake_calls : list (call Z) :=
  map (λ i, CallEnqueue (Some i)) [1; 2; 3; 4; 5] ++ repeat CallDequeue 3.

Definition overtake_schedule : list nat :=
  ([0; 0; 0; 0; 0] ++ [5] ++ [6; 6; 6; 6; 6; 6]
   ++ [1; 1; 1; 1; 1] ++ [2; 2; 2; 2; 2] ++ [3; 3; 3; 3; 3]
   ++ [7; 7; 7; 7; 7; 7] ++ [4; 4; 4; 4; 4] ++ [5; 5; 5; 5; 5])%nat.

Definition overtake_config : config Z :=
  run overtake_schedule (spawn (New 4 false) overtake_calls).

(** The buffer after two more calls of [Dequeue]. *)
Definition after_overtake : ringBuf Z :=
  fst (run_calls 1 [CallDequeue; CallDequeue] (mem overtake_config)).


(** Two producers whose steps are interleaved, with no consumer: the
    second loads its snapshot first, finds the slot taken when it comes
    back, waits and loads again. *)
Definition crowd_schedule : list nat :=
  [1; 0; 0; 0; 0; 0; 1; 1; 1; 1; 1; 1; 1; 1]%nat.

(** A buffer of capacity 4 that holds 1 and 2, and two consumers whose
    steps are interleaved, with no producer. *)
Definition two_in : ringBuf Z :=
  fst (run_calls 1 (map (λ v, CallEnqueue (Some v)) [1; 2]) (New 4 false)).


(** * Properties *)

Section Properties.

Context {V : Type}.
Implicit Types (rb : ringBuf V) (item : option V) (q : list (option V)).

(** ** Machine integers and the index pair *)

Lemma u32_small z : 0 ≤ z < 2 ^ 32 → u32 z = z.
Proof. intros. unfold u32. apply Z.mod_small. lia. Qed.

Lemma u32_range z : 0 ≤ u32 z < 2 ^ 32.
Proof. unfold u32. apply Z.mod_pos_bound. lia. Qed.

Lemma quad_low h t :
  0 ≤ h < 2 ^ 32 → 0 ≤ t → Z.land (Z.lor h (Z.shiftl t 32)) MaxUint32_64 = h.
Proof.
  intros Hh Ht. change MaxUint32_64 with (Z.ones 32).
  apply Z.bits_inj'. intros n Hn.
  rewrite Z.land_spec, Z.lor_spec.
  destruct (Z.lt_ge_cases n 32) as [Hlt|Hge].
  - rewrite Z.shiftl_spec_low by lia. rewrite Z.ones_spec_low by lia.
    rewrite orb_false_r, andb_true_r. reflexivity.
  - rewrite Z.ones_spec_high by lia. rewrite andb_false_r.
    symmetry. destruct (Z.eq_dec h 0) as [->|Hnz]; [apply Z.bits_0|].
    apply Z.bits_above_log2; [lia|].
    apply Z.lt_le_trans with 32; [|lia]. apply Z.log2_lt_pow2; lia.
Qed.

Lemma quad_high h t :
  0 ≤ h < 2 ^ 32 → 0 ≤ t → Z.shiftr (Z.lor h (Z.shiftl t 32)) 32 = t.
Proof.
  intros Hh Ht. rewrite Z.shiftr_lor.
  rewrite Z.shiftr_shiftl_l by lia. rewrite Z.sub_diag, Z.shiftl_0_r.
  rewrite Z.shiftr_div_pow2 by lia. rewrite Z.div_small by lia. apply Z.lor_0_l.
Qed.

(** One 64-bit load gives back the two 32-bit fields. *)
Lemma snapshot_eq rb : snapshot rb = (u32 (head rb), u32 (tail rb)).
Proof.
  unfold snapshot, LoadUint64_head.
  pose proof (u32_range (head rb)). pose proof (u32_range (tail rb)).
  rewrite quad_low, quad_high by lia.
  now rewrite !(u32_small (u32 _)) by lia.
Qed.

(** ** One turn of each loop *)

Lemma Enqueue_S fuel rb item :
  Enqueue (S fuel) rb item =
  let h := fst (snapshot rb) in
  let t := snd (snapshot rb) in
  let nt := Z.land (u32 (t + 1)) (capModMask rb) in
  if nt =? h then (rb, Returned (Some ErrQueueFull))
  else match data rb !! Z.to_nat t with
       | None => (rb, Panicked)
       | Some _ =>
           let '(claimed, rb1) := CompareAndSwap_readWrite rb (Z.to_nat t) 0 2 in
           if claimed then
             let rb2 := store_value rb1 (Z.to_nat t) item in
             let '(_, rb3) := CompareAndSwap_tail rb2 t nt in
             let '(released, rb4) := CompareAndSwap_readWrite rb3 (Z.to_nat t) 2 1 in
             if negb released
             then (rb4, Returned (Some (Errorf_W ErrRaced (rw_at rb4 (Z.to_nat t)))))
             else (rb4, Returned None)
           else Enqueue fuel (AddUint64_putWaits rb1 1) item
       end.
Proof. reflexivity. Qed.

Lemma Dequeue_S fuel rb :
  Dequeue (S fuel) rb =
  let h := fst (snapshot rb) in
  let t := snd (snapshot rb) in
  if h =? t then (rb, [], Returned (None, Some ErrQueueEmpty))
  else match data rb !! Z.to_nat h with
       | None => (rb, [], Panicked)
       | Some _ =>
           let '(claimed, rb1) := CompareAndSwap_readWrite rb (Z.to_nat h) 1 3 in
           if claimed then
             let item := value_at rb1 (Z.to_nat h) in
             let nh := Z.land (u32 (h + 1)) (capModMask rb1) in
             let '(_, rb2) := CompareAndSwap_head rb1 h nh in
             let '(released, rb3) := CompareAndSwap_readWrite rb2 (Z.to_nat h) 3 0 in
             if negb released
             then (rb3, [],
                   Returned (item, Some (Errorf_R ErrRaced (rw_at rb3 (Z.to_nat h)))))
             else let '(lg, out) := check_nil rb3 item h t nh in (rb3, lg, out)
           else Dequeue fuel (AddUint64_getWaits rb1 1)
       end.
Proof. reflexivity. Qed.

(** ** Compare-and-swap on a slot marker *)

Lemma CAS_rw_fail rb holder old new :
  fst (CompareAndSwap_readWrite rb holder old new) = false →
  snd (CompareAndSwap_readWrite rb holder old new) = rb.
Proof.
  unfold CompareAndSwap_readWrite.
  destruct (data rb !! holder) as [it|]; [|reflexivity].
  destruct (readWrite it =? old); [discriminate|reflexivity].
Qed.

Lemma CAS_rw_ok rb holder old new :
  fst (CompareAndSwap_readWrite rb holder old new) = true →
  ∃ it, data rb !! holder = Some it ∧ readWrite it = old ∧
        snd (CompareAndSwap_readWrite rb holder old new) =
        set_data rb (<[holder := mkItem new (value it)]> (data rb)).
Proof.
  unfold CompareAndSwap_readWrite.
  destruct (data rb !! holder) as [it|]; [|discriminate].
  destruct (Z.eqb_spec (readWrite it) old); [|discriminate].
  intros _. exists it. auto.
Qed.

Lemma CAS_rw_spec rb holder old new :
  CompareAndSwap_readWrite rb holder old new =
  (fst (CompareAndSwap_readWrite rb holder old new),
   snd (CompareAndSwap_readWrite rb holder old new)).
Proof. apply surjective_pairing. Qed.

(** ** The retry loops leave the indices alone *)

Lemma snapshot_putWaits rb n : snapshot (set_putWaits rb n) = snapshot rb.
Proof. reflexivity. Qed.

Lemma snapshot_getWaits rb n : snapshot (set_getWaits rb n) = snapshot rb.
Proof. reflexivity. Qed.

(** A call of [Enqueue] that answers [ErrQueueFull] saw a full snapshot and
    wrote nothing. *)
Lemma Enqueue_full_inv fuel rb item :
  snd (Enqueue fuel rb item) = Returned (Some ErrQueueFull) →
  full_at rb ∧ fst (Enqueue fuel rb item) = rb.
Proof.
  revert rb. induction fuel as [|fuel IH]; intros rb; [discriminate|].
  rewrite Enqueue_S. cbv zeta. unfold full_at.
  destruct (Z.eqb_spec (Z.land (u32 (snd (snapshot rb) + 1)) (capModMask rb))
                       (fst (snapshot rb))) as [Hfull|Hnot]; [auto|].
  destruct (data rb !! Z.to_nat (snd (snapshot rb))); [|discriminate].
  rewrite (CAS_rw_spec rb).
  destruct (fst (CompareAndSwap_readWrite rb _ 0 2)) eqn:Hclaim.
  - destruct (CompareAndSwap_tail _ _ _) as [? rb3].
    destruct (CompareAndSwap_readWrite rb3 _ 2 1) as [[] ?]; discriminate.
  - rewrite (CAS_rw_fail _ _ _ _ Hclaim). intros H.
    apply IH in H as [Hfull _]. unfold full_at in Hfull.
    unfold AddUint64_putWaits in Hfull. rewrite snapshot_putWaits in Hfull.
    contradiction.
Qed.

Lemma Enqueue_full fuel rb item :
  full_at rb → Enqueue (S fuel) rb item = (rb, Returned (Some ErrQueueFull)).
Proof.
  intros Hfull. rewrite Enqueue_S. cbv zeta.
  unfold full_at in Hfull. rewrite Hfull, Z.eqb_refl. reflexivity.
Qed.


Lemma Dequeue_empty fuel rb :
  empty_at rb → Dequeue (S fuel) rb = (rb, [], Returned (None, Some ErrQueueEmpty)).
Proof.
  intros Hemp. rewrite Dequeue_S. cbv zeta.
  unfold empty_at in Hemp. rewrite Hemp, Z.eqb_refl. reflexivity.
Qed.

(** The step that ends an [Enqueue] task with [ErrQueueFull] is the
    snapshot load. *)
Lemma step_enq_full_inv item pc rb :
  fst (step_enq item pc rb) = E_end (Returned (Some ErrQueueFull)) →
  (pc = E_load ∧ full_at rb) ∨ pc = E_end (Returned (Some ErrQueueFull)).
Proof.
  destruct pc; cbn.
  - unfold full_at. fold (snapshot rb).
    change (u32 (Z.land (LoadUint64_head rb) MaxUint32_64)) with (fst (snapshot rb)).
    change (u32 (Z.shiftr (LoadUint64_head rb) 32)) with (snd (snapshot rb)).
    destruct (Z.eqb_spec (Z.land (u32 (snd (snapshot rb) + 1)) (capModMask rb))
                         (fst (snapshot rb))); [auto|].
    destruct (data rb !! _); discriminate.
  - destruct (CompareAndSwap_readWrite _ _ _ _) as [[] ?]; discriminate.
  - discriminate.
  - destruct (CompareAndSwap_tail _ _ _); discriminate.
  - discriminate.
  - destruct (CompareAndSwap_readWrite _ _ _ _) as [[] ?]; discriminate.
  - discriminate.
  - intros ->. auto.
Qed.

Lemma step_enq_load_mem item rb : snd (step_enq item E_load rb) = rb.
Proof.
  cbn. destruct (_ =? _); [reflexivity|]. destruct (data rb !! _); reflexivity.
Qed.


Lemma step_deq_load_mem rb :
  snd (fst (step_deq D_load rb)) = rb ∧ snd (step_deq D_load rb) = [].
Proof.
  cbn. destruct (_ =? _); [auto|]. destruct (data rb !! _); auto.
Qed.

(** C4.  [Enqueue] answers [ErrQueueFull] if and only if the snapshot
    it loads satisfies [(tail + 1) & capModMask = head], and then the
    buffer it leaves is the buffer it found: indices, slots and counters.
    The same holds of the task in an interleaving: the only step that ends
    it with [ErrQueueFull] is the snapshot load on a full snapshot, and
    that step writes nothing. *)
Theorem C4_Enqueue_QueueFull fuel rb item :
  (snd (Enqueue (S fuel) rb item) = Returned (Some ErrQueueFull) ↔ full_at rb)
  ∧ (snd (Enqueue (S fuel) rb item) = Returned (Some ErrQueueFull) →
     fst (Enqueue (S fuel) rb item) = rb)
  ∧ (fst (step_enq item E_load rb) = E_end (Returned (Some ErrQueueFull))
     ↔ full_at rb)
  ∧ snd (step_enq item E_load rb) = rb
  ∧ (∀ pc, fst (step_enq item pc rb) = E_end (Returned (Some ErrQueueFull)) →
           pc = E_load ∨ pc = E_end (Returned (Some ErrQueueFull))).
Proof.
  repeat split.
  - intros H. now apply Enqueue_full_inv in H.
  - intros H. now rewrite (Enqueue_full fuel rb item H).
  - intros H. now apply Enqueue_full_inv in H.
  - intros H. apply step_enq_full_inv in H as [[_ H]|H]; [exact H|discriminate].
  - intros H. cbn.
    change (u32 (Z.land (LoadUint64_head rb) MaxUint32_64)) with (fst (snapshot rb)).
    change (u32 (Z.shiftr (LoadUint64_head rb) 32)) with (snd (snapshot rb)).
    unfold full_at in H. now rewrite H, Z.eqb_refl.
  - apply step_enq_load_mem.
  - intros pc H. apply step_enq_full_inv in H as [[-> _] | ->]; auto.
Qed.


(** ** Buffers that hold a queue *)

Lemma mod_sub_cases a b c :
  0 ≤ a < c → 0 ≤ b < c →
  (a - b) mod c = if a <? b then a - b + c else a - b.
Proof.
  intros Ha Hb. destruct (Z.ltb_spec a b).
  - rewrite <- (Z.mod_small (a - b + c) c) by lia.
    rewrite <- (Z.mod_add (a - b) 1 c) by lia. f_equal. lia.
  - apply Z.mod_small. lia.
Qed.

Lemma mod_succ_cases a c :
  0 ≤ a < c → (a + 1) mod c = if a + 1 =? c then 0 else a + 1.
Proof.
  intros Ha. destruct (Z.eqb_spec (a + 1) c) as [E|E].
  - rewrite E. apply Z.mod_same. lia.
  - apply Z.mod_small. lia.
Qed.

Lemma land_mask x k : 0 ≤ k → Z.land x (2 ^ k - 1) = x mod 2 ^ k.
Proof.
  intros Hk. rewrite <- Z.land_ones by lia. f_equal.
  rewrite Z.ones_equiv. lia.
Qed.

Lemma Repr_cap_bounds rb q : Repr rb q → 1 ≤ cap rb ≤ 2 ^ 31.
Proof.
  intros [[k [Hk Hc]] _ _ _ _ _ _]. rewrite Hc. split.
  - assert (0 < 2 ^ k) by (apply Z.pow_pos_nonneg; lia). lia.
  - apply Z.pow_le_mono_r; lia.
Qed.

Lemma Repr_snapshot rb q : Repr rb q → snapshot rb = (head rb, tail rb).
Proof.
  intros R. pose proof (Repr_cap_bounds _ _ R) as Hc.
  pose proof (repr_head _ _ R). pose proof (repr_tail _ _ R).
  rewrite snapshot_eq. rewrite !u32_small by lia. reflexivity.
Qed.

Lemma Repr_next rb q x :
  Repr rb q → 0 ≤ x < cap rb →
  Z.land (u32 (x + 1)) (capModMask rb) = (x + 1) mod cap rb.
Proof.
  intros R Hx. pose proof (Repr_cap_bounds _ _ R) as Hc.
  rewrite u32_small by lia. rewrite (repr_mask _ _ R).
  destruct (repr_cap _ _ R) as [k [Hk ->]]. apply land_mask. lia.
Qed.

Lemma Repr_full_iff rb q :
  Repr rb q → (full_at rb ↔ Z.of_nat (length q) = cap rb - 1).
Proof.
  intros R. unfold full_at. rewrite (Repr_snapshot _ _ R). cbn [fst snd].
  pose proof (repr_head _ _ R) as Hh. pose proof (repr_tail _ _ R) as Ht.
  rewrite (Repr_next _ _ _ R Ht), (repr_qlen _ _ R).
  rewrite mod_succ_cases, mod_sub_cases by lia.
  destruct (Z.eqb_spec (tail rb + 1) (cap rb)), (Z.ltb_spec (tail rb) (head rb)); lia.
Qed.

Lemma Repr_empty_iff rb q : Repr rb q → (empty_at rb ↔ q = []).
Proof.
  intros R. unfold empty_at. rewrite (Repr_snapshot _ _ R). cbn [fst snd].
  pose proof (repr_head _ _ R) as Hh. pose proof (repr_tail _ _ R) as Ht.
  pose proof (repr_qlen _ _ R) as Hq. rewrite mod_sub_cases in Hq by lia.
  split.
  - intros E. rewrite E, Z.ltb_irrefl in Hq. destruct q; [reflexivity|cbn in Hq; lia].
  - intros ->. cbn in Hq. destruct (Z.ltb_spec (tail rb) (head rb)); lia.
Qed.

(** The slot under [tail] is writable when the buffer is not full, and the
    slot under [head] is readable and holds the first payload when the
    buffer is not empty. *)
Lemma Repr_tail_slot rb q :
  Repr rb q →
  ∃ it, data rb !! Z.to_nat (tail rb) = Some it ∧ readWrite it = 0.
Proof.
  intros R. pose proof (repr_tail _ _ R) as Ht.
  destruct (lookup_lt_is_Some_2 (data rb) (Z.to_nat (tail rb))) as [it Hit].
  { pose proof (repr_len _ _ R). lia. }
  exists it. split; [exact Hit|].
  pose proof (repr_slots _ _ R _ _ Hit) as Hs.
  rewrite Z2Nat.id in Hs by lia. rewrite <- (repr_qlen _ _ R) in Hs.
  rewrite Nat2Z.id in Hs. rewrite lookup_ge_None_2 in Hs by lia. exact Hs.
Qed.

Lemma Repr_head_slot rb v q :
  Repr rb (v :: q) →
  data rb !! Z.to_nat (head rb) = Some (mkItem 1 v).
Proof.
  intros R. pose proof (repr_head _ _ R) as Hh.
  destruct (lookup_lt_is_Some_2 (data rb) (Z.to_nat (head rb))) as [it Hit].
  { pose proof (repr_len _ _ R). lia. }
  pose proof (repr_slots _ _ R _ _ Hit) as Hs.
  rewrite Z2Nat.id in Hs by lia. rewrite Z.sub_diag, Z.mod_0_l in Hs by lia.
  cbn in Hs. destruct Hs as [Hrw Hv]. rewrite Hit. destruct it; cbn in *; congruence.
Qed.

(** ** The path of a call that wins its claim *)

Lemma CAS_rw_hit rb holder old new it :
  data rb !! holder = Some it → readWrite it = old →
  CompareAndSwap_readWrite rb holder old new =
  (true, set_data rb (<[holder := mkItem new (value it)]> (data rb))).
Proof.
  intros Hit Hrw. unfold CompareAndSwap_readWrite.
  now rewrite Hit, Hrw, Z.eqb_refl.
Qed.

Lemma CAS_rw_miss rb holder old new it :
  data rb !! holder = Some it → readWrite it ≠ old →
  CompareAndSwap_readWrite rb holder old new = (false, rb).
Proof.
  intros Hit Hrw. unfold CompareAndSwap_readWrite. rewrite Hit.
  now destruct (Z.eqb_spec (readWrite it) old).
Qed.

Lemma data_CAS_tail rb old new : data (snd (CompareAndSwap_tail rb old new)) = data rb.
Proof. unfold CompareAndSwap_tail. now destruct (_ =? _). Qed.

Lemma data_CAS_head rb old new : data (snd (CompareAndSwap_head rb old new)) = data rb.
Proof. unfold CompareAndSwap_head. now destruct (_ =? _). Qed.

Lemma lookup_insert_slot (d : list (rbItem V)) holder it x :
  d !! holder = Some it → <[holder := x]> d !! holder = Some x.
Proof. intros H. apply list_lookup_insert_eq. now apply lookup_lt_Some in H. Qed.

(** After a successful claim the producer stores the payload, tries to
    advance [tail] and publishes; the publishing compare-and-swap finds the
    marker it wrote itself. *)
Lemma Enqueue_claimed fuel rb item it :
  ¬ full_at rb →
  data rb !! Z.to_nat (snd (snapshot rb)) = Some it → readWrite it = 0 →
  Enqueue (S fuel) rb item =
  (set_data
     (snd (CompareAndSwap_tail rb (snd (snapshot rb))
             (Z.land (u32 (snd (snapshot rb) + 1)) (capModMask rb))))
     (<[Z.to_nat (snd (snapshot rb)) := mkItem 1 item]> (data rb)),
   Returned None).
Proof.
  intros Hnf Hit Hrw. rewrite Enqueue_S. cbv zeta.
  destruct (Z.eqb_spec (Z.land (u32 (snd (snapshot rb) + 1)) (capModMask rb))
                       (fst (snapshot rb))) as [E|_]; [contradiction|].
  rewrite Hit. rewrite (CAS_rw_hit _ _ _ _ _ Hit Hrw).
  clear Hnf.
  generalize (Z.land (u32 (snd (snapshot rb) + 1)) (capModMask rb)) as nt.
  revert Hit. generalize (snd (snapshot rb)) as t. intros t Hit nt.
  set (h := Z.to_nat t) in *.
  unfold store_value. cbn [data set_data].
  rewrite (lookup_insert_slot _ _ _ _ Hit). cbn [readWrite value].
  rewrite list_insert_insert_eq.
  unfold CompareAndSwap_tail. cbn [tail set_data].
  destruct (tail rb =? t); cbn [snd].
  - rewrite (CAS_rw_hit _ h 2 1 (mkItem 2 item)).
    + cbn [negb value data set_data set_tail]. rewrite list_insert_insert_eq. reflexivity.
    + cbn [data set_data set_tail]. eapply lookup_insert_slot, Hit.
    + reflexivity.
  - rewrite (CAS_rw_hit _ h 2 1 (mkItem 2 item)).
    + cbn [negb value data set_data set_tail]. rewrite list_insert_insert_eq. reflexivity.
    + cbn [data set_data set_tail]. eapply lookup_insert_slot, Hit.
    + reflexivity.
Qed.

(** A producer that loses its claim waits and starts over. *)
Lemma Enqueue_blocked fuel rb item it :
  ¬ full_at rb →
  data rb !! Z.to_nat (snd (snapshot rb)) = Some it → readWrite it ≠ 0 →
  Enqueue (S fuel) rb item = Enqueue fuel (AddUint64_putWaits rb 1) item.
Proof.
  intros Hnf Hit Hrw. rewrite Enqueue_S. cbv zeta.
  destruct (Z.eqb_spec (Z.land (u32 (snd (snapshot rb) + 1)) (capModMask rb))
                       (fst (snapshot rb))) as [E|_]; [contradiction|].
  rewrite Hit. now rewrite (CAS_rw_miss _ _ _ _ _ Hit Hrw).
Qed.

Lemma Enqueue_panics fuel rb item :
  ¬ full_at rb →
  data rb !! Z.to_nat (snd (snapshot rb)) = None →
  Enqueue (S fuel) rb item = (rb, Panicked).
Proof.
  intros Hnf Hit. rewrite Enqueue_S. cbv zeta.
  destruct (Z.eqb_spec (Z.land (u32 (snd (snapshot rb) + 1)) (capModMask rb))
                       (fst (snapshot rb))) as [E|_]; [contradiction|].
  now rewrite Hit.
Qed.

(** The consumer side, in the same way. *)
Lemma Dequeue_claimed fuel rb it :
  ¬ empty_at rb →
  data rb !! Z.to_nat (fst (snapshot rb)) = Some it → readWrite it = 1 →
  Dequeue (S fuel) rb =
  let h := fst (snapshot rb) in
  let nh := Z.land (u32 (h + 1)) (capModMask rb) in
  let rb' := set_data (snd (CompareAndSwap_head rb h nh))
                      (<[Z.to_nat h := mkItem 0 (value it)]> (data rb)) in
  (rb', fst (check_nil rb' (value it) h (snd (snapshot rb)) nh),
   snd (check_nil rb' (value it) h (snd (snapshot rb)) nh)).
Proof.
  intros Hne Hit Hrw. rewrite Dequeue_S. cbv zeta.
  destruct (Z.eqb_spec (fst (snapshot rb)) (snd (snapshot rb))) as [E|_];
    [contradiction|].
  rewrite Hit. rewrite (CAS_rw_hit _ _ _ _ _ Hit Hrw).
  clear Hne. generalize (snd (snapshot rb)) as t.
  revert Hit. generalize (fst (snapshot rb)) as h. intros h Hit t.
  unfold value_at. cbn [data set_data capModMask].
  rewrite (lookup_insert_slot _ _ _ _ Hit). cbn [value].
  generalize (Z.land (u32 (h + 1)) (capModMask rb)) as nh. intros nh.
  unfold CompareAndSwap_head. cbn [head set_data].
  destruct (head rb =? h); cbn [snd].
  - rewrite (CAS_rw_hit _ (Z.to_nat h) 3 0 (mkItem 3 (value it))).
    + cbn [negb value data set_data set_head]. rewrite list_insert_insert_eq.
      unfold set_data, set_head. cbn.
      now destruct (check_nil _ _ _ _ _).
    + cbn [data set_data set_head]. eapply lookup_insert_slot, Hit.
    + reflexivity.
  - rewrite (CAS_rw_hit _ (Z.to_nat h) 3 0 (mkItem 3 (value it))).
    + cbn [negb value data set_data set_head]. rewrite list_insert_insert_eq.
      unfold set_data. cbn.
      now destruct (check_nil _ _ _ _ _).
    + cbn [data set_data set_head]. eapply lookup_insert_slot, Hit.
    + reflexivity.
Qed.

Lemma Dequeue_blocked fuel rb it :
  ¬ empty_at rb →
  data rb !! Z.to_nat (fst (snapshot rb)) = Some it → readWrite it ≠ 1 →
  Dequeue (S fuel) rb = Dequeue fuel (AddUint64_getWaits rb 1).
Proof.
  intros Hne Hit Hrw. rewrite Dequeue_S. cbv zeta.
  destruct (Z.eqb_spec (fst (snapshot rb)) (snd (snapshot rb))) as [E|_];
    [contradiction|].
  rewrite Hit. now rewrite (CAS_rw_miss _ _ _ _ _ Hit Hrw).
Qed.

Lemma Dequeue_panics fuel rb :
  ¬ empty_at rb →
  data rb !! Z.to_nat (fst (snapshot rb)) = None →
  Dequeue (S fuel) rb = (rb, [], Panicked).
Proof.
  intros Hne Hit. rewrite Dequeue_S. cbv zeta.
  destruct (Z.eqb_spec (fst (snapshot rb)) (snd (snapshot rb))) as [E|_];
    [contradiction|].
  now rewrite Hit.
Qed.

(** ** Calls on a buffer that holds a queue *)

Lemma offset_inj a b h c :
  0 ≤ a < c → 0 ≤ b < c → 0 ≤ h < c →
  (a - h) mod c = (b - h) mod c → a = b.
Proof.
  intros Ha Hb Hh. rewrite !mod_sub_cases by lia.
  destruct (Z.ltb_spec a h), (Z.ltb_spec b h); lia.
Qed.

(** On a buffer that holds [q] and is not full, [Enqueue] returns without
    error in its first turn and the buffer then holds [q] followed by the
    payload. *)
Lemma Enqueue_Repr fuel rb q item :
  Repr rb q → ¬ full_at rb →
  ∃ rb', Enqueue (S fuel) rb item = (rb', Returned None) ∧ Repr rb' (q ++ [item]).
Proof.
  intros R Hnf.
  destruct (Repr_tail_slot _ _ R) as (it & Hit & Hrw).
  pose proof (Repr_snapshot _ _ R) as Hsnap.
  assert (snd (snapshot rb) = tail rb) as Ht by now rewrite Hsnap.
  pose proof (repr_head _ _ R) as Hh. pose proof (repr_tail _ _ R) as Htl.
  pose proof (Repr_full_iff _ _ R) as Hfull.
  pose proof (repr_qlen _ _ R) as Hq.
  eexists. split.
  { rewrite (Enqueue_claimed fuel rb item it Hnf); [reflexivity| now rewrite Ht | exact Hrw]. }
  rewrite Ht. rewrite (Repr_next _ _ _ R Htl).
  unfold CompareAndSwap_tail. rewrite Z.eqb_refl. cbn [snd].
  assert (0 ≤ (tail rb + 1) mod cap rb < cap rb) as Hnt
    by (apply Z.mod_pos_bound; lia).
  constructor; cbn [cap capModMask head tail data set_data set_tail].
  - apply (repr_cap _ _ R).
  - apply (repr_mask _ _ R).
  - rewrite length_insert. apply (repr_len _ _ R).
  - exact Hh.
  - exact Hnt.
  - assert (Z.of_nat (length q) ≠ cap rb - 1) as Hlen
      by (intros E; apply Hnf, Hfull, E).
    rewrite length_app. cbn [length]. rewrite Nat2Z.inj_add.
    rewrite (mod_sub_cases ((tail rb + 1) mod cap rb)) by lia.
    rewrite mod_sub_cases in Hq by lia.
    rewrite mod_succ_cases in * by lia.
    destruct (Z.eqb_spec (tail rb + 1) (cap rb)), (Z.ltb_spec (tail rb) (head rb));
      match goal with |- context [?a <? ?b] => destruct (Z.ltb_spec a b) end;
      lia.
  - intros i it' Hi.
    destruct (decide (i = Z.to_nat (tail rb))) as [->|Hne].
    + rewrite (lookup_insert_slot _ _ _ _ Hit) in Hi. inversion Hi; subst it'.
      rewrite Z2Nat.id by lia. rewrite <- Hq, Nat2Z.id.
      rewrite list_lookup_middle by reflexivity. cbn. auto.
    + rewrite list_lookup_insert_ne in Hi by congruence.
      pose proof (repr_slots _ _ R _ _ Hi) as Hs.
      assert (0 ≤ Z.of_nat i < cap rb) as Hir.
      { apply lookup_lt_Some in Hi. pose proof (repr_len _ _ R). lia. }
      assert (0 ≤ (Z.of_nat i - head rb) mod cap rb < cap rb) as Ho
        by (apply Z.mod_pos_bound; lia).
      assert ((Z.of_nat i - head rb) mod cap rb ≠ Z.of_nat (length q)) as Hd.
      { rewrite Hq. intros E. apply offset_inj in E; lia. }
      destruct (q !! Z.to_nat ((Z.of_nat i - head rb) mod cap rb)) as [v|] eqn:Hl.
      * now rewrite (lookup_app_l_Some _ _ _ _ Hl).
      * apply lookup_ge_None_1 in Hl.
        rewrite lookup_ge_None_2; [exact Hs|].
        rewrite length_app. cbn [length]. lia.
Qed.

(** On a buffer that holds [v :: q], [Dequeue] claims the slot under
    [head] in its first turn, reads [v] and leaves a buffer that holds
    [q]; what it answers is decided by the nil check on [v]. *)
Lemma Dequeue_Repr fuel rb v q :
  Repr rb (v :: q) →
  ∃ rb', Dequeue (S fuel) rb =
         (rb',
          fst (check_nil rb' v (head rb) (tail rb) ((head rb + 1) mod cap rb)),
          snd (check_nil rb' v (head rb) (tail rb) ((head rb + 1) mod cap rb)))
         ∧ Repr rb' q.
Proof.
  intros R.
  pose proof (Repr_head_slot _ _ _ R) as Hit.
  pose proof (Repr_snapshot _ _ R) as Hsnap.
  assert (fst (snapshot rb) = head rb) as Hfst by now rewrite Hsnap.
  assert (snd (snapshot rb) = tail rb) as Hsnd by now rewrite Hsnap.
  pose proof (repr_head _ _ R) as Hh. pose proof (repr_tail _ _ R) as Htl.
  pose proof (repr_qlen _ _ R) as Hq. cbn [length] in Hq.
  assert (¬ empty_at rb) as Hne.
  { intros E. apply (Repr_empty_iff _ _ R) in E. discriminate. }
  eexists. split.
  { rewrite (Dequeue_claimed fuel rb (mkItem 1 v) Hne);
      [| now rewrite Hfst | reflexivity ].
    cbv zeta. rewrite Hfst, Hsnd, (Repr_next _ _ _ R Hh). cbn [value].
    reflexivity. }
  unfold CompareAndSwap_head. rewrite Z.eqb_refl. cbn [snd].
  assert (0 ≤ (head rb + 1) mod cap rb < cap rb) as Hnh
    by (apply Z.mod_pos_bound; lia).
  constructor; cbn [cap capModMask head tail data set_data set_head].
  - apply (repr_cap _ _ R).
  - apply (repr_mask _ _ R).
  - rewrite length_insert. apply (repr_len _ _ R).
  - exact Hnh.
  - exact Htl.
  - rewrite (mod_sub_cases (tail rb)) by lia.
    rewrite mod_sub_cases in Hq by lia.
    rewrite mod_succ_cases in * by lia.
    destruct (Z.eqb_spec (head rb + 1) (cap rb)), (Z.ltb_spec (tail rb) (head rb));
      match goal with |- context [?a <? ?b] => destruct (Z.ltb_spec a b) end;
      lia.
  - intros i it' Hi.
    assert (Z.of_nat (length q) < cap rb - 1) as Hlen.
    { rewrite mod_sub_cases in Hq by lia.
      destruct (Z.ltb_spec (tail rb) (head rb)); lia. }
    destruct (decide (i = Z.to_nat (head rb))) as [->|Hneq].
    + rewrite (lookup_insert_slot _ _ _ _ Hit) in Hi. inversion Hi; subst it'.
      rewrite Z2Nat.id by lia.
      rewrite lookup_ge_None_2; [reflexivity|].
      rewrite mod_sub_cases, mod_succ_cases by lia.
      destruct (Z.eqb_spec (head rb + 1) (cap rb));
        match goal with |- context [?a <? ?b] => destruct (Z.ltb_spec a b) end;
        lia.
    + rewrite list_lookup_insert_ne in Hi by congruence.
      pose proof (repr_slots _ _ R _ _ Hi) as Hs.
      assert (0 ≤ Z.of_nat i < cap rb) as Hir.
      { apply lookup_lt_Some in Hi. pose proof (repr_len _ _ R). lia. }
      assert (Z.of_nat i ≠ head rb) as Hih by lia.
      assert ((Z.of_nat i - (head rb + 1) mod cap rb) mod cap rb
              = (Z.of_nat i - head rb) mod cap rb - 1
              ∧ 1 ≤ (Z.of_nat i - head rb) mod cap rb) as [Ho Hpos].
      { rewrite !mod_sub_cases, mod_succ_cases by lia.
        destruct (Z.eqb_spec (head rb + 1) (cap rb)), (Z.ltb_spec (Z.of_nat i) (head rb));
          match goal with |- context [?a <? ?b] => destruct (Z.ltb_spec a b) end;
          lia. }
      rewrite Ho.
      replace (Z.to_nat ((Z.of_nat i - head rb) mod cap rb))
        with (S (Z.to_nat ((Z.of_nat i - head rb) mod cap rb - 1))) in Hs by lia.
      exact Hs.
Qed.


(** ** What a call run alone can answer *)

Lemma full_at_dec rb : {full_at rb} + {¬ full_at rb}.
Proof. unfold full_at. apply Z.eq_dec. Qed.

Lemma empty_at_dec rb : {empty_at rb} + {¬ empty_at rb}.
Proof. unfold empty_at. apply Z.eq_dec. Qed.

Lemma check_nil_cases rb item h t nh :
  (∃ v, item = Some v ∧ check_nil rb item h t nh = ([], Returned (Some v, None)))
  ∨ (item = None ∧
     ∃ lg, In LogFatal lg ∧
           check_nil rb item h t nh =
           (lg, Fatal (None, Some (Errorf_GET (cap rb) (qty rb h t) h t nh)))).
Proof.
  destruct item as [v|]; [left; eauto|right]. split; [reflexivity|].
  eexists. split; [|reflexivity]. apply in_or_app. right. now left.
Qed.

(** No call run alone answers [ErrRaced]: the release compare-and-swap
    comes right after the claim of the same call. *)
Lemma Enqueue_never_raced fuel rb item :
  raced (V := V) (EnqueueReply (snd (Enqueue fuel rb item))) = false.
Proof.
  revert rb. induction fuel as [|fuel IH]; intros rb; [reflexivity|].
  destruct (full_at_dec rb) as [Hf|Hnf].
  { now rewrite (Enqueue_full fuel rb item Hf). }
  destruct (data rb !! Z.to_nat (snd (snapshot rb))) as [it|] eqn:Hit.
  - destruct (Z.eq_dec (readWrite it) 0) as [Hrw|Hrw].
    + now rewrite (Enqueue_claimed fuel rb item it Hnf Hit Hrw).
    + rewrite (Enqueue_blocked fuel rb item it Hnf Hit Hrw). apply IH.
  - now rewrite (Enqueue_panics fuel rb item Hnf Hit).
Qed.

Lemma Dequeue_never_raced fuel rb :
  raced (DequeueReply (snd (Dequeue fuel rb))) = false.
Proof.
  revert rb. induction fuel as [|fuel IH]; intros rb; [reflexivity|].
  destruct (empty_at_dec rb) as [He|Hne].
  { now rewrite (Dequeue_empty fuel rb He). }
  destruct (data rb !! Z.to_nat (fst (snapshot rb))) as [it|] eqn:Hit.
  - destruct (Z.eq_dec (readWrite it) 1) as [Hrw|Hrw].
    + rewrite (Dequeue_claimed fuel rb it Hne Hit Hrw). cbv zeta. cbn [snd].
      match goal with |- context [check_nil ?r ?i ?h ?t ?n] =>
        destruct (check_nil_cases r i h t n) as [(v & _ & ->)|(_ & lg & _ & ->)] end;
        reflexivity.
    + rewrite (Dequeue_blocked fuel rb it Hne Hit Hrw). apply IH.
  - now rewrite (Dequeue_panics fuel rb Hne Hit).
Qed.

(** A producer whose slot is not writable, or a consumer whose slot is not
    readable, keeps waiting as long as nobody else moves. *)
Lemma Enqueue_spins fuel rb item it :
  ¬ full_at rb →
  data rb !! Z.to_nat (snd (snapshot rb)) = Some it → readWrite it ≠ 0 →
  snd (Enqueue fuel rb item) = Spinning.
Proof.
  revert rb. induction fuel as [|fuel IH]; intros rb Hnf Hit Hrw; [reflexivity|].
  rewrite (Enqueue_blocked fuel rb item it Hnf Hit Hrw). now apply IH.
Qed.

Lemma Dequeue_spins fuel rb it :
  ¬ empty_at rb →
  data rb !! Z.to_nat (fst (snapshot rb)) = Some it → readWrite it ≠ 1 →
  snd (Dequeue fuel rb) = Spinning.
Proof.
  revert rb. induction fuel as [|fuel IH]; intros rb Hne Hit Hrw; [reflexivity|].
  rewrite (Dequeue_blocked fuel rb it Hne Hit Hrw). now apply IH.
Qed.

(** ** Sequences of calls on a buffer that holds a queue *)

Lemma do_call_Repr fuel c rb q :
  Repr rb q →
  ∃ q', Repr (fst (do_call (S fuel) c rb)) q' ∧ orderly (snd (do_call (S fuel) c rb)).
Proof.
  intros R. destruct c as [item|]; unfold do_call.
  - destruct (full_at_dec rb) as [Hf|Hnf].
    + rewrite (Enqueue_full fuel rb item Hf). exists q. now split.
    + destruct (Enqueue_Repr fuel rb q item R Hnf) as (rb' & -> & R').
      exists (q ++ [item]). now split.
  - destruct q as [|v q].
    + rewrite (Dequeue_empty fuel rb) by now apply (Repr_empty_iff _ _ R).
      exists []. now split.
    + destruct (Dequeue_Repr fuel rb v q R) as (rb' & -> & R').
      exists q. split; [exact R'|]. cbn [snd].
      match goal with |- context [check_nil ?r ?i ?h ?t ?n] =>
        destruct (check_nil_cases r i h t n) as [(x & -> & ->)|(-> & lg & _ & ->)] end;
        exact I.
Qed.

Lemma run_calls_Repr fuel cs rb q :
  Repr rb q →
  ∃ q', Repr (fst (run_calls (S fuel) cs rb)) q'
        ∧ Forall orderly (snd (run_calls (S fuel) cs rb)).
Proof.
  revert rb q. induction cs as [|c cs IH]; intros rb q R.
  - exists q. split; [exact R|constructor].
  - cbn [run_calls].
    destruct (do_call_Repr fuel c rb q R) as (q1 & R1 & Ho).
    destruct (do_call (S fuel) c rb) as [rb1 r]. cbn [fst snd] in *.
    destruct (IH rb1 q1 R1) as (q2 & R2 & Hos).
    destruct (run_calls (S fuel) cs rb1) as [rb2 rs]. cbn [fst snd] in *.
    exists q2. split; [exact R2|]. now constructor.
Qed.

(** Draining the first [length q1] payloads. *)
Lemma drain_Repr fuel rb q1 q2 :
  Repr rb (q1 ++ q2) →
  Repr (fst (run_calls (S fuel) (repeat CallDequeue (length q1)) rb)) q2.
Proof.
  revert rb. induction q1 as [|v q1 IH]; intros rb R; [exact R|].
  cbn [length repeat run_calls do_call].
  destruct (Dequeue_Repr fuel rb v (q1 ++ q2) R) as (rb' & -> & R').
  specialize (IH rb' R').
  destruct (run_calls (S fuel) (repeat CallDequeue (length q1)) rb') as [rb2 rs].
  exact IH.
Qed.

Lemma orderly_not_raced (r : reply V) : orderly r → raced r = false.
Proof.
  destruct r as [[[[]|]| | |]|[[[] [[]|]]|[[] [[]|]]| |]]; cbn; tauto || reflexivity.
Qed.


(** ** Steps of the two machines *)

(** Case analysis of one step: the program point, then every test the
    step makes. *)
Ltac step_cases :=
  cbn;
  repeat match goal with
         | |- context [if ?b then _ else _] => destruct b eqn:?
         | |- context [match ?x with _ => _ end] => destruct x eqn:?
         end.

Lemma step_enq_release item h rb :
  step_enq item (E_release h) rb =
  if fst (CompareAndSwap_readWrite rb h 2 1)
  then (E_end (Returned None), snd (CompareAndSwap_readWrite rb h 2 1))
  else (E_errorf h, rb).
Proof.
  cbn. rewrite (CAS_rw_spec rb).
  destruct (fst (CompareAndSwap_readWrite rb h 2 1)) eqn:E; cbn; [reflexivity|].
  now rewrite (CAS_rw_fail _ _ _ _ E).
Qed.

Lemma step_deq_release item hd tl nh h rb :
  step_deq (D_release item hd tl nh h) rb =
  if fst (CompareAndSwap_readWrite rb h 3 0)
  then (D_check item hd tl nh, snd (CompareAndSwap_readWrite rb h 3 0), [])
  else (D_errorf item h, rb, []).
Proof.
  cbn. rewrite (CAS_rw_spec rb).
  destruct (fst (CompareAndSwap_readWrite rb h 3 0)) eqn:E; cbn; [reflexivity|].
  now rewrite (CAS_rw_fail _ _ _ _ E).
Qed.

(** The only way into the error-building point of [Enqueue] is a failed
    release, and the only step that ends the task with [ErrRaced] starts
    from that point. *)
Lemma step_enq_errorf_inv item pc rb h :
  fst (step_enq item pc rb) = E_errorf h →
  pc = E_release h ∧ fst (CompareAndSwap_readWrite rb h 2 1) = false.
Proof.
  destruct pc; try (step_cases; discriminate).
  rewrite step_enq_release.
  destruct (fst (CompareAndSwap_readWrite rb holder 2 1)) eqn:E; cbn;
    [discriminate|].
  intros [= <-]. auto.
Qed.

Lemma step_enq_raced_inv item pc rb e :
  fst (step_enq item pc rb) = E_end (Returned (Some e)) → is_raced e = true →
  pc = E_end (Returned (Some e)) ∨ ∃ h, pc = E_errorf h.
Proof.
  destruct pc; try (step_cases; try discriminate; intros [= <-]; discriminate).
  - right. eauto.
  - cbn. intros [= ->]. auto.
Qed.

Lemma step_deq_errorf_inv pc rb item h :
  fst (fst (step_deq pc rb)) = D_errorf item h →
  ∃ hd tl nh, pc = D_release item hd tl nh h
              ∧ fst (CompareAndSwap_readWrite rb h 3 0) = false.
Proof.
  destruct pc; try (step_cases; discriminate).
  rewrite step_deq_release.
  destruct (fst (CompareAndSwap_readWrite rb holder 3 0)) eqn:E; cbn;
    [discriminate|].
  intros [= <- <-]. eauto.
Qed.

Lemma step_deq_raced_inv pc rb item e :
  fst (fst (step_deq pc rb)) = D_end (Returned (item, Some e)) → is_raced e = true →
  pc = D_end (Returned (item, Some e)) ∨ ∃ h, pc = D_errorf item h.
Proof.
  destruct pc; try (step_cases; try discriminate; intros [= <- <-]; discriminate).
  - cbn. intros [= <- <-]. eauto.
  - cbn. unfold check_nil. destruct item0; cbn; discriminate.
  - cbn. intros [= ->]. auto.
Qed.

(** The only step that ends a [Dequeue] task is the snapshot load, the
    error-building point or the nil check; none gives a nil item without
    an error. *)
Lemma step_deq_nil_inv pc rb item :
  fst (fst (step_deq pc rb)) = D_end (Returned (item, None)) →
  pc = D_end (Returned (item, None)) ∨ item ≠ None.
Proof.
  destruct pc; try (step_cases; discriminate).
  - cbn. unfold check_nil. destruct item0; cbn; [|discriminate].
    intros [= <-]. right. discriminate.
  - cbn. intros [= ->]. auto.
Qed.

Lemma step_deq_fatal_inv pc rb a :
  fst (fst (step_deq pc rb)) = D_end (Fatal a) →
  pc = D_end (Fatal a)
  ∨ (∃ e, a = (None, Some e)) ∧ In LogFatal (snd (step_deq pc rb)).
Proof.
  destruct pc; try (step_cases; discriminate).
  - cbn. unfold check_nil. destruct item; cbn; [discriminate|].
    intros [= <-]. right. split; [eauto|]. apply in_or_app. right. now left.
  - cbn. intros [= ->]. auto.
Qed.


(** Every way in which [Dequeue], run alone, can end. *)
Lemma Dequeue_shape fuel rb :
  match snd (Dequeue fuel rb) with
  | Spinning | Panicked => True
  | Returned (Some _, None) | Returned (None, Some ErrQueueEmpty) => True
  | Fatal (None, Some (Errorf_GET _ _ _ _ _)) =>
      In LogFatal (snd (fst (Dequeue fuel rb)))
  | _ => False
  end.
Proof.
  revert rb. induction fuel as [|fuel IH]; intros rb; [exact I|].
  destruct (empty_at_dec rb) as [He|Hne].
  { now rewrite (Dequeue_empty fuel rb He). }
  destruct (data rb !! Z.to_nat (fst (snapshot rb))) as [it|] eqn:Hit.
  - destruct (Z.eq_dec (readWrite it) 1) as [Hrw|Hrw].
    + rewrite (Dequeue_claimed fuel rb it Hne Hit Hrw). cbv zeta. cbn [fst snd].
      match goal with |- context [check_nil ?r ?i ?h ?t ?n] =>
        destruct (check_nil_cases r i h t n) as [(v & _ & ->)|(_ & lg & Hlg & ->)] end;
        [exact I|exact Hlg].
    + rewrite (Dequeue_blocked fuel rb it Hne Hit Hrw). apply IH.
  - now rewrite (Dequeue_panics fuel rb Hne Hit).
Qed.

(** C7.  [Dequeue] never hands back a nil item with a nil error.  Run
    alone, a call whose claimed slot holds nil ends on the fatal path:
    the named results are the nil item and a non-nil error, and
    [logger.Fatal] has been called.  In an interleaving, no step ends a
    [Dequeue] task with a nil item and a nil error, and the nil check on
    a nil item sets the error and calls [logger.Fatal]. *)
Theorem C7_Dequeue_no_nil_payload_without_error fuel rb :
  (∀ item err, snd (Dequeue fuel rb) = Returned (item, err) →
               err = None → item ≠ None)
  ∧ (∀ item err, snd (Dequeue fuel rb) = Fatal (item, err) →
                 item = None ∧ err ≠ None ∧ In LogFatal (snd (fst (Dequeue fuel rb))))
  ∧ (∀ it, ¬ empty_at rb →
           data rb !! Z.to_nat (fst (snapshot rb)) = Some it →
           readWrite it = 1 → value it = None →
           ∃ rb' lg e, Dequeue (S fuel) rb = (rb', lg, Fatal (None, Some e))
                       ∧ In LogFatal lg)
  ∧ (∀ pc item, fst (fst (step_deq pc rb)) = D_end (Returned (item, None)) →
                pc = D_end (Returned (item, None)) ∨ item ≠ None)
  ∧ (∀ hd tl nh, ∃ lg e,
       step_deq (D_check None hd tl nh) rb = (D_end (Fatal (None, Some e)), rb, lg)
       ∧ In LogFatal lg).
Proof.
  pose proof (Dequeue_shape fuel rb) as Hs.
  split; [|split; [|split; [|split]]].
  - intros item err E ->. rewrite E in Hs. now destruct item.
  - intros item err E. rewrite E in Hs.
    destruct item as [v|]; [contradiction|].
    destruct err as [[]|]; try contradiction. now repeat split.
  - intros it Hne Hit Hrw Hv.
    rewrite (Dequeue_claimed fuel rb it Hne Hit Hrw). cbv zeta. rewrite Hv.
    match goal with |- context [check_nil ?r ?i ?h ?t ?n] =>
      destruct (check_nil_cases r i h t n) as [(v & [=] & _)|(_ & lg & Hlg & ->)] end.
    eauto.
  - intros pc item. apply step_deq_nil_inv.
  - intros hd tl nh. cbn.
    eexists _, _. split; [reflexivity|]. apply in_or_app. right. now left.
Qed.


(** C9.  On a buffer that holds [q] and is not full, [Enqueue] of the
    nil payload returns without error and the buffer then holds [q]
    followed by nil.  Once the payloads of [q] have been dequeued, the
    [Dequeue] that reaches the nil element ends on the fatal path: the
    item is nil, the error is set and [logger.Fatal] has been called. *)
Theorem C9_nil_payload_enqueued_then_fatal rb q fuel :
  Repr rb q → ¬ full_at rb →
  ∃ rb1,
    Enqueue (S fuel) rb None = (rb1, Returned None)
    ∧ Repr rb1 (q ++ [None])
    ∧ ∃ rb3 lg e,
        Dequeue (S fuel)
          (fst (run_calls (S fuel) (repeat CallDequeue (length q)) rb1))
        = (rb3, lg, Fatal (None, Some e))
        ∧ In LogFatal lg.
Proof.
  intros R Hnf.
  destruct (Enqueue_Repr fuel rb q None R Hnf) as (rb1 & E & R1).
  exists rb1. split; [exact E|]. split; [exact R1|].
  pose proof (drain_Repr fuel rb1 q [None] R1) as R2.
  destruct (Dequeue_Repr fuel _ None [] R2) as (rb3 & -> & _).
  match goal with |- context [check_nil ?r ?i ?h ?t ?n] =>
    destruct (check_nil_cases r i h t n) as [(v & [=] & _)|(_ & lg & Hlg & ->)] end.
  cbn [fst snd]. eauto.
Qed.

(** ** The indices stay below the capacity *)

Lemma next_index_range rb x :
  indices_ok rb → 0 ≤ Z.land (u32 x) (capModMask rb) < cap rb.
Proof.
  intros ((k & Hk & Hc) & Hm & _). rewrite Hm, Hc, land_mask by lia.
  apply Z.mod_pos_bound. apply Z.pow_pos_nonneg; lia.
Qed.

Lemma indices_ok_ext rb rb' :
  cap rb' = cap rb → capModMask rb' = capModMask rb →
  head rb' = head rb → tail rb' = tail rb →
  indices_ok rb → indices_ok rb'.
Proof. unfold indices_ok. intros -> -> -> ->. auto. Qed.

Lemma indices_ok_CAS_rw rb h old new :
  indices_ok rb → indices_ok (snd (CompareAndSwap_readWrite rb h old new)).
Proof.
  unfold CompareAndSwap_readWrite. destruct (data rb !! h); [|auto].
  destruct (_ =? _); [|auto]. now apply indices_ok_ext.
Qed.

Lemma indices_ok_store rb h item : indices_ok rb → indices_ok (store_value rb h item).
Proof.
  unfold store_value. destruct (data rb !! h); [|auto]. now apply indices_ok_ext.
Qed.

Lemma indices_ok_CAS_tail rb old new :
  0 ≤ new < cap rb → indices_ok rb → indices_ok (snd (CompareAndSwap_tail rb old new)).
Proof.
  unfold CompareAndSwap_tail. destruct (_ =? _); [|auto].
  unfold indices_ok. cbn. tauto.
Qed.

Lemma indices_ok_CAS_head rb old new :
  0 ≤ new < cap rb → indices_ok rb → indices_ok (snd (CompareAndSwap_head rb old new)).
Proof.
  unfold CompareAndSwap_head. destruct (_ =? _); [|auto].
  unfold indices_ok. cbn. tauto.
Qed.

Lemma cap_CAS_rw rb h old new : cap (snd (CompareAndSwap_readWrite rb h old new)) = cap rb.
Proof.
  unfold CompareAndSwap_readWrite. destruct (data rb !! h); [|auto].
  now destruct (_ =? _).
Qed.

Lemma cap_store rb h item : cap (store_value rb h item) = cap rb.
Proof. unfold store_value. now destruct (data rb !! h). Qed.

Lemma cap_CAS_tail rb old new : cap (snd (CompareAndSwap_tail rb old new)) = cap rb.
Proof. unfold CompareAndSwap_tail. now destruct (_ =? _). Qed.

Lemma cap_CAS_head rb old new : cap (snd (CompareAndSwap_head rb old new)) = cap rb.
Proof. unfold CompareAndSwap_head. now destruct (_ =? _). Qed.

(** A call run alone keeps the capacity and the range of the indices,
    however it ends. *)
Lemma Enqueue_indices fuel rb item :
  indices_ok rb →
  indices_ok (fst (Enqueue fuel rb item)) ∧ cap (fst (Enqueue fuel rb item)) = cap rb.
Proof.
  revert rb. induction fuel as [|fuel IH]; intros rb Hi; [now split|].
  destruct (full_at_dec rb) as [Hf|Hnf].
  { rewrite (Enqueue_full fuel rb item Hf). cbn [fst]. split; [exact Hi|reflexivity]. }
  destruct (data rb !! Z.to_nat (snd (snapshot rb))) as [it|] eqn:Hit.
  - destruct (Z.eq_dec (readWrite it) 0) as [Hrw|Hrw].
    + rewrite (Enqueue_claimed fuel rb item it Hnf Hit Hrw). cbn [fst].
      split.
      * apply (indices_ok_ext
                 (snd (CompareAndSwap_tail rb (snd (snapshot rb))
                         (Z.land (u32 (snd (snapshot rb) + 1)) (capModMask rb)))));
          try reflexivity.
        apply indices_ok_CAS_tail; [now apply next_index_range | exact Hi].
      * cbn [cap set_data]. apply cap_CAS_tail.
    + rewrite (Enqueue_blocked fuel rb item it Hnf Hit Hrw).
      apply (IH (AddUint64_putWaits rb 1)). exact Hi.
  - rewrite (Enqueue_panics fuel rb item Hnf Hit). cbn [fst].
    split; [exact Hi|reflexivity].
Qed.

Lemma Dequeue_indices fuel rb :
  indices_ok rb →
  indices_ok (fst (fst (Dequeue fuel rb))) ∧ cap (fst (fst (Dequeue fuel rb))) = cap rb.
Proof.
  revert rb. induction fuel as [|fuel IH]; intros rb Hi; [now split|].
  destruct (empty_at_dec rb) as [He|Hne].
  { rewrite (Dequeue_empty fuel rb He). cbn [fst]. split; [exact Hi|reflexivity]. }
  destruct (data rb !! Z.to_nat (fst (snapshot rb))) as [it|] eqn:Hit.
  - destruct (Z.eq_dec (readWrite it) 1) as [Hrw|Hrw].
    + rewrite (Dequeue_claimed fuel rb it Hne Hit Hrw). cbv zeta. cbn [fst].
      split.
      * apply (indices_ok_ext
                 (snd (CompareAndSwap_head rb (fst (snapshot rb))
                         (Z.land (u32 (fst (snapshot rb) + 1)) (capModMask rb)))));
          try reflexivity.
        apply indices_ok_CAS_head; [now apply next_index_range | exact Hi].
      * cbn [cap set_data]. apply cap_CAS_head.
    + rewrite (Dequeue_blocked fuel rb it Hne Hit Hrw).
      apply (IH (AddUint64_getWaits rb 1)). exact Hi.
  - rewrite (Dequeue_panics fuel rb Hne Hit). cbn [fst].
    split; [exact Hi|reflexivity].
Qed.

Lemma run_calls_indices fuel cs rb :
  indices_ok rb →
  indices_ok (fst (run_calls fuel cs rb)) ∧ cap (fst (run_calls fuel cs rb)) = cap rb.
Proof.
  revert rb. induction cs as [|c cs IH]; intros rb Hi; [now split|].
  cbn [run_calls].
  assert (indices_ok (fst (do_call fuel c rb)) ∧ cap (fst (do_call fuel c rb)) = cap rb)
    as [H1 Hc1].
  { destruct c as [item|]; unfold do_call.
    - pose proof (Enqueue_indices fuel rb item Hi). now destruct (Enqueue fuel rb item).
    - pose proof (Dequeue_indices fuel rb Hi). now destruct (Dequeue fuel rb) as [[? ?] ?]. }
  destruct (do_call fuel c rb) as [rb1 r]. cbn [fst] in *.
  destruct (IH rb1 H1) as [H2 Hc2].
  destruct (run_calls fuel cs rb1) as [rb2 rs]. cbn [fst] in *.
  split; [exact H2|congruence].
Qed.

(** The same in an interleaving: every step keeps the capacity, the range
    of the indices, and the range of the next index each task carries. *)
Lemma step_enq_indices item pc rb :
  indices_ok rb → task_ok (cap rb) (TEnqueue item pc) →
  indices_ok (snd (step_enq item pc rb))
  ∧ cap (snd (step_enq item pc rb)) = cap rb
  ∧ task_ok (cap rb) (TEnqueue item (fst (step_enq item pc rb))).
Proof.
  intros Hi Ht.
  destruct pc as [|hd tl nt h|tl nt h|tl nt h| |h|h|out]; cbn [step_enq].
  - destruct (_ =? _); [now cbn|].
    destruct (data rb !! _); cbn [fst snd]; [|auto].
    split; [exact Hi|]. split; [reflexivity|]. cbn [task_ok].
    now apply next_index_range.
  - pose proof (indices_ok_CAS_rw rb h 0 2 Hi).
    pose proof (cap_CAS_rw rb h 0 2).
    destruct (CompareAndSwap_readWrite rb h 0 2) as [[] ?]; cbn in *; auto.
  - cbn. split; [now apply indices_ok_store|]. split; [apply cap_store|exact Ht].
  - pose proof (indices_ok_CAS_tail rb tl nt Ht Hi).
    pose proof (cap_CAS_tail rb tl nt).
    destruct (CompareAndSwap_tail rb tl nt); cbn in *; auto.
  - cbn. auto.
  - pose proof (indices_ok_CAS_rw rb h 2 1 Hi).
    pose proof (cap_CAS_rw rb h 2 1).
    destruct (CompareAndSwap_readWrite rb h 2 1) as [[] ?]; cbn in *; auto.
  - cbn. auto.
  - cbn. auto.
Qed.

Lemma step_deq_indices pc rb :
  indices_ok rb → task_ok (cap rb) (TDequeue pc) →
  indices_ok (snd (fst (step_deq pc rb)))
  ∧ cap (snd (fst (step_deq pc rb))) = cap rb
  ∧ task_ok (cap rb) (TDequeue (fst (fst (step_deq pc rb)))).
Proof.
  intros Hi Ht.
  destruct pc as [|hd tl h|hd tl h|item hd tl nh h| |item hd tl nh h|item h
                  |item hd tl nh|out]; cbn [step_deq].
  - destruct (_ =? _); [now cbn|].
    destruct (data rb !! _); cbn; auto.
  - pose proof (indices_ok_CAS_rw rb h 1 3 Hi).
    pose proof (cap_CAS_rw rb h 1 3).
    destruct (CompareAndSwap_readWrite rb h 1 3) as [[] ?]; cbn in *; auto.
  - cbn [fst snd]. split; [exact Hi|]. split; [reflexivity|]. cbn [task_ok].
    now apply next_index_range.
  - pose proof (indices_ok_CAS_head rb hd nh Ht Hi).
    pose proof (cap_CAS_head rb hd nh).
    destruct (CompareAndSwap_head rb hd nh); cbn in *; auto.
  - cbn. auto.
  - pose proof (indices_ok_CAS_rw rb h 3 0 Hi).
    pose proof (cap_CAS_rw rb h 3 0).
    destruct (CompareAndSwap_readWrite rb h 3 0) as [[] ?]; cbn in *; auto.
  - cbn. auto.
  - destruct (check_nil rb item hd tl nh). cbn. auto.
  - cbn. auto.
Qed.

Lemma sched_step_ok c0 (c : config V) i :
  config_ok c0 c → config_ok c0 (sched_step c i).
Proof.
  intros (Hi & Hc & Ht). unfold sched_step.
  destruct (tasks c !! i) as [[item pc|pc]|] eqn:Hl; [| |now split].
  - pose proof (Forall_lookup_1 _ _ _ _ Ht Hl) as Hp. rewrite <- Hc in Hp.
    destruct (step_enq_indices item pc (mem c) Hi Hp) as (H1 & H2 & H3).
    destruct (step_enq item pc (mem c)) as [pc' rb']. cbn [fst snd] in *.
    unfold config_ok. cbn [mem tasks].
    split; [exact H1|]. split; [congruence|].
    apply Forall_insert; [exact Ht|]. now rewrite <- Hc.
  - pose proof (Forall_lookup_1 _ _ _ _ Ht Hl) as Hp. rewrite <- Hc in Hp.
    destruct (step_deq_indices pc (mem c) Hi Hp) as (H1 & H2 & H3).
    destruct (step_deq pc (mem c)) as [[pc' rb'] lg]. cbn [fst snd] in *.
    unfold config_ok. cbn [mem tasks].
    split; [exact H1|]. split; [congruence|].
    apply Forall_insert; [exact Ht|]. now rewrite <- Hc.
Qed.

Lemma run_ok c0 sched (c : config V) :
  config_ok c0 c → config_ok c0 (run sched c).
Proof.
  revert c. induction sched as [|i sched IH]; intros c Hc; [exact Hc|].
  cbn. apply IH. now apply sched_step_ok.
Qed.

Lemma spawn_ok rb cs : indices_ok rb → config_ok (cap rb) (spawn rb cs).
Proof.
  intros Hi. split; [exact Hi|]. split; [reflexivity|].
  unfold spawn. cbn [tasks].
  induction cs as [|c cs IH]; constructor; [now destruct c|exact IH].
Qed.

(** C6.  If the capacity is a power of two, the mask is the capacity
    less one and [head = tail = 0], then after any sequence of calls of
    [Enqueue] and [Dequeue], however each of them ends, the capacity is
    what it was and both indices are in [[0, capacity)]; the same holds
    after any interleaving of the steps of any such calls. *)
Theorem C6_indices_below_capacity rb k :
  0 ≤ k → cap rb = 2 ^ k → capModMask rb = cap rb - 1 →
  head rb = 0 → tail rb = 0 →
  (∀ fuel cs,
     cap (fst (run_calls fuel cs rb)) = cap rb
     ∧ 0 ≤ head (fst (run_calls fuel cs rb)) < cap rb
     ∧ 0 ≤ tail (fst (run_calls fuel cs rb)) < cap rb)
  ∧ (∀ sched cs,
       cap (mem (run sched (spawn rb cs))) = cap rb
       ∧ 0 ≤ head (mem (run sched (spawn rb cs))) < cap rb
       ∧ 0 ≤ tail (mem (run sched (spawn rb cs))) < cap rb).
Proof.
  intros Hk Hc Hm Hh Ht.
  assert (indices_ok rb) as Hi.
  { split; [eauto|]. split; [exact Hm|].
    assert (0 < cap rb) by (rewrite Hc; apply Z.pow_pos_nonneg; lia). lia. }
  split.
  - intros fuel cs. destruct (run_calls_indices fuel cs rb Hi) as [(_ & _ & H1 & H2) H3].
    rewrite H3 in H1, H2. auto.
  - intros sched cs.
    destruct (run_ok (cap rb) sched _ (spawn_ok rb cs Hi)) as ((_ & _ & H1 & H2) & H3 & _).
    rewrite H3 in H1, H2. auto.
Qed.


(** ** The slot markers *)

Lemma rw_at_insert rb (d : list (rbItem V)) h x j it :
  data rb !! h = Some it →
  rw_at (set_data rb (<[h := x]> (data rb))) j
  = if decide (j = h) then readWrite x else rw_at rb j.
Proof.
  intros Hit. unfold rw_at. cbn [data set_data].
  destruct (decide (j = h)) as [->|Hne].
  - now rewrite (lookup_insert_slot _ _ _ _ Hit).
  - now rewrite list_lookup_insert_ne by congruence.
Qed.

(** What a compare-and-swap on the marker of slot [h] does to the marker
    of slot [j]. *)
Lemma CAS_rw_effect rb h old new j :
  let rb' := snd (CompareAndSwap_readWrite rb h old new) in
  (fst (CompareAndSwap_readWrite rb h old new) = true
   ∧ rw_at rb h = old ∧ rw_at rb' h = new ∧ (j ≠ h → rw_at rb' j = rw_at rb j))
  ∨ (fst (CompareAndSwap_readWrite rb h old new) = false ∧ rb' = rb).
Proof.
  cbv zeta. unfold CompareAndSwap_readWrite.
  destruct (data rb !! h) as [it|] eqn:Hit; [|right; auto].
  destruct (Z.eqb_spec (readWrite it) old) as [E|E]; [left|right; auto].
  cbn [fst snd]. split; [reflexivity|].
  split; [unfold rw_at; now rewrite Hit|].
  split.
  - rewrite (rw_at_insert rb (data rb) h _ h it Hit). now rewrite decide_True.
  - intros Hne. rewrite (rw_at_insert rb (data rb) h _ j it Hit).
    now rewrite decide_False.
Qed.

Lemma rw_at_store rb h item j : rw_at (store_value rb h item) j = rw_at rb j.
Proof.
  unfold store_value. destruct (data rb !! h) as [it|] eqn:Hit; [|reflexivity].
  rewrite (rw_at_insert rb (data rb) h _ j it Hit). cbn [readWrite].
  destruct (decide (j = h)) as [->|]; [|reflexivity].
  unfold rw_at. now rewrite Hit.
Qed.

Lemma rw_at_data rb rb' j : data rb' = data rb → rw_at rb' j = rw_at rb j.
Proof. unfold rw_at. now intros ->. Qed.

Lemma markers_ok_rw_at rb :
  markers_ok rb ↔ ∀ j, (j < length (data rb))%nat → marker (rw_at rb j).
Proof.
  unfold markers_ok, rw_at. split.
  - intros H j Hj. destruct (lookup_lt_is_Some_2 _ _ Hj) as [it Hit].
    rewrite Hit. eauto.
  - intros H j it Hit. specialize (H j (lookup_lt_Some _ _ _ Hit)).
    now rewrite Hit in H.
Qed.

Lemma length_data_CAS_rw rb h old new :
  length (data (snd (CompareAndSwap_readWrite rb h old new))) = length (data rb).
Proof.
  unfold CompareAndSwap_readWrite. destruct (data rb !! h); [|reflexivity].
  destruct (_ =? _); [|reflexivity]. cbn [snd data set_data]. apply length_insert.
Qed.

Lemma markers_ok_CAS_rw rb h old new :
  marker new → markers_ok rb → markers_ok (snd (CompareAndSwap_readWrite rb h old new)).
Proof.
  intros Hn. rewrite !markers_ok_rw_at. intros H j Hj.
  rewrite length_data_CAS_rw in Hj.
  destruct (CAS_rw_effect rb h old new j) as [(_ & _ & E1 & E2)|[_ ->]]; [|auto].
  destruct (decide (j = h)) as [->|Hne]; [now rewrite E1|].
  rewrite E2 by assumption. auto.
Qed.

Lemma markers_ok_store rb h item : markers_ok rb → markers_ok (store_value rb h item).
Proof.
  rewrite !markers_ok_rw_at. intros H j Hj. rewrite rw_at_store. apply H.
  unfold store_value in Hj. destruct (data rb !! h); [|exact Hj].
  cbn [data set_data] in Hj. now rewrite length_insert in Hj.
Qed.

Lemma markers_ok_data rb rb' : data rb' = data rb → markers_ok rb → markers_ok rb'.
Proof. unfold markers_ok. now intros ->. Qed.

(** One step of a producer leaves every marker alone, or claims the slot
    it holds (0 to 2), or publishes it (2 to 1). *)
Lemma step_enq_rw item pc rb j :
  rw_at (snd (step_enq item pc rb)) j = rw_at rb j
  ∨ ((∃ hd tl nt, pc = E_claim hd tl nt j)
     ∧ rw_at rb j = 0 ∧ rw_at (snd (step_enq item pc rb)) j = 2)
  ∨ (pc = E_release j ∧ rw_at rb j = 2 ∧ rw_at (snd (step_enq item pc rb)) j = 1).
Proof.
  destruct pc as [|hd tl nt h|tl nt h|tl nt h| |h|h|out]; cbn [step_enq].
  - left. destruct (_ =? _); [reflexivity|]. now destruct (data rb !! _).
  - destruct (CAS_rw_effect rb h 0 2 j) as [(Hok & E0 & E1 & E2)|[Hf E]].
    + destruct (CompareAndSwap_readWrite rb h 0 2) as [ok rb1]. cbn [fst snd] in *.
      subst ok. cbn [snd].
      destruct (decide (j = h)) as [->|Hne]; [right; left; eauto 10|left; auto].
    + destruct (CompareAndSwap_readWrite rb h 0 2) as [ok rb1]. cbn [fst snd] in *.
      subst ok rb1. now left.
  - left. apply rw_at_store.
  - left. pose proof (data_CAS_tail rb tl nt) as Hd.
    destruct (CompareAndSwap_tail rb tl nt). cbn [snd] in *. now apply rw_at_data.
  - now left.
  - destruct (CAS_rw_effect rb h 2 1 j) as [(Hok & E0 & E1 & E2)|[Hf E]].
    + destruct (CompareAndSwap_readWrite rb h 2 1) as [ok rb1]. cbn [fst snd] in *.
      subst ok. cbn [negb snd].
      destruct (decide (j = h)) as [->|Hne]; [right; right; auto|left; auto].
    + destruct (CompareAndSwap_readWrite rb h 2 1) as [ok rb1]. cbn [fst snd] in *.
      subst ok rb1. now left.
  - now left.
  - now left.
Qed.

(** One step of a consumer leaves every marker alone, or claims the slot
    it holds (1 to 3), or releases it (3 to 0). *)
Lemma step_deq_rw pc rb j :
  rw_at (snd (fst (step_deq pc rb))) j = rw_at rb j
  ∨ ((∃ hd tl, pc = D_claim hd tl j)
     ∧ rw_at rb j = 1 ∧ rw_at (snd (fst (step_deq pc rb))) j = 3)
  ∨ ((∃ item hd tl nh, pc = D_release item hd tl nh j)
     ∧ rw_at rb j = 3 ∧ rw_at (snd (fst (step_deq pc rb))) j = 0).
Proof.
  destruct pc as [|hd tl h|hd tl h|item hd tl nh h| |item hd tl nh h|item h
                  |item hd tl nh|out]; cbn [step_deq].
  - left. destruct (_ =? _); [reflexivity|]. now destruct (data rb !! _).
  - destruct (CAS_rw_effect rb h 1 3 j) as [(Hok & E0 & E1 & E2)|[Hf E]].
    + destruct (CompareAndSwap_readWrite rb h 1 3) as [ok rb1]. cbn [fst snd] in *.
      subst ok. cbn [fst snd].
      destruct (decide (j = h)) as [->|Hne]; [right; left; eauto 10|left; auto].
    + destruct (CompareAndSwap_readWrite rb h 1 3) as [ok rb1]. cbn [fst snd] in *.
      subst ok rb1. now left.
  - now left.
  - left. pose proof (data_CAS_head rb hd nh) as Hd.
    destruct (CompareAndSwap_head rb hd nh). cbn [fst snd] in *. now apply rw_at_data.
  - now left.
  - destruct (CAS_rw_effect rb h 3 0 j) as [(Hok & E0 & E1 & E2)|[Hf E]].
    + destruct (CompareAndSwap_readWrite rb h 3 0) as [ok rb1]. cbn [fst snd] in *.
      subst ok. cbn [negb fst snd].
      destruct (decide (j = h)) as [->|Hne]; [right; right; eauto 10|left; auto].
    + destruct (CompareAndSwap_readWrite rb h 3 0) as [ok rb1]. cbn [fst snd] in *.
      subst ok rb1. now left.
  - now left.
  - left. now destruct (check_nil rb item hd tl nh).
  - now left.
Qed.

Lemma step_enq_markers item pc rb :
  markers_ok rb → markers_ok (snd (step_enq item pc rb)).
Proof.
  intros H. destruct pc as [|hd tl nt h|tl nt h|tl nt h| |h|h|out]; cbn [step_enq].
  - destruct (_ =? _); [exact H|]. now destruct (data rb !! _).
  - pose proof (markers_ok_CAS_rw rb h 0 2 ltac:(unfold marker; lia) H).
    now destruct (CompareAndSwap_readWrite rb h 0 2) as [[] ?].
  - now apply markers_ok_store.
  - pose proof (data_CAS_tail rb tl nt) as Hd.
    destruct (CompareAndSwap_tail rb tl nt). cbn [snd] in *.
    now apply (markers_ok_data rb).
  - exact H.
  - pose proof (markers_ok_CAS_rw rb h 2 1 ltac:(unfold marker; lia) H).
    now destruct (CompareAndSwap_readWrite rb h 2 1) as [[] ?].
  - exact H.
  - exact H.
Qed.

Lemma step_deq_markers pc rb :
  markers_ok rb → markers_ok (snd (fst (step_deq pc rb))).
Proof.
  intros H.
  destruct pc as [|hd tl h|hd tl h|item hd tl nh h| |item hd tl nh h|item h
                  |item hd tl nh|out]; cbn [step_deq].
  - destruct (_ =? _); [exact H|]. now destruct (data rb !! _).
  - pose proof (markers_ok_CAS_rw rb h 1 3 ltac:(unfold marker; lia) H).
    now destruct (CompareAndSwap_readWrite rb h 1 3) as [[] ?].
  - exact H.
  - pose proof (data_CAS_head rb hd nh) as Hd.
    destruct (CompareAndSwap_head rb hd nh). cbn [fst snd] in *.
    now apply (markers_ok_data rb).
  - exact H.
  - pose proof (markers_ok_CAS_rw rb h 3 0 ltac:(unfold marker; lia) H).
    now destruct (CompareAndSwap_readWrite rb h 3 0) as [[] ?].
  - exact H.
  - now destruct (check_nil rb item hd tl nh).
  - exact H.
Qed.

Lemma sched_step_markers (c : config V) i :
  markers_ok (mem c) → markers_ok (mem (sched_step c i)).
Proof.
  intros H. unfold sched_step.
  destruct (tasks c !! i) as [[item pc|pc]|]; [| |exact H].
  - pose proof (step_enq_markers item pc (mem c) H).
    now destruct (step_enq item pc (mem c)).
  - pose proof (step_deq_markers pc (mem c) H).
    now destruct (step_deq pc (mem c)) as [[? ?] ?].
Qed.

Lemma run_markers sched (c : config V) :
  markers_ok (mem c) → markers_ok (mem (run sched c)).
Proof.
  revert c. induction sched as [|i sched IH]; intros c H; [exact H|].
  cbn. apply IH. now apply sched_step_markers.
Qed.

Lemma New_markers capacity dbg : markers_ok (New (V := V) capacity dbg).
Proof.
  intros j it. unfold New. cbn [data]. intros Hit.
  apply lookup_replicate_1 in Hit as [-> _]. now left.
Qed.

(** C2.  The marker of a slot is only ever 0, 1, 2 or 3: a buffer whose
    markers are among the four keeps them so at every step, and a fresh
    buffer has them so after any interleaving of any calls.  A step of a
    task leaves the marker of every slot alone except for four cases,
    each the compare-and-swap of one program point on the one slot the
    task holds: the claim of [Enqueue] (0 to 2), its release (2 to 1),
    the claim of [Dequeue] (1 to 3) and its release (3 to 0). *)
Theorem C2_marker_transitions (c : config V) (i : nat) :
  (markers_ok (mem c) → markers_ok (mem (sched_step c i)))
  ∧ (∀ j,
       rw_at (mem (sched_step c i)) j = rw_at (mem c) j
       ∨ ((∃ item hd tl nt, tasks c !! i = Some (TEnqueue item (E_claim hd tl nt j)))
          ∧ rw_at (mem c) j = 0 ∧ rw_at (mem (sched_step c i)) j = 2)
       ∨ ((∃ item, tasks c !! i = Some (TEnqueue item (E_release j)))
          ∧ rw_at (mem c) j = 2 ∧ rw_at (mem (sched_step c i)) j = 1)
       ∨ ((∃ hd tl, tasks c !! i = Some (TDequeue (D_claim hd tl j)))
          ∧ rw_at (mem c) j = 1 ∧ rw_at (mem (sched_step c i)) j = 3)
       ∨ ((∃ item hd tl nh, tasks c !! i = Some (TDequeue (D_release item hd tl nh j)))
          ∧ rw_at (mem c) j = 3 ∧ rw_at (mem (sched_step c i)) j = 0))
  ∧ (∀ sched capacity dbg cs,
       markers_ok (mem (run sched (spawn (New (V := V) capacity dbg) cs)))).
Proof.
  split; [apply sched_step_markers|]. split.
  - intros j. unfold sched_step.
    destruct (tasks c !! i) as [[item pc|pc]|] eqn:Hl; [| |now left].
    + destruct (step_enq_rw item pc (mem c) j)
        as [E|[((hd & tl & nt & ->) & E0 & E1)|(-> & E0 & E1)]];
        destruct (step_enq _ _ (mem c)) as [pc' rb'];
        cbn [mem fst snd] in *; eauto 15.
    + destruct (step_deq_rw pc (mem c) j)
        as [E|[((hd & tl & ->) & E0 & E1)|((item & hd & tl & nh & ->) & E0 & E1)]];
        destruct (step_deq _ (mem c)) as [[pc' rb'] lg];
        cbn [mem fst snd] in *; eauto 15.
  - intros sched capacity dbg cs. apply run_markers. apply New_markers.
Qed.


(** ** Fresh buffers *)

Lemma roundUpToPower2_spec size :
  size ≤ 2 ^ 31 →
  ∃ k, 0 ≤ k < 32 ∧ roundUpToPower2 size = 2 ^ k.
Proof.
  intros Hs. unfold roundUpToPower2. eexists. split; [|reflexivity].
  split; [apply Z.log2_up_nonneg|].
  assert (Z.log2_up (Z.max size 2) ≤ 31); [|lia].
  apply Z.log2_up_le_pow2; lia.
Qed.

(** A fresh buffer holds the empty queue. *)
Lemma New_Repr capacity dbg :
  capacity ≤ 2 ^ 31 → Repr (New (V := V) capacity dbg) [].
Proof.
  intros Hs. destruct (roundUpToPower2_spec capacity Hs) as (k & Hk & E).
  assert (0 < roundUpToPower2 capacity)
    by (rewrite E; apply Z.pow_pos_nonneg; lia).
  unfold New. constructor; cbn [cap capModMask head tail data length].
  - eauto.
  - reflexivity.
  - rewrite length_replicate. lia.
  - lia.
  - lia.
  - rewrite Z.sub_diag, Z.mod_0_l by lia. reflexivity.
  - intros i it Hit. apply lookup_replicate_1 in Hit as [-> _].
    rewrite lookup_nil. reflexivity.
Qed.


(** ** A call run alone is a run of its task *)

Lemma steps_enq_end n item out rb :
  steps_enq n item (E_end out) rb = (E_end out, rb).
Proof. induction n as [|n IH]; [reflexivity|exact IH]. Qed.

Lemma steps_deq_end n (out : outcome (option V * option error)) rb :
  steps_deq n (D_end out) rb = (D_end out, rb, []).
Proof.
  induction n as [|n IH]; [reflexivity|]. cbn [steps_deq step_deq]. now rewrite IH.
Qed.

Lemma steps_enq_S n item pc rb :
  steps_enq (S n) item pc rb =
  steps_enq n item (fst (step_enq item pc rb)) (snd (step_enq item pc rb)).
Proof. cbn [steps_enq]. now destruct (step_enq item pc rb). Qed.

Lemma steps_deq_S n pc rb :
  steps_deq (S n) pc rb =
  let r := step_deq pc rb in
  let r' := steps_deq n (fst (fst r)) (snd (fst r)) in
  (fst (fst r'), snd (fst r'), snd r ++ snd r').
Proof.
  cbn [steps_deq]. destruct (step_deq pc rb) as [[pc' rb'] lg]. cbn [fst snd].
  now destruct (steps_deq n pc' rb') as [[pc'' rb''] lg'].
Qed.

Lemma steps_enq_app n m item pc rb :
  steps_enq (n + m) item pc rb =
  steps_enq m item (fst (steps_enq n item pc rb)) (snd (steps_enq n item pc rb)).
Proof.
  revert pc rb. induction n as [|n IH]; intros pc rb; [reflexivity|].
  cbn [Nat.add]. rewrite !steps_enq_S. apply IH.
Qed.

Lemma steps_deq_app n m pc rb :
  steps_deq (n + m) pc rb =
  let r := steps_deq n pc rb in
  let r' := steps_deq m (fst (fst r)) (snd (fst r)) in
  (fst (fst r'), snd (fst r'), snd r ++ snd r').
Proof.
  revert pc rb. induction n as [|n IH]; intros pc rb.
  - cbn [Nat.add steps_deq fst snd]. cbv zeta. cbn [app].
    now destruct (steps_deq m pc rb) as [[? ?] ?].
  - cbn [Nat.add]. rewrite !steps_deq_S. cbv zeta. rewrite IH. cbv zeta.
    cbn [fst snd]. now rewrite app_assoc.
Qed.

Lemma step_enq_load item rb :
  step_enq item E_load rb =
  let h := fst (snapshot rb) in
  let t := snd (snapshot rb) in
  let nt := Z.land (u32 (t + 1)) (capModMask rb) in
  if nt =? h then (E_end (Returned (Some ErrQueueFull)), rb)
  else match data rb !! Z.to_nat t with
       | None => (E_end Panicked, rb)
       | Some _ => (E_claim h t nt (Z.to_nat t), rb)
       end.
Proof. reflexivity. Qed.

Lemma step_deq_load rb :
  step_deq D_load rb =
  let h := fst (snapshot rb) in
  let t := snd (snapshot rb) in
  if h =? t then (D_end (Returned (None, Some ErrQueueEmpty)), rb, [])
  else match data rb !! Z.to_nat h with
       | None => (D_end Panicked, rb, [])
       | Some _ => (D_claim h t (Z.to_nat h), rb, [])
       end.
Proof. reflexivity. Qed.

(** The turns of the loop of [Enqueue], as steps of the task. *)
Lemma steps_enq_full item rb :
  full_at rb → steps_enq 1 item E_load rb = (E_end (Returned (Some ErrQueueFull)), rb).
Proof.
  intros Hf. rewrite steps_enq_S, step_enq_load. cbv zeta.
  unfold full_at in Hf. rewrite Hf, Z.eqb_refl. reflexivity.
Qed.

Lemma steps_enq_panics item rb :
  ¬ full_at rb → data rb !! Z.to_nat (snd (snapshot rb)) = None →
  steps_enq 1 item E_load rb = (E_end Panicked, rb).
Proof.
  intros Hnf Hit. rewrite steps_enq_S, step_enq_load. cbv zeta.
  destruct (Z.eqb_spec (Z.land (u32 (snd (snapshot rb) + 1)) (capModMask rb))
                       (fst (snapshot rb))) as [E|_]; [contradiction|].
  rewrite Hit. reflexivity.
Qed.

Lemma steps_enq_blocked item rb it :
  ¬ full_at rb →
  data rb !! Z.to_nat (snd (snapshot rb)) = Some it → readWrite it ≠ 0 →
  steps_enq 3 item E_load rb = (E_load, AddUint64_putWaits rb 1).
Proof.
  intros Hnf Hit Hrw. rewrite steps_enq_S, step_enq_load. cbv zeta.
  destruct (Z.eqb_spec (Z.land (u32 (snd (snapshot rb) + 1)) (capModMask rb))
                       (fst (snapshot rb))) as [E|_]; [contradiction|].
  rewrite Hit. cbn [fst snd]. rewrite steps_enq_S. cbn [step_enq].
  rewrite (CAS_rw_miss _ _ _ _ _ Hit Hrw). reflexivity.
Qed.

Lemma steps_enq_claimed item rb it :
  ¬ full_at rb →
  data rb !! Z.to_nat (snd (snapshot rb)) = Some it → readWrite it = 0 →
  steps_enq 5 item E_load rb =
  (E_end (Returned None),
   set_data
     (snd (CompareAndSwap_tail rb (snd (snapshot rb))
             (Z.land (u32 (snd (snapshot rb) + 1)) (capModMask rb))))
     (<[Z.to_nat (snd (snapshot rb)) := mkItem 1 item]> (data rb))).
Proof.
  intros Hnf Hit Hrw. rewrite steps_enq_S, step_enq_load. cbv zeta.
  destruct (Z.eqb_spec (Z.land (u32 (snd (snapshot rb) + 1)) (capModMask rb))
                       (fst (snapshot rb))) as [E|_]; [contradiction|].
  rewrite Hit. cbn [fst snd]. clear Hnf.
  generalize (Z.land (u32 (snd (snapshot rb) + 1)) (capModMask rb)) as nt.
  generalize (fst (snapshot rb)) as hd.
  revert Hit. generalize (snd (snapshot rb)) as t. intros t Hit hd nt.
  rewrite steps_enq_S. cbn [step_enq].
  rewrite (CAS_rw_hit _ _ _ _ _ Hit Hrw). cbn [fst snd].
  rewrite steps_enq_S. cbn [step_enq fst snd].
  unfold store_value. cbn [data set_data].
  rewrite (lookup_insert_slot _ _ _ _ Hit). cbn [readWrite value].
  rewrite list_insert_insert_eq.
  rewrite steps_enq_S. cbn [step_enq].
  unfold CompareAndSwap_tail. cbn [tail set_data].
  destruct (tail rb =? t); cbn [fst snd].
  - rewrite steps_enq_S. cbn [step_enq].
    rewrite (CAS_rw_hit _ (Z.to_nat t) 2 1 (mkItem 2 item)).
    + cbn [negb value data set_data set_tail fst snd].
      rewrite list_insert_insert_eq. reflexivity.
    + cbn [data set_data set_tail]. eapply lookup_insert_slot, Hit.
    + reflexivity.
  - rewrite steps_enq_S. cbn [step_enq].
    rewrite (CAS_rw_hit _ (Z.to_nat t) 2 1 (mkItem 2 item)).
    + cbn [negb value data set_data set_tail fst snd].
      rewrite list_insert_insert_eq. reflexivity.
    + cbn [data set_data set_tail]. eapply lookup_insert_slot, Hit.
    + reflexivity.
Qed.

(** Every call of [Enqueue] that does not run out of fuel is a run of
    its task with the same result and the same final buffer. *)
Lemma Enqueue_solo fuel rb item :
  snd (Enqueue fuel rb item) ≠ Spinning →
  ∃ n, steps_enq n item E_load rb
       = (E_end (snd (Enqueue fuel rb item)), fst (Enqueue fuel rb item)).
Proof.
  revert rb. induction fuel as [|fuel IH]; intros rb Hs; [now contradict Hs|].
  destruct (full_at_dec rb) as [Hf|Hnf].
  { exists 1%nat. rewrite (Enqueue_full fuel rb item Hf). now apply steps_enq_full. }
  destruct (data rb !! Z.to_nat (snd (snapshot rb))) as [it|] eqn:Hit.
  - destruct (Z.eq_dec (readWrite it) 0) as [Hrw|Hrw].
    + exists 5%nat. rewrite (Enqueue_claimed fuel rb item it Hnf Hit Hrw).
      now apply (steps_enq_claimed item rb it).
    + rewrite (Enqueue_blocked fuel rb item it Hnf Hit Hrw) in Hs |- *.
      destruct (IH _ Hs) as [n Hn]. exists (3 + n)%nat.
      rewrite steps_enq_app, (steps_enq_blocked item rb it Hnf Hit Hrw).
      exact Hn.
  - exists 1%nat. rewrite (Enqueue_panics fuel rb item Hnf Hit).
    now apply steps_enq_panics.
Qed.

(** The turns of the loop of [Dequeue], as steps of the task. *)
Lemma steps_deq_empty rb :
  empty_at rb →
  steps_deq 1 D_load rb = (D_end (Returned (None, Some ErrQueueEmpty)), rb, []).
Proof.
  intros He. rewrite steps_deq_S, step_deq_load. cbv zeta.
  unfold empty_at in He. rewrite He, Z.eqb_refl. reflexivity.
Qed.

Lemma steps_deq_panics rb :
  ¬ empty_at rb → data rb !! Z.to_nat (fst (snapshot rb)) = None →
  steps_deq 1 D_load rb = (D_end Panicked, rb, []).
Proof.
  intros Hne Hit. rewrite steps_deq_S, step_deq_load. cbv zeta.
  destruct (Z.eqb_spec (fst (snapshot rb)) (snd (snapshot rb))) as [E|_];
    [contradiction|].
  rewrite Hit. reflexivity.
Qed.

Lemma steps_deq_blocked rb it :
  ¬ empty_at rb →
  data rb !! Z.to_nat (fst (snapshot rb)) = Some it → readWrite it ≠ 1 →
  steps_deq 3 D_load rb = (D_load, AddUint64_getWaits rb 1, []).
Proof.
  intros Hne Hit Hrw. rewrite steps_deq_S, step_deq_load. cbv zeta.
  destruct (Z.eqb_spec (fst (snapshot rb)) (snd (snapshot rb))) as [E|_];
    [contradiction|].
  rewrite Hit. cbn [fst snd]. rewrite steps_deq_S. cbn [step_deq].
  rewrite (CAS_rw_miss _ _ _ _ _ Hit Hrw). reflexivity.
Qed.

Lemma steps_deq_claimed rb it :
  ¬ empty_at rb →
  data rb !! Z.to_nat (fst (snapshot rb)) = Some it → readWrite it = 1 →
  steps_deq 6 D_load rb =
  let h := fst (snapshot rb) in
  let nh := Z.land (u32 (h + 1)) (capModMask rb) in
  let rb' := set_data (snd (CompareAndSwap_head rb h nh))
                      (<[Z.to_nat h := mkItem 0 (value it)]> (data rb)) in
  (D_end (snd (check_nil rb' (value it) h (snd (snapshot rb)) nh)), rb',
   fst (check_nil rb' (value it) h (snd (snapshot rb)) nh)).
Proof.
  intros Hne Hit Hrw. rewrite steps_deq_S, step_deq_load. cbv zeta.
  destruct (Z.eqb_spec (fst (snapshot rb)) (snd (snapshot rb))) as [E|_];
    [contradiction|].
  rewrite Hit. cbn [fst snd app]. clear Hne.
  generalize (snd (snapshot rb)) as t.
  revert Hit. generalize (fst (snapshot rb)) as h. intros h Hit t.
  rewrite steps_deq_S. cbn [step_deq]. cbv zeta.
  rewrite (CAS_rw_hit _ _ _ _ _ Hit Hrw). cbn [fst snd app].
  rewrite steps_deq_S. cbn [step_deq]. cbv zeta. cbn [fst snd app].
  unfold value_at. cbn [data set_data capModMask].
  rewrite (lookup_insert_slot _ _ _ _ Hit). cbn [value].
  generalize (Z.land (u32 (h + 1)) (capModMask rb)) as nh. intros nh.
  rewrite steps_deq_S. cbn [step_deq]. cbv zeta.
  unfold CompareAndSwap_head. cbn [head set_data].
  destruct (head rb =? h); cbn [fst snd app].
  - rewrite steps_deq_S. cbn [step_deq]. cbv zeta.
    rewrite (CAS_rw_hit _ (Z.to_nat h) 3 0 (mkItem 3 (value it)));
      [| cbn [data set_data set_head]; eapply lookup_insert_slot, Hit | reflexivity].
    cbn [negb value data set_data set_head fst snd app].
    rewrite list_insert_insert_eq.
    rewrite steps_deq_S. cbn [step_deq steps_deq]. cbv zeta.
    unfold set_data, set_head. cbn [cap capModMask head tail putWaits getWaits data debugMode].
    destruct (check_nil _ _ _ _ _). cbn [fst snd]. now rewrite app_nil_r.
  - rewrite steps_deq_S. cbn [step_deq]. cbv zeta.
    rewrite (CAS_rw_hit _ (Z.to_nat h) 3 0 (mkItem 3 (value it)));
      [| cbn [data set_data set_head]; eapply lookup_insert_slot, Hit | reflexivity].
    cbn [negb value data set_data set_head fst snd app].
    rewrite list_insert_insert_eq.
    rewrite steps_deq_S. cbn [step_deq steps_deq]. cbv zeta.
    unfold set_data. cbn [cap capModMask head tail putWaits getWaits data debugMode].
    destruct (check_nil _ _ _ _ _). cbn [fst snd]. now rewrite app_nil_r.
Qed.

(** Every call of [Dequeue] that does not run out of fuel is a run of
    its task with the same result, the same final buffer and the same
    log. *)
Lemma Dequeue_solo fuel rb :
  snd (Dequeue fuel rb) ≠ Spinning →
  ∃ n, steps_deq n D_load rb
       = (D_end (snd (Dequeue fuel rb)), fst (fst (Dequeue fuel rb)),
          snd (fst (Dequeue fuel rb))).
Proof.
  revert rb. induction fuel as [|fuel IH]; intros rb Hs; [now contradict Hs|].
  destruct (empty_at_dec rb) as [He|Hne].
  { exists 1%nat. rewrite (Dequeue_empty fuel rb He). now apply steps_deq_empty. }
  destruct (data rb !! Z.to_nat (fst (snapshot rb))) as [it|] eqn:Hit.
  - destruct (Z.eq_dec (readWrite it) 1) as [Hrw|Hrw].
    + exists 6%nat. rewrite (Dequeue_claimed fuel rb it Hne Hit Hrw).
      now apply (steps_deq_claimed rb it).
    + rewrite (Dequeue_blocked fuel rb it Hne Hit Hrw) in Hs |- *.
      destruct (IH _ Hs) as [n Hn]. exists (3 + n)%nat.
      rewrite steps_deq_app, (steps_deq_blocked rb it Hne Hit Hrw).
      cbv zeta. cbn [fst snd app]. rewrite Hn. reflexivity.
  - exists 1%nat. rewrite (Dequeue_panics fuel rb Hne Hit).
    now apply steps_deq_panics.
Qed.


(** ** Calls made one after the other are one of the interleavings *)

Lemma run_app s1 s2 (c : config V) : run (s1 ++ s2) c = run s2 (run s1 c).
Proof. unfold run. apply fold_left_app. Qed.

Lemma run_task_enq n i (c : config V) item pc :
  tasks c !! i = Some (TEnqueue item pc) →
  run (repeat i n) c =
  mkConfig (snd (steps_enq n item pc (mem c))) (logged c)
           (<[i := TEnqueue item (fst (steps_enq n item pc (mem c)))]> (tasks c)).
Proof.
  revert c pc. induction n as [|n IH]; intros c pc Hl.
  - cbn [repeat run fold_left steps_enq fst snd].
    rewrite list_insert_id by exact Hl. now destruct c.
  - cbn [repeat]. change (run (i :: repeat i n) c) with (run (repeat i n) (sched_step c i)).
    unfold sched_step. rewrite Hl. rewrite steps_enq_S.
    destruct (step_enq item pc (mem c)) as [pc' rb']. cbn [fst snd].
    rewrite (IH _ pc'); cbn [mem logged tasks].
    + now rewrite list_insert_insert_eq.
    + apply list_lookup_insert_eq. now apply lookup_lt_Some in Hl.
Qed.

Lemma run_task_deq n i (c : config V) pc :
  tasks c !! i = Some (TDequeue pc) →
  run (repeat i n) c =
  mkConfig (snd (fst (steps_deq n pc (mem c))))
           (logged c ++ snd (steps_deq n pc (mem c)))
           (<[i := TDequeue (fst (fst (steps_deq n pc (mem c))))]> (tasks c)).
Proof.
  revert c pc. induction n as [|n IH]; intros c pc Hl.
  - cbn [repeat run fold_left steps_deq fst snd].
    rewrite list_insert_id by exact Hl. rewrite app_nil_r. now destruct c.
  - cbn [repeat]. change (run (i :: repeat i n) c) with (run (repeat i n) (sched_step c i)).
    unfold sched_step. rewrite Hl. rewrite steps_deq_S. cbv zeta.
    destruct (step_deq pc (mem c)) as [[pc' rb'] lg]. cbn [fst snd].
    rewrite (IH _ pc'); cbn [mem logged tasks].
    + now rewrite list_insert_insert_eq, app_assoc.
    + apply list_lookup_insert_eq. now apply lookup_lt_Some in Hl.
Qed.

Lemma do_call_sched fuel c rb lg pre post :
  spins (snd (do_call fuel c rb)) = false →
  ∃ sched lg',
    run sched (mkConfig rb lg (pre ++ start c :: post))
    = mkConfig (fst (do_call fuel c rb)) lg'
               (pre ++ ended c (snd (do_call fuel c rb)) :: post).
Proof.
  intros Hs.
  assert (∀ t : task V, <[length pre := t]> (pre ++ start c :: post) = pre ++ t :: post)
    as Hins.
  { intros t. rewrite insert_app_r_alt by lia. now rewrite Nat.sub_diag. }
  assert ((pre ++ start c :: post) !! length pre = Some (start c)) as Hl
    by now apply list_lookup_middle.
  destruct c as [item|]; unfold do_call in *.
  - destruct (Enqueue_solo fuel rb item) as [n Hn].
    { destruct (Enqueue fuel rb item) as [rb' []]; cbn in *; congruence. }
    exists (repeat (length pre) n), lg.
    rewrite (run_task_enq n (length pre) (mkConfig rb lg _) item E_load Hl).
    cbn [mem logged tasks].
    rewrite Hn, Hins. cbn [fst snd].
    now destruct (Enqueue fuel rb item).
  - destruct (Dequeue_solo fuel rb) as [n Hn].
    { destruct (Dequeue fuel rb) as [[rb' lg'] []]; cbn in *; congruence. }
    exists (repeat (length pre) n), (lg ++ snd (fst (Dequeue fuel rb))).
    rewrite (run_task_deq n (length pre) (mkConfig rb lg _) D_load Hl).
    cbn [mem logged tasks].
    rewrite Hn, Hins. cbn [fst snd].
    now destruct (Dequeue fuel rb) as [[? ?] ?].
Qed.

Lemma run_calls_sched fuel cs rb lg pre :
  Forall (λ r, spins r = false) (snd (run_calls fuel cs rb)) →
  ∃ sched lg',
    run sched (mkConfig rb lg (pre ++ map start cs))
    = mkConfig (fst (run_calls fuel cs rb)) lg'
               (pre ++ zip_with ended cs (snd (run_calls fuel cs rb))).
Proof.
  revert rb lg pre. induction cs as [|c cs IH]; intros rb lg pre Hs.
  - exists [], lg. reflexivity.
  - cbn [run_calls map] in *.
    destruct (do_call_sched fuel c rb lg pre (map start cs)) as (s1 & lg1 & E1).
    { destruct (do_call fuel c rb) as [rb1 r].
      destruct (run_calls fuel cs rb1) as [rb2 rs]. cbn [fst snd] in *.
      now inversion Hs. }
    destruct (do_call fuel c rb) as [rb1 r]. cbn [fst snd] in *.
    destruct (IH rb1 lg1 (pre ++ [ended c r])) as (s2 & lg2 & E2).
    { destruct (run_calls fuel cs rb1) as [rb2 rs]. cbn [fst snd] in *.
      now inversion Hs. }
    exists (s1 ++ s2), lg2. rewrite run_app, E1.
    rewrite <- app_assoc in E2. cbn [app] in E2. rewrite E2.
    destruct (run_calls fuel cs rb1) as [rb2 rs]. cbn [fst snd zip_with].
    now rewrite <- app_assoc.
Qed.

(** X2.  Calls made one after the other, none of which runs out of fuel,
    are the run of one schedule of their tasks: same final buffer, and every
    task ended with the reply of its call. *)
Theorem sequential_calls_are_an_interleaving fuel cs rb :
  Forall (λ r, spins r = false) (snd (run_calls fuel cs rb)) →
  ∃ sched,
    mem (run sched (spawn rb cs)) = fst (run_calls fuel cs rb)
    ∧ tasks (run sched (spawn rb cs)) = zip_with ended cs (snd (run_calls fuel cs rb)).
Proof.
  intros Hs. destruct (run_calls_sched fuel cs rb [] [] Hs) as (sched & lg & E).
  exists sched. unfold spawn. cbn [app] in E. now rewrite E.
Qed.


(** ** Ownership of slots: no task races *)

Lemma total_insert (f : task V → nat) l i t t' :
  l !! i = Some t →
  (total f (<[i := t']> l) + f t = total f l + f t')%nat.
Proof.
  revert i. induction l as [|x l IH]; intros i Hl; [discriminate|].
  destruct i as [|i].
  - cbn in Hl |- *. inversion Hl; subst. clear IH Hl. lia.
  - change (<[S i := t']> (x :: l)) with (x :: <[i := t']> l).
    cbn [total]. pose proof (IH i Hl) as E. clear IH Hl. lia.
Qed.

Lemma total_lookup_le (f : task V → nat) l i t :
  l !! i = Some t → (f t ≤ total f l)%nat.
Proof.
  revert i. induction l as [|x l IH]; intros i Hl; [discriminate|].
  destruct i as [|i].
  - cbn in Hl |- *. inversion Hl; subst. clear IH Hl. lia.
  - cbn [total]. pose proof (IH i Hl) as E. clear IH Hl. lia.
Qed.

(** Closes goals about the two counts once the markers are known. *)
Ltac ind_solve :=
  unfold ind; repeat case_decide; repeat split; (lia || congruence || reflexivity).

(** One step of a producer that holds only slots in state 2. *)
Lemma step_enq_owned item pc rb j :
  raced_task (TEnqueue item pc) = false →
  (∀ k, holds_w k (TEnqueue item pc) = 1%nat → rw_at rb k = 2) →
  (ind (rw_at rb j = 2%Z) + holds_w j (TEnqueue item (fst (step_enq item pc rb)))
   = ind (rw_at (snd (step_enq item pc rb)) j = 2%Z) + holds_w j (TEnqueue item pc))%nat
  ∧ ind (rw_at (snd (step_enq item pc rb)) j = 3) = ind (rw_at rb j = 3)
  ∧ raced_task (TEnqueue item (fst (step_enq item pc rb))) = false.
Proof.
  intros Hr Hown.
  destruct pc as [|hd tl nt h|tl nt h|tl nt h| |h|h|out]; cbn [step_enq].
  - assert (snd (step_enq item E_load rb) = rb) as E by apply step_enq_load_mem.
    cbn [step_enq] in E.
    destruct (_ =? _); [cbn; auto|]. destruct (data rb !! _); cbn; auto.
  - destruct (CAS_rw_effect rb h 0 2 j) as [(Hok & E0 & E1 & E2)|[Hf E]];
      destruct (CompareAndSwap_readWrite rb h 0 2) as [ok rb1];
      cbn [fst snd] in *; subst ok; cbn [fst snd holds_w raced_task].
    + destruct (decide (h = j)) as [->|Hne].
      * rewrite E1. ind_solve.
      * rewrite E2 by congruence. auto.
    + subst rb1. auto.
  - cbn [fst snd holds_w raced_task]. rewrite rw_at_store. auto.
  - pose proof (data_CAS_tail rb tl nt) as Hd.
    destruct (CompareAndSwap_tail rb tl nt) as [ok rb1]. cbn [fst snd] in *.
    rewrite (rw_at_data rb rb1 j Hd). cbn [holds_w raced_task]. auto.
  - cbn. auto.
  - assert (rw_at rb h = 2) as Hh.
    { apply Hown. cbn. now rewrite decide_True. }
    destruct (CAS_rw_effect rb h 2 1 j) as [(Hok & E0 & E1 & E2)|[Hf E]];
      destruct (CompareAndSwap_readWrite rb h 2 1) as [ok rb1] eqn:Hcas;
      cbn [fst snd] in *; subst ok; cbn [negb fst snd holds_w raced_task].
    + destruct (decide (h = j)) as [->|Hne].
      * rewrite E1. ind_solve.
      * rewrite E2 by congruence. auto.
    + exfalso. unfold CompareAndSwap_readWrite, rw_at in *.
      destruct (data rb !! h) as [it|]; [|discriminate].
      rewrite Hh in Hcas. cbn in Hcas. discriminate.
  - discriminate.
  - cbn. auto.
Qed.

Lemma step_enq_holds_r item pc j : holds_r j (TEnqueue item pc) = 0%nat.
Proof. reflexivity. Qed.

Lemma step_deq_owned pc rb j :
  raced_task (TDequeue pc) = false →
  (∀ k, holds_r k (TDequeue pc) = 1%nat → rw_at rb k = 3) →
  (ind (rw_at rb j = 3%Z) + holds_r j (TDequeue (fst (fst (step_deq pc rb))))
   = ind (rw_at (snd (fst (step_deq pc rb))) j = 3%Z) + holds_r j (TDequeue pc))%nat
  ∧ ind (rw_at (snd (fst (step_deq pc rb))) j = 2) = ind (rw_at rb j = 2)
  ∧ raced_task (TDequeue (fst (fst (step_deq pc rb)))) = false.
Proof.
  intros Hr Hown.
  destruct pc as [|hd tl h|hd tl h|item hd tl nh h| |item hd tl nh h|item h
                  |item hd tl nh|out]; cbn [step_deq].
  - destruct (_ =? _); [cbn; auto|]. destruct (data rb !! _); cbn; auto.
  - destruct (CAS_rw_effect rb h 1 3 j) as [(Hok & E0 & E1 & E2)|[Hf E]];
      destruct (CompareAndSwap_readWrite rb h 1 3) as [ok rb1];
      cbn [fst snd] in *; subst ok; cbn [fst snd holds_r raced_task].
    + destruct (decide (h = j)) as [->|Hne].
      * rewrite E1. ind_solve.
      * rewrite E2 by congruence. auto.
    + subst rb1. auto.
  - cbn [fst snd holds_r raced_task]. auto.
  - pose proof (data_CAS_head rb hd nh) as Hd.
    destruct (CompareAndSwap_head rb hd nh) as [ok rb1]. cbn [fst snd] in *.
    rewrite (rw_at_data rb rb1 j Hd). cbn [holds_r raced_task]. auto.
  - cbn. auto.
  - assert (rw_at rb h = 3) as Hh.
    { apply Hown. cbn. now rewrite decide_True. }
    destruct (CAS_rw_effect rb h 3 0 j) as [(Hok & E0 & E1 & E2)|[Hf E]];
      destruct (CompareAndSwap_readWrite rb h 3 0) as [ok rb1] eqn:Hcas;
      cbn [fst snd] in *; subst ok; cbn [negb fst snd holds_r raced_task].
    + destruct (decide (h = j)) as [->|Hne].
      * rewrite E1. ind_solve.
      * rewrite E2 by congruence. auto.
    + exfalso. unfold CompareAndSwap_readWrite, rw_at in *.
      destruct (data rb !! h) as [it|]; [|discriminate].
      rewrite Hh in Hcas. cbn in Hcas. discriminate.
  - discriminate.
  - unfold check_nil. destruct item; cbn; auto.
  - cbn. auto.
Qed.

Lemma owned_holds_w (c : config V) i t k :
  owned c → tasks c !! i = Some t →
  holds_w k t = 1%nat → rw_at (mem c) k = 2.
Proof.
  intros (Hw & _ & _) Hl Hk.
  pose proof (total_lookup_le (holds_w k) _ _ _ Hl) as Hle.
  rewrite Hw, Hk in Hle. unfold ind in Hle. case_decide; [assumption|lia].
Qed.

Lemma owned_holds_r (c : config V) i t k :
  owned c → tasks c !! i = Some t →
  holds_r k t = 1%nat → rw_at (mem c) k = 3.
Proof.
  intros (_ & Hr & _) Hl Hk.
  pose proof (total_lookup_le (holds_r k) _ _ _ Hl) as Hle.
  rewrite Hr, Hk in Hle. unfold ind in Hle. case_decide; [assumption|lia].
Qed.

(** Every step keeps the ownership of slots. *)
Lemma sched_step_owned (c : config V) i : owned c → owned (sched_step c i).
Proof.
  intros Ho. pose proof Ho as (Hw & Hr & Hf). unfold sched_step.
  destruct (tasks c !! i) as [[item pc|pc]|] eqn:Hl; [| |exact Ho].
  - pose proof (Forall_lookup_1 _ _ _ _ Hf Hl) as Hnr. cbv beta in Hnr.
    assert (∀ j,
      (ind (rw_at (mem c) j = 2%Z)
       + holds_w j (TEnqueue item (fst (step_enq item pc (mem c))))
       = ind (rw_at (snd (step_enq item pc (mem c))) j = 2%Z)
         + holds_w j (TEnqueue item pc))%nat
      ∧ ind (rw_at (snd (step_enq item pc (mem c))) j = 3) = ind (rw_at (mem c) j = 3)
      ∧ raced_task (TEnqueue item (fst (step_enq item pc (mem c)))) = false) as Hs.
    { intros j. apply step_enq_owned; [exact Hnr|].
      intros k. now apply (owned_holds_w c i). }
    destruct (step_enq item pc (mem c)) as [pc' rb']. cbn [fst snd] in Hs.
    unfold owned. cbn [mem tasks]. split; [|split].
    + intros j. destruct (Hs j) as (E & _ & _).
      pose proof (total_insert (holds_w j) _ _ _ (TEnqueue item pc') Hl) as Ei.
      specialize (Hw j). lia.
    + intros j. destruct (Hs j) as (_ & E & _).
      pose proof (total_insert (holds_r j) _ _ _ (TEnqueue item pc') Hl) as Ei.
      cbn [holds_r] in Ei. specialize (Hr j). rewrite E. lia.
    + apply Forall_insert; [exact Hf|]. apply (Hs 0%nat).
  - pose proof (Forall_lookup_1 _ _ _ _ Hf Hl) as Hnr. cbv beta in Hnr.
    assert (∀ j,
      (ind (rw_at (mem c) j = 3%Z)
       + holds_r j (TDequeue (fst (fst (step_deq pc (mem c)))))
       = ind (rw_at (snd (fst (step_deq pc (mem c)))) j = 3%Z)
         + holds_r j (TDequeue pc))%nat
      ∧ ind (rw_at (snd (fst (step_deq pc (mem c)))) j = 2) = ind (rw_at (mem c) j = 2)
      ∧ raced_task (TDequeue (fst (fst (step_deq pc (mem c))))) = false) as Hs.
    { intros j. apply step_deq_owned; [exact Hnr|].
      intros k. now apply (owned_holds_r c i). }
    destruct (step_deq pc (mem c)) as [[pc' rb'] lg]. cbn [fst snd] in Hs.
    unfold owned. cbn [mem tasks]. split; [|split].
    + intros j. destruct (Hs j) as (_ & E & _).
      pose proof (total_insert (holds_w j) _ _ _ (TDequeue pc') Hl) as Ei.
      cbn [holds_w] in Ei. specialize (Hw j). rewrite E. lia.
    + intros j. destruct (Hs j) as (E & _ & _).
      pose proof (total_insert (holds_r j) _ _ _ (TDequeue pc') Hl) as Ei.
      specialize (Hr j). lia.
    + apply Forall_insert; [exact Hf|]. apply (Hs 0%nat).
Qed.

Lemma run_owned sched (c : config V) : owned c → owned (run sched c).
Proof.
  revert c. induction sched as [|i sched IH]; intros c H; [exact H|].
  cbn. apply IH. now apply sched_step_owned.
Qed.

Lemma spawn_owned rb cs :
  (∀ j, rw_at rb j ≠ 2 ∧ rw_at rb j ≠ 3) → owned (spawn rb cs).
Proof.
  intros Hq. unfold owned, spawn. cbn [mem tasks].
  split; [|split].
  - intros j. unfold ind. rewrite decide_False by apply Hq.
    induction cs as [|c cs IH]; [reflexivity|]. cbn [map total]. rewrite IH.
    now destruct c.
  - intros j. unfold ind. rewrite decide_False by apply Hq.
    induction cs as [|c cs IH]; [reflexivity|]. cbn [map total]. rewrite IH.
    now destruct c.
  - induction cs as [|c cs IH]; constructor; [now destruct c|exact IH].
Qed.

Lemma Repr_quiescent rb q : Repr rb q → ∀ j, rw_at rb j ≠ 2 ∧ rw_at rb j ≠ 3.
Proof.
  intros R j. unfold rw_at. destruct (data rb !! j) as [it|] eqn:Hit; [|lia].
  pose proof (repr_slots _ _ R _ _ Hit) as Hs.
  destruct (q !! _); lia.
Qed.

(** In every interleaving of calls on a buffer that holds a queue, no
    task builds or returns an [ErrRaced] error: each release
    compare-and-swap finds the marker that the claim of the same task
    wrote. *)
Lemma no_task_races rb q cs sched :
  Repr rb q →
  Forall (λ t, raced_task t = false) (tasks (run sched (spawn rb cs))).
Proof.
  intros R. apply run_owned, spawn_owned. now apply (Repr_quiescent rb q).
Qed.


(** ** First in, first out *)

Lemma run_calls_app fuel cs1 cs2 rb :
  run_calls fuel (cs1 ++ cs2) rb =
  (fst (run_calls fuel cs2 (fst (run_calls fuel cs1 rb))),
   snd (run_calls fuel cs1 rb) ++ snd (run_calls fuel cs2 (fst (run_calls fuel cs1 rb)))).
Proof.
  revert rb. induction cs1 as [|c cs1 IH]; intros rb.
  - cbn [app run_calls fst snd]. now destruct (run_calls fuel cs2 rb).
  - cbn [app run_calls]. destruct (do_call fuel c rb) as [rb1 r].
    rewrite IH. destruct (run_calls fuel cs1 rb1) as [rb2 rs]. reflexivity.
Qed.

Lemma Repr_indices_ok rb q : Repr rb q → indices_ok rb.
Proof.
  intros [(k & Hk & Hc) Hm _ Hh Ht _ _].
  split; [exists k; split; [lia|exact Hc]|]. auto.
Qed.

(** A producer that enqueues the payloads of [l], with room for them. *)
Lemma enqueue_all fuel rb q (l : list V) :
  Repr rb q → Z.of_nat (length q + length l) ≤ cap rb - 1 →
  Repr (fst (run_calls (S fuel) (map (λ v, CallEnqueue (Some v)) l) rb))
       (q ++ map Some l)
  ∧ snd (run_calls (S fuel) (map (λ v, CallEnqueue (Some v)) l) rb)
    = repeat (EnqueueReply (Returned None)) (length l).
Proof.
  revert rb q. induction l as [|v l IH]; intros rb q R Hlen.
  - cbn. rewrite app_nil_r. auto.
  - cbn [map run_calls do_call length repeat].
    assert (¬ full_at rb) as Hnf.
    { rewrite (Repr_full_iff _ _ R). cbn [length] in Hlen. lia. }
    destruct (Enqueue_Repr fuel rb q (Some v) R Hnf) as (rb1 & E & R1).
    destruct (Enqueue_indices (S fuel) rb (Some v) (Repr_indices_ok _ _ R)) as [_ Hc].
    rewrite E in Hc |- *. cbn [fst] in Hc.
    destruct (IH rb1 (q ++ [Some v]) R1) as [R2 E2].
    { rewrite length_app, Hc. cbn [length] in *. lia. }
    destruct (run_calls (S fuel) (map (λ v0, CallEnqueue (Some v0)) l) rb1) as [rb2 rs].
    cbn [fst snd] in *. rewrite <- app_assoc in R2. cbn [app] in R2.
    split; [exact R2|]. now rewrite E2.
Qed.

(** A consumer that dequeues as many times as the queue is long. *)
Lemma dequeue_all fuel rb (l : list V) :
  Repr rb (map Some l) →
  Repr (fst (run_calls (S fuel) (repeat CallDequeue (length l)) rb)) []
  ∧ snd (run_calls (S fuel) (repeat CallDequeue (length l)) rb)
    = map (λ v, DequeueReply (Returned (Some v, None))) l.
Proof.
  revert rb. induction l as [|v l IH]; intros rb R; [now split|].
  cbn [map length repeat run_calls do_call] in *.
  destruct (Dequeue_Repr fuel rb (Some v) (map Some l) R) as (rb1 & -> & R1).
  destruct (IH rb1 R1) as [R2 E2]. cbn [check_nil snd].
  destruct (run_calls (S fuel) (repeat CallDequeue (length l)) rb1) as [rb2 rs].
  cbn [fst snd] in *. split; [exact R2|]. now rewrite E2.
Qed.

(** X1.  A single producer enqueues [l] on a buffer that holds [q], with room
    for it, and a single consumer then dequeues: it receives the payloads
    of [q] and then those of [l], in order, and the buffer is empty. *)
Theorem fifo_single_producer_single_consumer fuel rb (q l : list V) :
  Repr rb (map Some q) → Z.of_nat (length q + length l) ≤ cap rb - 1 →
  snd (run_calls (S fuel)
         (map (λ v, CallEnqueue (Some v)) l ++ repeat CallDequeue (length (q ++ l))) rb)
  = repeat (EnqueueReply (Returned None)) (length l)
    ++ map (λ v, DequeueReply (Returned (Some v, None))) (q ++ l)
  ∧ Repr (fst (run_calls (S fuel)
                 (map (λ v, CallEnqueue (Some v)) l
                  ++ repeat CallDequeue (length (q ++ l))) rb)) [].
Proof.
  intros R Hlen. rewrite run_calls_app. cbn [fst snd].
  destruct (enqueue_all fuel rb (map Some q) l R) as [R1 E1].
  { now rewrite length_map. }
  rewrite <- map_app in R1.
  destruct (dequeue_all fuel _ (q ++ l) R1) as [R2 E2].
  rewrite E1, E2. split; [reflexivity|exact R2].
Qed.


(** C8.  On a buffer that holds a queue, calls made one after the other
    never answer [ErrRaced]: every reply is a success, [ErrQueueFull],
    [ErrQueueEmpty] or the nil-element path; indeed no call run alone
    answers [ErrRaced], whatever the buffer, and no task does in any
    interleaving of calls on such a buffer.  In an interleaving the task
    of [Enqueue] ends with [ErrRaced] exactly when its release
    compare-and-swap (2 to 1) fails, and the task of [Dequeue] exactly
    when its release compare-and-swap (3 to 0) fails: from the release
    point the two next steps go to the error if and only if the
    compare-and-swap fails, and no other step leads there. *)
Theorem C8_Raced_exactly_on_failed_release rb q fuel cs :
  Repr rb q →
  (Forall orderly (snd (run_calls (S fuel) cs rb))
   ∧ Forall (λ r, raced r = false) (snd (run_calls (S fuel) cs rb)))
  ∧ (∀ sched, Forall (λ t, raced_task t = false) (tasks (run sched (spawn rb cs))))
  ∧ (∀ m item n,
       raced (V := V) (EnqueueReply (snd (Enqueue n m item))) = false
       ∧ raced (DequeueReply (snd (Dequeue n m))) = false)
  ∧ (∀ m item h,
       steps_enq 2 item (E_release h) m =
       if fst (CompareAndSwap_readWrite m h 2 1)
       then (E_end (Returned None), snd (CompareAndSwap_readWrite m h 2 1))
       else (E_end (Returned (Some (Errorf_W ErrRaced (rw_at m h)))), m))
  ∧ (∀ m item pc e,
       fst (step_enq item pc m) = E_end (Returned (Some e)) → is_raced e = true →
       pc = E_end (Returned (Some e)) ∨ ∃ h, pc = E_errorf h)
  ∧ (∀ m item pc h,
       fst (step_enq item pc m) = E_errorf h →
       pc = E_release h ∧ fst (CompareAndSwap_readWrite m h 2 1) = false)
  ∧ (∀ m item hd tl nh h,
       steps_deq 2 (D_release item hd tl nh h) m =
       if fst (CompareAndSwap_readWrite m h 3 0)
       then let m' := snd (CompareAndSwap_readWrite m h 3 0) in
            (D_end (snd (check_nil m' item hd tl nh)), m',
             fst (check_nil m' item hd tl nh))
       else (D_end (Returned (item, Some (Errorf_R ErrRaced (rw_at m h)))), m, []))
  ∧ (∀ m pc item e,
       fst (fst (step_deq pc m)) = D_end (Returned (item, Some e)) →
       is_raced e = true →
       pc = D_end (Returned (item, Some e)) ∨ ∃ h, pc = D_errorf item h)
  ∧ (∀ m pc item h,
       fst (fst (step_deq pc m)) = D_errorf item h →
       ∃ hd tl nh, pc = D_release item hd tl nh h
                   ∧ fst (CompareAndSwap_readWrite m h 3 0) = false).
Proof.
  intros R.
  split; [|split; [|split; [|split; [|split; [|split; [|split; [|split]]]]]]].
  - destruct (run_calls_Repr fuel cs rb q R) as (q' & _ & Ho).
    split; [exact Ho|]. eapply Forall_impl; [exact Ho|].
    intros r. apply orderly_not_raced.
  - intros sched. now apply (no_task_races rb q).
  - intros m item n. split; [apply Enqueue_never_raced|apply Dequeue_never_raced].
  - intros m item h. cbn [steps_enq]. rewrite step_enq_release.
    destruct (fst (CompareAndSwap_readWrite m h 2 1)); reflexivity.
  - intros m item pc e. apply step_enq_raced_inv.
  - intros m item pc h. apply step_enq_errorf_inv.
  - intros m item hd tl nh h. cbn [steps_deq]. rewrite step_deq_release.
    destruct (fst (CompareAndSwap_readWrite m h 3 0)); cbn; [|reflexivity].
    destruct (check_nil _ _ _ _ _). cbn. now rewrite app_nil_r.
  - intros m pc item e. apply step_deq_raced_inv.
  - intros m pc item h. apply step_deq_errorf_inv.
Qed.


(** * Further properties of the two protocols *)

(** ** What a producer and a consumer leave alone *)

Lemma same_shape_refl rb : same_shape rb rb.
Proof. now repeat split. Qed.

Lemma same_shape_trans rb1 rb2 rb3 :
  same_shape rb1 rb2 → same_shape rb2 rb3 → same_shape rb1 rb3.
Proof. unfold same_shape. intros (-> & -> & -> & ->) (-> & -> & -> & ->). auto. Qed.

Lemma CAS_rw_shape rb h old new :
  let rb' := snd (CompareAndSwap_readWrite rb h old new) in
  same_shape rb rb' ∧ head rb' = head rb ∧ tail rb' = tail rb
  ∧ putWaits rb' = putWaits rb ∧ getWaits rb' = getWaits rb
  ∧ (∀ j, value_at rb' j = value_at rb j)
  ∧ (∀ j, j ≠ h → data rb' !! j = data rb !! j).
Proof.
  cbv zeta. unfold CompareAndSwap_readWrite.
  destruct (data rb !! h) as [it|] eqn:Hit;
    [|split; [apply same_shape_refl|auto 10]].
  destruct (readWrite it =? old); [|split; [apply same_shape_refl|auto 10]].
  cbn [snd]. unfold same_shape, value_at.
  cbn [cap capModMask debugMode data head tail putWaits getWaits set_data].
  rewrite length_insert. repeat split; try reflexivity.
  - intros j. destruct (decide (j = h)) as [->|Hne].
    + now rewrite (lookup_insert_slot _ _ _ _ Hit), Hit.
    + now rewrite list_lookup_insert_ne by congruence.
  - intros j Hne. now rewrite list_lookup_insert_ne by congruence.
Qed.

Lemma store_value_shape rb h item :
  let rb' := store_value rb h item in
  same_shape rb rb' ∧ head rb' = head rb ∧ tail rb' = tail rb
  ∧ putWaits rb' = putWaits rb ∧ getWaits rb' = getWaits rb
  ∧ (∀ j, j ≠ h → data rb' !! j = data rb !! j).
Proof.
  cbv zeta. unfold store_value.
  destruct (data rb !! h) as [it|] eqn:Hit;
    [|split; [apply same_shape_refl|auto 10]].
  unfold same_shape.
  cbn [cap capModMask debugMode data head tail putWaits getWaits set_data].
  rewrite length_insert. repeat split; try reflexivity.
  intros j Hne. now rewrite list_lookup_insert_ne by congruence.
Qed.

Lemma CAS_tail_shape rb old new :
  let rb' := snd (CompareAndSwap_tail rb old new) in
  same_shape rb rb' ∧ head rb' = head rb
  ∧ putWaits rb' = putWaits rb ∧ getWaits rb' = getWaits rb ∧ data rb' = data rb.
Proof.
  cbv zeta. unfold CompareAndSwap_tail.
  destruct (_ =? _); cbn [snd]; (split; [apply same_shape_refl || now repeat split|auto]).
Qed.

Lemma CAS_head_shape rb old new :
  let rb' := snd (CompareAndSwap_head rb old new) in
  same_shape rb rb' ∧ tail rb' = tail rb
  ∧ putWaits rb' = putWaits rb ∧ getWaits rb' = getWaits rb ∧ data rb' = data rb.
Proof.
  cbv zeta. unfold CompareAndSwap_head.
  destruct (_ =? _); cbn [snd]; (split; [apply same_shape_refl || now repeat split|auto]).
Qed.

(** One step of a producer: [head], [getWaits] and the shape of the
    buffer stay; a slot changes only if the task holds it at its claim,
    its store or its release. *)
Lemma step_enq_frame item pc rb :
  let rb' := snd (step_enq item pc rb) in
  same_shape rb rb' ∧ head rb' = head rb ∧ getWaits rb' = getWaits rb
  ∧ (∀ j, data rb' !! j ≠ data rb !! j →
          (∃ hd tl nt, pc = E_claim hd tl nt j) ∨ (∃ tl nt, pc = E_store tl nt j)
          ∨ pc = E_release j)
  ∧ (∀ j, value_at rb' j ≠ value_at rb j → ∃ tl nt, pc = E_store tl nt j).
Proof.
  cbv zeta.
  destruct pc as [|hd tl nt h|tl nt h|tl nt h| |h|h|out]; cbn [step_enq].
  - assert (snd (step_enq item E_load rb) = rb) as E by apply step_enq_load_mem.
    cbn [step_enq] in E. rewrite E. split; [apply same_shape_refl|]. now repeat split.
  - pose proof (CAS_rw_shape rb h 0 2) as (Hs & Hh & _ & _ & Hg & Hv & Hd).
    destruct (CompareAndSwap_readWrite rb h 0 2) as [[] rb1]; cbn [fst snd] in *;
      (split; [exact Hs|]; split; [exact Hh|]; split; [exact Hg|]; split).
    all: try (intros j Hj; destruct (decide (j = h)) as [->|Hne];
              [eauto 10|now rewrite Hd in Hj]).
    all: intros j Hj; now rewrite Hv in Hj.
  - pose proof (store_value_shape rb h item) as (Hs & Hh & _ & _ & Hg & Hd).
    cbn [fst snd]. split; [exact Hs|]. split; [exact Hh|]. split; [exact Hg|].
    split; intros j Hj; destruct (decide (j = h)) as [->|Hne]; eauto 10.
    + now rewrite Hd in Hj.
    + unfold value_at in Hj. now rewrite Hd in Hj.
  - pose proof (CAS_tail_shape rb tl nt) as (Hs & Hh & _ & Hg & Hd).
    destruct (CompareAndSwap_tail rb tl nt) as [ok rb1]. cbn [fst snd] in *.
    split; [exact Hs|]. split; [exact Hh|]. split; [exact Hg|].
    unfold value_at. rewrite Hd. now split.
  - cbn [snd]. split; [now repeat split|]. now repeat split.
  - pose proof (CAS_rw_shape rb h 2 1) as (Hs & Hh & _ & _ & Hg & Hv & Hd).
    destruct (CompareAndSwap_readWrite rb h 2 1) as [[] rb1]; cbn [negb fst snd] in *;
      (split; [exact Hs|]; split; [exact Hh|]; split; [exact Hg|]; split).
    all: try (intros j Hj; destruct (decide (j = h)) as [->|Hne];
              [eauto 10|now rewrite Hd in Hj]).
    all: intros j Hj; now rewrite Hv in Hj.
  - cbn [snd]. split; [apply same_shape_refl|]. now repeat split.
  - cbn [snd]. split; [apply same_shape_refl|]. now repeat split.
Qed.

(** One step of a consumer: [tail], [putWaits], the shape of the buffer
    and the payload of every slot stay; a marker changes only at the
    claim or the release of the slot the task holds. *)
Lemma step_deq_frame pc rb :
  let rb' := snd (fst (step_deq pc rb)) in
  same_shape rb rb' ∧ tail rb' = tail rb ∧ putWaits rb' = putWaits rb
  ∧ (∀ j, value_at rb' j = value_at rb j)
  ∧ (∀ j, data rb' !! j ≠ data rb !! j →
          (∃ hd tl, pc = D_claim hd tl j)
          ∨ (∃ item hd tl nh, pc = D_release item hd tl nh j)).
Proof.
  cbv zeta.
  destruct pc as [|hd tl h|hd tl h|item hd tl nh h| |item hd tl nh h|item h
                  |item hd tl nh|out]; cbn [step_deq].
  - destruct (step_deq_load_mem rb) as [E _]. cbn [step_deq] in E. rewrite E.
    split; [apply same_shape_refl|]. now repeat split.
  - pose proof (CAS_rw_shape rb h 1 3) as (Hs & _ & Ht & Hp & _ & Hv & Hd).
    destruct (CompareAndSwap_readWrite rb h 1 3) as [[] rb1]; cbn [fst snd] in *;
      (split; [exact Hs|]; split; [exact Ht|]; split; [exact Hp|];
       split; [exact Hv|]);
      intros j Hj; (destruct (decide (j = h)) as [->|Hne];
                    [eauto 10|now rewrite Hd in Hj]).
  - cbn [fst snd]. split; [apply same_shape_refl|]. now repeat split.
  - pose proof (CAS_head_shape rb hd nh) as (Hs & Ht & Hp & _ & Hd).
    destruct (CompareAndSwap_head rb hd nh) as [ok rb1]. cbn [fst snd] in *.
    split; [exact Hs|]. split; [exact Ht|]. split; [exact Hp|].
    unfold value_at. rewrite Hd. now split.
  - cbn [fst snd]. split; [now repeat split|]. now repeat split.
  - pose proof (CAS_rw_shape rb h 3 0) as (Hs & _ & Ht & Hp & _ & Hv & Hd).
    destruct (CompareAndSwap_readWrite rb h 3 0) as [[] rb1]; cbn [negb fst snd] in *;
      (split; [exact Hs|]; split; [exact Ht|]; split; [exact Hp|];
       split; [exact Hv|]);
      intros j Hj; (destruct (decide (j = h)) as [->|Hne];
                    [eauto 10|now rewrite Hd in Hj]).
  - cbn [fst snd]. split; [apply same_shape_refl|]. now repeat split.
  - destruct (check_nil rb item hd tl nh). cbn [fst snd].
    split; [apply same_shape_refl|]. now repeat split.
  - cbn [fst snd]. split; [apply same_shape_refl|]. now repeat split.
Qed.

(** A call of [Enqueue] run alone, however it ends: [head], [getWaits]
    and the shape of the buffer stay, and no slot but the one under the
    [tail] of its snapshot is written. *)
Lemma Enqueue_frame fuel rb item :
  let rb' := fst (Enqueue fuel rb item) in
  same_shape rb rb' ∧ head rb' = head rb ∧ getWaits rb' = getWaits rb
  ∧ (∀ j, j ≠ Z.to_nat (snd (snapshot rb)) → data rb' !! j = data rb !! j).
Proof.
  cbv zeta. revert rb. induction fuel as [|fuel IH]; intros rb.
  { cbn [Enqueue fst]. split; [apply same_shape_refl|]. now repeat split. }
  destruct (full_at_dec rb) as [Hf|Hnf].
  { rewrite (Enqueue_full fuel rb item Hf). cbn [fst].
    split; [apply same_shape_refl|]. now repeat split. }
  destruct (data rb !! Z.to_nat (snd (snapshot rb))) as [it|] eqn:Hit.
  - destruct (Z.eq_dec (readWrite it) 0) as [Hrw|Hrw].
    + rewrite (Enqueue_claimed fuel rb item it Hnf Hit Hrw). cbn [fst].
      pose proof (CAS_tail_shape rb (snd (snapshot rb))
                    (Z.land (u32 (snd (snapshot rb) + 1)) (capModMask rb)))
        as ((Hc & Hm & Hdb & Hl) & Hh & _ & Hg & Hd).
      unfold same_shape.
      cbn [cap capModMask debugMode data head getWaits set_data].
      rewrite length_insert. repeat split; try assumption.
      intros j Hne. apply list_lookup_insert_ne. congruence.
    + rewrite (Enqueue_blocked fuel rb item it Hnf Hit Hrw).
      destruct (IH (AddUint64_putWaits rb 1)) as (Hs & Hh & Hg & Hd).
      unfold AddUint64_putWaits in *. rewrite snapshot_putWaits in Hd.
      unfold same_shape in *.
      cbn [cap capModMask debugMode data head getWaits set_putWaits] in *.
      auto.
  - rewrite (Enqueue_panics fuel rb item Hnf Hit). cbn [fst].
    split; [apply same_shape_refl|]. now repeat split.
Qed.

(** A call of [Dequeue] run alone, however it ends: [tail], [putWaits],
    the shape of the buffer and every payload stay, and no marker but the
    one under the [head] of its snapshot is written. *)
Lemma Dequeue_frame fuel rb :
  let rb' := fst (fst (Dequeue fuel rb)) in
  same_shape rb rb' ∧ tail rb' = tail rb ∧ putWaits rb' = putWaits rb
  ∧ (∀ j, value_at rb' j = value_at rb j)
  ∧ (∀ j, j ≠ Z.to_nat (fst (snapshot rb)) → data rb' !! j = data rb !! j).
Proof.
  cbv zeta. revert rb. induction fuel as [|fuel IH]; intros rb.
  { cbn [Dequeue fst]. split; [apply same_shape_refl|]. now repeat split. }
  destruct (empty_at_dec rb) as [He|Hne].
  { rewrite (Dequeue_empty fuel rb He). cbn [fst].
    split; [apply same_shape_refl|]. now repeat split. }
  destruct (data rb !! Z.to_nat (fst (snapshot rb))) as [it|] eqn:Hit.
  - destruct (Z.eq_dec (readWrite it) 1) as [Hrw|Hrw].
    + rewrite (Dequeue_claimed fuel rb it Hne Hit Hrw). cbv zeta. cbn [fst].
      pose proof (CAS_head_shape rb (fst (snapshot rb))
                    (Z.land (u32 (fst (snapshot rb) + 1)) (capModMask rb)))
        as ((Hc & Hm & Hdb & Hl) & Ht & Hp & _ & Hd).
      unfold same_shape, value_at.
      cbn [cap capModMask debugMode data tail putWaits set_data].
      rewrite length_insert. repeat split; try assumption.
      * intros j. destruct (decide (j = Z.to_nat (fst (snapshot rb)))) as [->|Hj].
        -- rewrite (lookup_insert_slot _ _ _ _ Hit), Hit. reflexivity.
        -- rewrite list_lookup_insert_ne by congruence. reflexivity.
      * intros j Hj. apply list_lookup_insert_ne. congruence.
    + rewrite (Dequeue_blocked fuel rb it Hne Hit Hrw).
      destruct (IH (AddUint64_getWaits rb 1)) as (Hs & Ht & Hp & Hv & Hd).
      unfold AddUint64_getWaits in *. rewrite snapshot_getWaits in Hd.
      unfold same_shape, value_at in *.
      cbn [cap capModMask debugMode data tail putWaits set_getWaits] in *.
      auto.
  - rewrite (Dequeue_panics fuel rb Hne Hit). cbn [fst].
    split; [apply same_shape_refl|]. now repeat split.
Qed.

Lemma run_producers sched (c : config V) :
  Forall producer (tasks c) →
  head (mem (run sched c)) = head (mem c)
  ∧ getWaits (mem (run sched c)) = getWaits (mem c)
  ∧ same_shape (mem c) (mem (run sched c)).
Proof.
  revert c. induction sched as [|i sched IH]; intros c Hp.
  { cbn. split; [reflexivity|]. split; [reflexivity|apply same_shape_refl]. }
  change (run (i :: sched) c) with (run sched (sched_step c i)).
  assert (Forall producer (tasks (sched_step c i))
          ∧ head (mem (sched_step c i)) = head (mem c)
          ∧ getWaits (mem (sched_step c i)) = getWaits (mem c)
          ∧ same_shape (mem c) (mem (sched_step c i))) as (Hp' & Hh & Hg & Hs).
  { unfold sched_step. destruct (tasks c !! i) as [[item pc|pc]|] eqn:Hl.
    - pose proof (step_enq_frame item pc (mem c)) as (Hs & Hh & Hg & _).
      destruct (step_enq item pc (mem c)) as [pc' rb']. cbn [fst snd mem tasks] in *.
      split; [|auto]. apply Forall_insert; [exact Hp|exact I].
    - pose proof (Forall_lookup_1 _ _ _ _ Hp Hl) as F. destruct F.
    - split; [exact Hp|]. split; [reflexivity|]. split; [reflexivity|apply same_shape_refl]. }
  destruct (IH _ Hp') as (Hh' & Hg' & Hs').
  split; [congruence|]. split; [congruence|]. eapply same_shape_trans; eassumption.
Qed.

Lemma run_consumers sched (c : config V) :
  Forall consumer (tasks c) →
  tail (mem (run sched c)) = tail (mem c)
  ∧ putWaits (mem (run sched c)) = putWaits (mem c)
  ∧ (∀ j, value_at (mem (run sched c)) j = value_at (mem c) j)
  ∧ same_shape (mem c) (mem (run sched c)).
Proof.
  revert c. induction sched as [|i sched IH]; intros c Hp.
  { cbn. split; [reflexivity|]. split; [reflexivity|].
    split; [reflexivity|apply same_shape_refl]. }
  change (run (i :: sched) c) with (run sched (sched_step c i)).
  assert (Forall consumer (tasks (sched_step c i))
          ∧ tail (mem (sched_step c i)) = tail (mem c)
          ∧ putWaits (mem (sched_step c i)) = putWaits (mem c)
          ∧ (∀ j, value_at (mem (sched_step c i)) j = value_at (mem c) j)
          ∧ same_shape (mem c) (mem (sched_step c i))) as (Hp' & Ht & Hw & Hv & Hs).
  { unfold sched_step. destruct (tasks c !! i) as [[item pc|pc]|] eqn:Hl.
    - pose proof (Forall_lookup_1 _ _ _ _ Hp Hl) as F. destruct F.
    - pose proof (step_deq_frame pc (mem c)) as (Hs & Ht & Hw & Hv & _).
      destruct (step_deq pc (mem c)) as [[pc' rb'] lg]. cbn [fst snd mem tasks] in *.
      split; [|auto]. apply Forall_insert; [exact Hp|exact I].
    - split; [exact Hp|]. split; [reflexivity|]. split; [reflexivity|].
      split; [reflexivity|apply same_shape_refl]. }
  destruct (IH _ Hp') as (Ht' & Hw' & Hv' & Hs').
  split; [congruence|]. split; [congruence|].
  split; [intros j; now rewrite Hv', Hv|]. eapply same_shape_trans; eassumption.
Qed.

Lemma spawn_producers rb (items : list (option V)) :
  Forall producer (tasks (spawn rb (map CallEnqueue items))).
Proof.
  unfold spawn. cbn [tasks]. induction items as [|x l IH]; constructor; [exact I|exact IH].
Qed.

Lemma spawn_consumers rb n :
  Forall consumer (tasks (spawn (V := V) rb (repeat CallDequeue n))).
Proof.
  unfold spawn. cbn [tasks]. induction n as [|n IH]; constructor; [exact I|exact IH].
Qed.

(** X3.  [Enqueue] never moves [head] and never touches [getWaits], the
    capacity, the mask, the debug flag or the number of slots.  Run
    alone, however it ends, it writes at most the slot under the [tail]
    of its snapshot; in an interleaving, each of its steps writes at most
    the slot the task holds, and payloads only at its store; and however
    calls of [Enqueue] alone are interleaved, [head], [getWaits] and the
    shape of the buffer end as they began. *)
Theorem Enqueue_never_moves_head fuel rb item :
  (same_shape rb (fst (Enqueue fuel rb item))
   ∧ head (fst (Enqueue fuel rb item)) = head rb
   ∧ getWaits (fst (Enqueue fuel rb item)) = getWaits rb
   ∧ (∀ j, j ≠ Z.to_nat (snd (snapshot rb)) →
           data (fst (Enqueue fuel rb item)) !! j = data rb !! j))
  ∧ (∀ pc,
       same_shape rb (snd (step_enq item pc rb))
       ∧ head (snd (step_enq item pc rb)) = head rb
       ∧ getWaits (snd (step_enq item pc rb)) = getWaits rb
       ∧ (∀ j, data (snd (step_enq item pc rb)) !! j ≠ data rb !! j →
               (∃ hd tl nt, pc = E_claim hd tl nt j)
               ∨ (∃ tl nt, pc = E_store tl nt j) ∨ pc = E_release j)
       ∧ (∀ j, value_at (snd (step_enq item pc rb)) j ≠ value_at rb j →
               ∃ tl nt, pc = E_store tl nt j))
  ∧ (∀ sched items,
       same_shape rb (mem (run sched (spawn rb (map CallEnqueue items))))
       ∧ head (mem (run sched (spawn rb (map CallEnqueue items)))) = head rb
       ∧ getWaits (mem (run sched (spawn rb (map CallEnqueue items)))) = getWaits rb).
Proof.
  split; [apply Enqueue_frame|]. split; [intros pc; apply step_enq_frame|].
  intros sched items.
  destruct (run_producers sched _ (spawn_producers rb items)) as (H1 & H2 & H3).
  split; [exact H3|]. split; [exact H1|exact H2].
Qed.

(** X4.  [Dequeue] never moves [tail], never touches [putWaits] or the
    shape of the buffer, and never writes a payload: run alone, however
    it ends, and under every interleaving of calls of [Dequeue] alone,
    every slot holds the payload it held.  In particular the slot that a
    successful [Dequeue] has released still holds the item it returned. *)
Theorem Dequeue_never_writes_a_payload fuel rb :
  (same_shape rb (fst (fst (Dequeue fuel rb)))
   ∧ tail (fst (fst (Dequeue fuel rb))) = tail rb
   ∧ putWaits (fst (fst (Dequeue fuel rb))) = putWaits rb
   ∧ (∀ j, value_at (fst (fst (Dequeue fuel rb))) j = value_at rb j)
   ∧ (∀ j, j ≠ Z.to_nat (fst (snapshot rb)) →
           data (fst (fst (Dequeue fuel rb))) !! j = data rb !! j))
  ∧ (∀ sched n,
       tail (mem (run sched (spawn rb (repeat CallDequeue n)))) = tail rb
       ∧ putWaits (mem (run sched (spawn rb (repeat CallDequeue n)))) = putWaits rb
       ∧ ∀ j, value_at (mem (run sched (spawn rb (repeat CallDequeue n)))) j
              = value_at rb j)
  ∧ (∀ (x : V) q, Repr rb (Some x :: q) →
            snd (Dequeue (S fuel) rb) = Returned (Some x, None)
            ∧ value_at (fst (fst (Dequeue (S fuel) rb))) (Z.to_nat (head rb)) = Some x).
Proof.
  split; [apply Dequeue_frame|]. split.
  - intros sched n.
    destruct (run_consumers sched _ (spawn_consumers rb n)) as (H1 & H2 & H3 & _).
    auto.
  - intros x q R. pose proof (Repr_head_slot _ _ _ R) as Hit.
    destruct (Dequeue_frame (S fuel) rb) as (_ & _ & _ & Hv & _).
    rewrite Hv. destruct (Dequeue_Repr fuel rb (Some x) q R) as (rb' & -> & _).
    split; [reflexivity|]. unfold value_at. now rewrite Hit.
Qed.


(** ** Index expressions and panics *)

Lemma Enqueue_panic_inv fuel rb item :
  snd (Enqueue fuel rb item) = Panicked →
  ¬ full_at rb ∧ data rb !! Z.to_nat (snd (snapshot rb)) = None
  ∧ fst (Enqueue fuel rb item) = rb.
Proof.
  revert rb. induction fuel as [|fuel IH]; intros rb; [discriminate|].
  destruct (full_at_dec rb) as [Hf|Hnf].
  { rewrite (Enqueue_full fuel rb item Hf). discriminate. }
  destruct (data rb !! Z.to_nat (snd (snapshot rb))) as [it|] eqn:Hit.
  - destruct (Z.eq_dec (readWrite it) 0) as [Hrw|Hrw].
    + rewrite (Enqueue_claimed fuel rb item it Hnf Hit Hrw). discriminate.
    + rewrite (Enqueue_blocked fuel rb item it Hnf Hit Hrw). intros H.
      apply IH in H as (_ & Hn & _).
      unfold AddUint64_putWaits in Hn. rewrite snapshot_putWaits in Hn.
      cbn [data set_putWaits] in Hn. congruence.
  - rewrite (Enqueue_panics fuel rb item Hnf Hit). auto.
Qed.

Lemma Dequeue_panic_inv fuel rb :
  snd (Dequeue fuel rb) = Panicked →
  ¬ empty_at rb ∧ data rb !! Z.to_nat (fst (snapshot rb)) = None
  ∧ Dequeue fuel rb = (rb, [], Panicked).
Proof.
  revert rb. induction fuel as [|fuel IH]; intros rb; [discriminate|].
  destruct (empty_at_dec rb) as [He|Hne].
  { rewrite (Dequeue_empty fuel rb He). discriminate. }
  destruct (data rb !! Z.to_nat (fst (snapshot rb))) as [it|] eqn:Hit.
  - destruct (Z.eq_dec (readWrite it) 1) as [Hrw|Hrw].
    + rewrite (Dequeue_claimed fuel rb it Hne Hit Hrw). cbv zeta. cbn [snd].
      match goal with |- context [check_nil ?r ?i ?h ?t ?n] =>
        destruct (check_nil_cases r i h t n) as [(v & _ & ->)|(_ & lg & _ & ->)] end;
        discriminate.
    + rewrite (Dequeue_blocked fuel rb it Hne Hit Hrw). intros H.
      apply IH in H as (_ & Hn & _).
      unfold AddUint64_getWaits in Hn. rewrite snapshot_getWaits in Hn.
      cbn [data set_getWaits] in Hn. congruence.
  - rewrite (Dequeue_panics fuel rb Hne Hit). auto.
Qed.

Lemma in_range_lookup rb :
  indices_ok rb → cap rb ≤ 2 ^ 32 → Z.of_nat (length (data rb)) = cap rb →
  is_Some (data rb !! Z.to_nat (fst (snapshot rb)))
  ∧ is_Some (data rb !! Z.to_nat (snd (snapshot rb))).
Proof.
  intros (_ & _ & Hh & Ht) Hc Hl. rewrite snapshot_eq. cbn [fst snd].
  rewrite !u32_small by lia. split; apply lookup_lt_is_Some_2; lia.
Qed.

Lemma sched_step_in_bounds c0 (c : config V) i :
  in_bounds c0 c → in_bounds c0 (sched_step c i).
Proof.
  intros (Hok & Hc0 & Hlen & Hnp).
  split; [now apply sched_step_ok|]. split; [exact Hc0|].
  destruct Hok as (Hi & Hc & _).
  destruct (in_range_lookup (mem c) Hi) as [Hhd Htl]; [lia|lia|].
  unfold sched_step. destruct (tasks c !! i) as [[item pc|pc]|] eqn:Hl; [| |auto].
  - pose proof (step_enq_frame item pc (mem c)) as ((_ & _ & _ & Hs) & _).
    assert (panicked_task (TEnqueue item (fst (step_enq item pc (mem c)))) = false) as Hp.
    { pose proof (Forall_lookup_1 _ _ _ _ Hnp Hl) as Hold. cbv beta in Hold.
      destruct pc as [|hd tl nt h|tl nt h|tl nt h| |h|h|out];
        try (cbn [step_enq]; repeat match goal with
             | |- context [let '(_, _) := ?x in _] => destruct x as [[] ?]
             end; reflexivity).
      - rewrite step_enq_load. cbv zeta. destruct (_ =? _); [reflexivity|].
        destruct Htl as [it ->]. reflexivity.
      - exact Hold. }
    destruct (step_enq item pc (mem c)) as [pc' rb']. cbn [fst snd mem tasks] in *.
    split; [lia|]. apply Forall_insert; [exact Hnp|exact Hp].
  - pose proof (step_deq_frame pc (mem c)) as ((_ & _ & _ & Hs) & _).
    assert (panicked_task (TDequeue (fst (fst (step_deq pc (mem c))))) = false) as Hp.
    { pose proof (Forall_lookup_1 _ _ _ _ Hnp Hl) as Hold. cbv beta in Hold.
      destruct pc as [|hd tl h|hd tl h|item hd tl nh h| |item hd tl nh h|item h
                      |item hd tl nh|out];
        try (cbn [step_deq]; repeat match goal with
             | |- context [let '(_, _) := ?x in _] => destruct x as [[] ?]
             end; reflexivity).
      - rewrite step_deq_load. cbv zeta. destruct (_ =? _); [reflexivity|].
        destruct Hhd as [it ->]. reflexivity.
      - cbn [step_deq]. unfold check_nil. destruct item; reflexivity.
      - exact Hold. }
    destruct (step_deq pc (mem c)) as [[pc' rb'] lg]. cbn [fst snd mem tasks] in *.
    split; [lia|]. apply Forall_insert; [exact Hnp|exact Hp].
Qed.

Lemma run_in_bounds c0 sched (c : config V) : in_bounds c0 c → in_bounds c0 (run sched c).
Proof.
  revert c. induction sched as [|i sched IH]; intros c H; [exact H|].
  cbn. apply IH. now apply sched_step_in_bounds.
Qed.

(** X5.  The index expressions [rb.data[tail]] and [rb.data[head]] are
    the only places where a call can panic.  Run alone, [Enqueue]
    panics exactly when its snapshot is not full and [tail] is not an
    index of [data], and [Dequeue] exactly when its snapshot is not empty
    and [head] is not an index of [data]; the buffer is then left as it
    was.  On a buffer that holds a queue no call panics, neither when
    calls are made one after the other nor in any interleaving. *)
Theorem panics_only_on_index_out_of_range fuel rb item :
  (snd (Enqueue (S fuel) rb item) = Panicked
   ↔ ¬ full_at rb ∧ data rb !! Z.to_nat (snd (snapshot rb)) = None)
  ∧ (snd (Enqueue (S fuel) rb item) = Panicked → fst (Enqueue (S fuel) rb item) = rb)
  ∧ (snd (Dequeue (S fuel) rb) = Panicked
     ↔ ¬ empty_at rb ∧ data rb !! Z.to_nat (fst (snapshot rb)) = None)
  ∧ (snd (Dequeue (S fuel) rb) = Panicked → Dequeue (S fuel) rb = (rb, [], Panicked))
  ∧ (∀ q cs sched,
       Repr rb q →
       Forall (λ r, r ≠ EnqueueReply Panicked ∧ r ≠ DequeueReply Panicked)
              (snd (run_calls (S fuel) cs rb))
       ∧ Forall (λ t, panicked_task t = false) (tasks (run sched (spawn rb cs)))).
Proof.
  split; [split|]; [| |split; [|split; [split|split]]].
  - intros H. apply Enqueue_panic_inv in H as (H1 & H2 & _). split; assumption.
  - intros [Hnf Hn]. rewrite (Enqueue_panics fuel rb item Hnf Hn). reflexivity.
  - intros H. apply Enqueue_panic_inv in H as (_ & _ & H). exact H.
  - intros H. apply Dequeue_panic_inv in H as (H1 & H2 & _). split; assumption.
  - intros [Hne Hn]. rewrite (Dequeue_panics fuel rb Hne Hn). reflexivity.
  - intros H. apply Dequeue_panic_inv in H as (_ & _ & H). exact H.
  - intros q cs sched R. split.
    + destruct (run_calls_Repr fuel cs rb q R) as (q' & _ & Ho).
      eapply Forall_impl; [exact Ho|]. intros r Hr.
      split; intros ->; exact Hr.
    + assert (in_bounds (cap rb) (spawn rb cs)) as Hb.
      { split; [apply spawn_ok; now apply (Repr_indices_ok rb q)|].
        split; [pose proof (Repr_cap_bounds _ _ R); lia|].
        split; [apply (repr_len _ _ R)|].
        unfold spawn. cbn [tasks].
        induction cs as [|c cs IH]; constructor; [now destruct c|exact IH]. }
      apply (run_in_bounds _ sched) in Hb. apply Hb.
Qed.


(** ** Waiting *)

Lemma u64_add_l a b : u64 (u64 a + b) = u64 (a + b).
Proof. unfold u64. apply Zplus_mod_idemp_l. Qed.

Lemma Enqueue_waits fuel rb item it :
  ¬ full_at rb →
  data rb !! Z.to_nat (snd (snapshot rb)) = Some it → readWrite it ≠ 0 →
  0 ≤ putWaits rb < 2 ^ 64 →
  Enqueue fuel rb item
  = (set_putWaits rb (u64 (putWaits rb + Z.of_nat fuel)), Spinning).
Proof.
  revert rb. induction fuel as [|fuel IH]; intros rb Hnf Hit Hrw Hp.
  - cbn [Enqueue]. f_equal. rewrite Z.add_0_r. unfold u64.
    rewrite Z.mod_small by exact Hp. now destruct rb.
  - rewrite (Enqueue_blocked fuel rb item it Hnf Hit Hrw).
    unfold AddUint64_putWaits. rewrite IH.
    + cbn [putWaits set_putWaits]. rewrite u64_add_l.
      replace (putWaits rb + 1 + Z.of_nat fuel) with (putWaits rb + Z.of_nat (S fuel))
        by lia.
      reflexivity.
    + exact Hnf.
    + rewrite snapshot_putWaits. exact Hit.
    + exact Hrw.
    + cbn [putWaits set_putWaits]. unfold u64. apply Z.mod_pos_bound. lia.
Qed.

Lemma Dequeue_waits fuel rb it :
  ¬ empty_at rb →
  data rb !! Z.to_nat (fst (snapshot rb)) = Some it → readWrite it ≠ 1 →
  0 ≤ getWaits rb < 2 ^ 64 →
  Dequeue fuel rb
  = (set_getWaits rb (u64 (getWaits rb + Z.of_nat fuel)), [], Spinning).
Proof.
  revert rb. induction fuel as [|fuel IH]; intros rb Hne Hit Hrw Hp.
  - cbn [Dequeue]. do 2 f_equal. rewrite Z.add_0_r. unfold u64.
    rewrite Z.mod_small by exact Hp. now destruct rb.
  - rewrite (Dequeue_blocked fuel rb it Hne Hit Hrw).
    unfold AddUint64_getWaits. rewrite IH.
    + cbn [getWaits set_getWaits]. rewrite u64_add_l.
      replace (getWaits rb + 1 + Z.of_nat fuel) with (getWaits rb + Z.of_nat (S fuel))
        by lia.
      reflexivity.
    + exact Hne.
    + rewrite snapshot_getWaits. exact Hit.
    + exact Hrw.
    + cbn [getWaits set_getWaits]. unfold u64. apply Z.mod_pos_bound. lia.
Qed.

Lemma Enqueue_turns fuel rb item :
  (snd (Enqueue (S fuel) rb item) = Spinning
   ∧ ¬ full_at rb
   ∧ ∃ it, data rb !! Z.to_nat (snd (snapshot rb)) = Some it ∧ readWrite it ≠ 0)
  ∨ (snd (Enqueue (S fuel) rb item) ≠ Spinning
     ∧ Enqueue (S fuel) rb item = Enqueue 1 rb item
     ∧ putWaits (fst (Enqueue (S fuel) rb item)) = putWaits rb
     ∧ (full_at rb ∨ data rb !! Z.to_nat (snd (snapshot rb)) = None
        ∨ ∃ it, data rb !! Z.to_nat (snd (snapshot rb)) = Some it ∧ readWrite it = 0)).
Proof.
  destruct (full_at_dec rb) as [Hf|Hnf].
  { right. rewrite !(Enqueue_full _ rb item Hf). cbn [fst snd].
    split; [discriminate|]. split; [reflexivity|]. split; [reflexivity|]. auto. }
  destruct (data rb !! Z.to_nat (snd (snapshot rb))) as [it|] eqn:Hit.
  - destruct (Z.eq_dec (readWrite it) 0) as [Hrw|Hrw].
    + right. rewrite !(Enqueue_claimed _ rb item it Hnf Hit Hrw). cbn [fst snd].
      split; [discriminate|]. split; [reflexivity|]. split; [|eauto].
      unfold CompareAndSwap_tail. destruct (_ =? _); reflexivity.
    + left. split; [exact (Enqueue_spins _ rb item it Hnf Hit Hrw)|]. eauto.
  - right. rewrite !(Enqueue_panics _ rb item Hnf Hit). cbn [fst snd].
    split; [discriminate|]. split; [reflexivity|]. split; [reflexivity|]. auto.
Qed.

Lemma Dequeue_turns fuel rb :
  (snd (Dequeue (S fuel) rb) = Spinning
   ∧ ¬ empty_at rb
   ∧ ∃ it, data rb !! Z.to_nat (fst (snapshot rb)) = Some it ∧ readWrite it ≠ 1)
  ∨ (snd (Dequeue (S fuel) rb) ≠ Spinning
     ∧ Dequeue (S fuel) rb = Dequeue 1 rb
     ∧ getWaits (fst (fst (Dequeue (S fuel) rb))) = getWaits rb
     ∧ (empty_at rb ∨ data rb !! Z.to_nat (fst (snapshot rb)) = None
        ∨ ∃ it, data rb !! Z.to_nat (fst (snapshot rb)) = Some it ∧ readWrite it = 1)).
Proof.
  destruct (empty_at_dec rb) as [He|Hne].
  { right. rewrite !(Dequeue_empty _ rb He). cbn [fst snd].
    split; [discriminate|]. split; [reflexivity|]. split; [reflexivity|]. auto. }
  destruct (data rb !! Z.to_nat (fst (snapshot rb))) as [it|] eqn:Hit.
  - destruct (Z.eq_dec (readWrite it) 1) as [Hrw|Hrw].
    + right. rewrite !(Dequeue_claimed _ rb it Hne Hit Hrw). cbv zeta. cbn [fst snd].
      split.
      { match goal with |- context [check_nil ?r ?i ?h ?t ?n] =>
          destruct (check_nil_cases r i h t n) as [(v & _ & ->)|(_ & lg & _ & ->)] end;
          discriminate. }
      split; [reflexivity|]. split; [|eauto].
      unfold CompareAndSwap_head. destruct (_ =? _); reflexivity.
    + left. split; [exact (Dequeue_spins _ rb it Hne Hit Hrw)|]. eauto.
  - right. rewrite !(Dequeue_panics _ rb Hne Hit). cbn [fst snd].
    split; [discriminate|]. split; [reflexivity|]. split; [reflexivity|]. auto.
Qed.

(** X6.  A call run alone either returns in its first turn of the loop
    or never returns.  [Enqueue] keeps waiting exactly when its snapshot
    is not full and the slot at [tail] is not writable; after [n] turns it
    has added [n] to [putWaits], modulo [2^64], and written nothing else.
    A call of [Enqueue] that returns has done so in its first turn and
    has left [putWaits] as it was.  The same holds of [Dequeue] with a
    non-empty snapshot, a slot at [head] that is not readable, and
    [getWaits]; it logs nothing while it waits. *)
Theorem waits_forever_or_returns_at_once fuel rb item :
  (snd (Enqueue (S fuel) rb item) = Spinning
   ↔ ¬ full_at rb
     ∧ ∃ it, data rb !! Z.to_nat (snd (snapshot rb)) = Some it ∧ readWrite it ≠ 0)
  ∧ (snd (Enqueue (S fuel) rb item) = Spinning → 0 ≤ putWaits rb < 2 ^ 64 →
     ∀ n, Enqueue n rb item
          = (set_putWaits rb (u64 (putWaits rb + Z.of_nat n)), Spinning))
  ∧ (snd (Enqueue (S fuel) rb item) ≠ Spinning →
     Enqueue (S fuel) rb item = Enqueue 1 rb item
     ∧ putWaits (fst (Enqueue (S fuel) rb item)) = putWaits rb)
  ∧ (snd (Dequeue (S fuel) rb) = Spinning
     ↔ ¬ empty_at rb
       ∧ ∃ it, data rb !! Z.to_nat (fst (snapshot rb)) = Some it ∧ readWrite it ≠ 1)
  ∧ (snd (Dequeue (S fuel) rb) = Spinning → 0 ≤ getWaits rb < 2 ^ 64 →
     ∀ n, Dequeue n rb
          = (set_getWaits rb (u64 (getWaits rb + Z.of_nat n)), [], Spinning))
  ∧ (snd (Dequeue (S fuel) rb) ≠ Spinning →
     Dequeue (S fuel) rb = Dequeue 1 rb
     ∧ getWaits (fst (fst (Dequeue (S fuel) rb))) = getWaits rb).
Proof.
  pose proof (Enqueue_turns fuel rb item) as HE.
  pose proof (Dequeue_turns fuel rb) as HD.
  split; [|split; [|split; [|split; [|split]]]].
  - split.
    + intros H. destruct HE as [(_ & Hnf & Hit)|(Hn & _)]; [|contradiction].
      split; assumption.
    + intros (Hnf & it & Hit & Hrw). exact (Enqueue_spins _ rb item it Hnf Hit Hrw).
  - intros H Hp n. destruct HE as [(_ & Hnf & it & Hit & Hrw)|(Hn & _)]; [|contradiction].
    exact (Enqueue_waits n rb item it Hnf Hit Hrw Hp).
  - intros H. destruct HE as [(Hs & _)|(_ & H1 & H2 & _)]; [contradiction|].
    split; assumption.
  - split.
    + intros H. destruct HD as [(_ & Hne & Hit)|(Hn & _)]; [|contradiction].
      split; assumption.
    + intros (Hne & it & Hit & Hrw). exact (Dequeue_spins _ rb it Hne Hit Hrw).
  - intros H Hp n. destruct HD as [(_ & Hne & it & Hit & Hrw)|(Hn & _)]; [|contradiction].
    exact (Dequeue_waits n rb it Hne Hit Hrw Hp).
  - intros H. destruct HD as [(Hs & _)|(_ & H1 & H2 & _)]; [contradiction|].
    split; assumption.
Qed.


(** ** Mutual exclusion on a slot *)

Lemma total_two (f : task V → nat) l i i' t t' :
  l !! i = Some t → l !! i' = Some t' → i ≠ i' → (f t + f t' ≤ total f l)%nat.
Proof.
  revert i i'. induction l as [|x l IH]; intros i i' Hi Hi' Hne; [discriminate|].
  destruct i as [|i], i' as [|i']; [congruence| | |].
  - cbn in Hi. inversion Hi; subst. cbn in Hi'.
    pose proof (total_lookup_le f _ _ _ Hi') as E. cbn [total]. clear IH Hi Hi'. lia.
  - cbn in Hi'. inversion Hi'; subst. cbn in Hi.
    pose proof (total_lookup_le f _ _ _ Hi) as E. cbn [total]. clear IH Hi Hi'. lia.
  - cbn in Hi, Hi'. assert (i ≠ i') as Hn by congruence.
    pose proof (IH i i' Hi Hi' Hn) as E. cbn [total]. clear IH Hi Hi'. lia.
Qed.

Lemma ind_le_1 (P : Prop) `{Decision P} : (ind P ≤ 1)%nat.
Proof. unfold ind. case_decide; lia. Qed.

Lemma holds_w_le_1 j (t : task V) : (holds_w j t ≤ 1)%nat.
Proof.
  destruct t as [item pc|pc]; [|cbn; lia].
  destruct pc; cbn; try lia; case_decide; lia.
Qed.

Lemma holds_r_le_1 j (t : task V) : (holds_r j t ≤ 1)%nat.
Proof.
  destruct t as [item pc|pc]; [cbn; lia|].
  destruct pc; cbn; try lia; case_decide; lia.
Qed.

Lemma owned_exclusive (c : config V) j i i' t t' :
  owned c → tasks c !! i = Some t → tasks c !! i' = Some t' →
  holds j t → holds j t' → i = i'.
Proof.
  intros (Hw & Hr & _) Hi Hi' Ht Ht'.
  destruct (decide (i = i')) as [|Hne]; [assumption|exfalso].
  pose proof (total_two (holds_w j) _ _ _ _ _ Hi Hi' Hne) as Ew.
  pose proof (total_two (holds_r j) _ _ _ _ _ Hi Hi' Hne) as Er.
  pose proof (total_lookup_le (holds_w j) _ _ _ Hi) as Ew1.
  pose proof (total_lookup_le (holds_w j) _ _ _ Hi') as Ew2.
  pose proof (total_lookup_le (holds_r j) _ _ _ Hi) as Er1.
  pose proof (total_lookup_le (holds_r j) _ _ _ Hi') as Er2.
  rewrite Hw in Ew, Ew1, Ew2. rewrite Hr in Er, Er1, Er2.
  unfold ind in *. destruct Ht as [Ht|Ht], Ht' as [Ht'|Ht'];
    repeat case_decide; lia.
Qed.

Lemma plain_access_holds j (t : task V) : plain_access j t → holds j t.
Proof.
  destruct t as [item pc|pc]; destruct pc; cbn; try contradiction;
    intros ->; [left|right]; cbn; now rewrite decide_True.
Qed.

(** X7.  Between its successful claim of a slot and its release a task
    has the slot for itself.  In every interleaving of calls on a buffer
    that holds a queue, two different tasks never hold the same slot at
    the same time, be they producers or consumers; the marker of a slot
    is 2 exactly when a producer holds it and 3 exactly when a consumer
    holds it.  Hence the store to [holder.value] in [Enqueue] and the load
    from it in [Dequeue], which are not atomic, never come from two tasks
    at once on one slot. *)
Theorem slot_held_by_one_task_at_a_time rb q cs sched j :
  Repr rb q →
  (∀ i i' t t',
     tasks (run sched (spawn rb cs)) !! i = Some t →
     tasks (run sched (spawn rb cs)) !! i' = Some t' →
     holds j t → holds j t' → i = i')
  ∧ (rw_at (mem (run sched (spawn rb cs))) j = 2
     ↔ ∃ i t, tasks (run sched (spawn rb cs)) !! i = Some t ∧ holds_w j t = 1%nat)
  ∧ (rw_at (mem (run sched (spawn rb cs))) j = 3
     ↔ ∃ i t, tasks (run sched (spawn rb cs)) !! i = Some t ∧ holds_r j t = 1%nat)
  ∧ (∀ i i' t t',
       tasks (run sched (spawn rb cs)) !! i = Some t →
       tasks (run sched (spawn rb cs)) !! i' = Some t' →
       plain_access j t → plain_access j t' → i = i').
Proof.
  intros R.
  assert (owned (run sched (spawn rb cs))) as Ho.
  { apply run_owned, spawn_owned. exact (Repr_quiescent rb q R). }
  generalize dependent (run sched (spawn rb cs)). intros c Ho.
  split; [|split; [|split]].
  - intros i i' t t'. apply owned_exclusive. exact Ho.
  - split.
    + intros E. destruct Ho as (Hw & _ & _). specialize (Hw j).
      unfold ind in Hw. rewrite decide_True in Hw by exact E.
      clear E. induction (tasks c) as [|t l IH]; [discriminate|].
      cbn [total] in Hw. pose proof (holds_w_le_1 j t) as Hle.
      destruct (decide (holds_w j t = 1%nat)) as [E1|E1].
      * exists 0%nat, t. split; [reflexivity|exact E1].
      * assert (total (holds_w j) l = 1%nat) as Hl1 by (clear IH; lia).
        destruct (IH Hl1) as (i & t' & Hl & Ht').
        exists (S i), t'. split; assumption.
    + intros (i & t & Hl & Ht). exact (owned_holds_w c i t j Ho Hl Ht).
  - split.
    + intros E. destruct Ho as (_ & Hr & _). specialize (Hr j).
      unfold ind in Hr. rewrite decide_True in Hr by exact E.
      clear E. induction (tasks c) as [|t l IH]; [discriminate|].
      cbn [total] in Hr. pose proof (holds_r_le_1 j t) as Hle.
      destruct (decide (holds_r j t = 1%nat)) as [E1|E1].
      * exists 0%nat, t. split; [reflexivity|exact E1].
      * assert (total (holds_r j) l = 1%nat) as Hl1 by (clear IH; lia).
        destruct (IH Hl1) as (i & t' & Hl & Ht').
        exists (S i), t'. split; assumption.
    + intros (i & t & Hl & Ht). exact (owned_holds_r c i t j Ho Hl Ht).
  - intros i i' t t' Hi Hi' Hp Hp'.
    apply (owned_exclusive c j i i' t t' Ho Hi Hi'); now apply plain_access_holds.
Qed.


(** ** Sequential use against the bounded queue *)

Lemma Repr_length_le rb q : Repr rb q → Z.of_nat (length q) ≤ cap rb - 1.
Proof.
  intros R. rewrite (repr_qlen _ _ R).
  pose proof (Repr_cap_bounds _ _ R) as Hc.
  pose proof (Z.mod_pos_bound (tail rb - head rb) (cap rb)). lia.
Qed.

Lemma Put_queue fuel rb (q : list V) x :
  Repr rb (map Some q) →
  EnqueueReply (snd (Put (S fuel) rb (Some x))) = snd (queue_call (cap rb) (QPut x) q)
  ∧ Repr (fst (Put (S fuel) rb (Some x)))
         (map Some (fst (queue_call (cap rb) (QPut x) q)))
  ∧ putWaits (fst (Put (S fuel) rb (Some x))) = putWaits rb
  ∧ getWaits (fst (Put (S fuel) rb (Some x))) = getWaits rb.
Proof.
  intros R. unfold Put, queue_call.
  pose proof (Repr_full_iff _ _ R) as Hfull. rewrite length_map in Hfull.
  destruct (Z.eqb_spec (Z.of_nat (length q)) (cap rb - 1)) as [E|E].
  - apply Hfull in E. rewrite (Enqueue_full fuel rb (Some x) E). cbn [fst snd].
    split; [reflexivity|]. split; [exact R|]. split; reflexivity.
  - assert (¬ full_at rb) as Hnf by (intros H; apply E, Hfull, H).
    destruct (Enqueue_Repr fuel rb _ (Some x) R Hnf) as (rb' & E' & R').
    pose proof (Enqueue_frame (S fuel) rb (Some x)) as (_ & _ & Hg & _).
    destruct (Enqueue_turns fuel rb (Some x)) as [(Hs & _)|(_ & _ & Hp & _)].
    { rewrite E' in Hs. discriminate. }
    rewrite E' in *. cbn [fst snd] in *. rewrite map_app. cbn [map].
    split; [reflexivity|]. split; [exact R'|]. split; assumption.
Qed.

Lemma Get_queue fuel rb (q : list V) :
  Repr rb (map Some q) →
  DequeueReply (snd (Get (S fuel) rb)) = snd (queue_call (cap rb) QGet q)
  ∧ Repr (fst (fst (Get (S fuel) rb))) (map Some (fst (queue_call (cap rb) QGet q)))
  ∧ snd (fst (Get (S fuel) rb)) = []
  ∧ putWaits (fst (fst (Get (S fuel) rb))) = putWaits rb
  ∧ getWaits (fst (fst (Get (S fuel) rb))) = getWaits rb.
Proof.
  intros R. unfold Get, queue_call. destruct q as [|x q].
  - assert (empty_at rb) as He by (now apply (Repr_empty_iff rb [])).
    rewrite (Dequeue_empty fuel rb He). cbn [fst snd].
    split; [reflexivity|]. split; [exact R|]. split; [reflexivity|].
    split; reflexivity.
  - cbn [map] in R.
    destruct (Dequeue_Repr fuel rb (Some x) (map Some q) R) as (rb' & E' & R').
    pose proof (Dequeue_frame (S fuel) rb) as (_ & _ & Hp & _).
    destruct (Dequeue_turns fuel rb) as [(Hs & _)|(_ & _ & Hg & _)].
    { rewrite E' in Hs. discriminate. }
    rewrite E' in *. cbn [fst snd check_nil] in *.
    split; [reflexivity|]. split; [exact R'|]. split; [reflexivity|].
    split; assumption.
Qed.

(** X8.  Used by one goroutine at a time, the buffer is a bounded
    first-in first-out queue of capacity [cap - 1].  On a buffer that
    holds the payloads [q], [Put] answers [ErrQueueFull] and changes
    nothing when [q] has [cap - 1] elements and otherwise appends its
    payload; [Get] answers [ErrQueueEmpty] when [q] is empty and otherwise
    returns the first payload and removes it, logging nothing.  Any
    sequence of such calls gives the replies of the bounded queue, call by
    call, leaves a buffer that holds the queue's final contents, never
    more than [cap - 1] payloads, and never waits: both wait counters
    stay as they were. *)
Theorem sequential_use_is_a_bounded_queue fuel rb (q : list V) (cs : list (qcall V)) :
  Repr rb (map Some q) →
  (∀ x, EnqueueReply (snd (Put (S fuel) rb (Some x)))
        = snd (queue_call (cap rb) (QPut x) q)
        ∧ Repr (fst (Put (S fuel) rb (Some x)))
               (map Some (fst (queue_call (cap rb) (QPut x) q))))
  ∧ (DequeueReply (snd (Get (S fuel) rb)) = snd (queue_call (cap rb) QGet q)
     ∧ Repr (fst (fst (Get (S fuel) rb)))
            (map Some (fst (queue_call (cap rb) QGet q)))
     ∧ snd (fst (Get (S fuel) rb)) = [])
  ∧ snd (run_calls (S fuel) (map to_call cs) rb) = snd (queue_calls (cap rb) cs q)
  ∧ Repr (fst (run_calls (S fuel) (map to_call cs) rb))
         (map Some (fst (queue_calls (cap rb) cs q)))
  ∧ Z.of_nat (length (fst (queue_calls (cap rb) cs q))) ≤ cap rb - 1
  ∧ putWaits (fst (run_calls (S fuel) (map to_call cs) rb)) = putWaits rb
  ∧ getWaits (fst (run_calls (S fuel) (map to_call cs) rb)) = getWaits rb.
Proof.
  intros R.
  split.
  { intros x. destruct (Put_queue fuel rb q x R) as (H1 & H2 & _).
    split; assumption. }
  split.
  { destruct (Get_queue fuel rb q R) as (H1 & H2 & H3 & _).
    split; [assumption|]. split; assumption. }
  assert (snd (run_calls (S fuel) (map to_call cs) rb) = snd (queue_calls (cap rb) cs q)
          ∧ Repr (fst (run_calls (S fuel) (map to_call cs) rb))
                 (map Some (fst (queue_calls (cap rb) cs q)))
          ∧ cap (fst (run_calls (S fuel) (map to_call cs) rb)) = cap rb
          ∧ putWaits (fst (run_calls (S fuel) (map to_call cs) rb)) = putWaits rb
          ∧ getWaits (fst (run_calls (S fuel) (map to_call cs) rb)) = getWaits rb)
    as (H1 & H2 & H3 & H4 & H5).
  { revert rb q R. induction cs as [|c cs IH]; intros rb q R.
    - cbn. auto.
    - cbn [map run_calls queue_calls].
      assert (∃ rb1 r, do_call (S fuel) (to_call c) rb = (rb1, r)
                       ∧ r = snd (queue_call (cap rb) c q)
                       ∧ Repr rb1 (map Some (fst (queue_call (cap rb) c q)))
                       ∧ cap rb1 = cap rb
                       ∧ putWaits rb1 = putWaits rb ∧ getWaits rb1 = getWaits rb)
        as (rb1 & r & Ec & Er & R1 & Hc & Hp & Hg).
      { destruct c as [x|]; cbn [to_call do_call].
        - destruct (Put_queue fuel rb q x R) as (E1 & E2 & E3 & E4).
          pose proof (Enqueue_frame (S fuel) rb (Some x)) as ((Hc & _) & _).
          unfold Put in *. destruct (Enqueue (S fuel) rb (Some x)) as [rb1 out].
          cbn [fst snd] in *. eauto 10.
        - destruct (Get_queue fuel rb q R) as (E1 & E2 & _ & E3 & E4).
          pose proof (Dequeue_frame (S fuel) rb) as ((Hc & _) & _).
          unfold Get in *. destruct (Dequeue (S fuel) rb) as [[rb1 lg] out].
          cbn [fst snd] in *. eauto 10. }
      rewrite Ec. destruct (queue_call (cap rb) c q) as [q1 r1]. cbn [fst snd] in *.
      specialize (IH rb1 q1 R1). rewrite Hc in IH.
      destruct (run_calls (S fuel) (map to_call cs) rb1) as [rb2 rs].
      destruct (queue_calls (cap rb) cs q1) as [q2 rs2]. cbn [fst snd] in *.
      destruct IH as (I1 & I2 & I3 & I4 & I5).
      split; [congruence|]. split; [exact I2|]. split; [congruence|].
      split; congruence. }
  split; [exact H1|]. split; [exact H2|]. split; [|split; assumption].
  apply Repr_length_le in H2. rewrite length_map, H3 in H2. exact H2.
Qed.


(** ** A call that goes through, with all it leaves behind *)

Lemma Enqueue_room fuel rb q item :
  Repr rb q → ¬ full_at rb →
  ∃ rb', Enqueue (S fuel) rb item = (rb', Returned None) ∧ Repr rb' (q ++ [item])
         ∧ cap rb' = cap rb
         ∧ putWaits rb' = putWaits rb ∧ getWaits rb' = getWaits rb.
Proof.
  intros R Hnf.
  destruct (Enqueue_Repr fuel rb q item R Hnf) as (rb' & E' & R').
  pose proof (Enqueue_frame (S fuel) rb item) as ((Hc & _) & _ & Hg & _).
  destruct (Enqueue_turns fuel rb item) as [(Hs & _)|(_ & _ & Hp & _)].
  { rewrite E' in Hs. discriminate. }
  rewrite E' in *. cbn [fst snd] in *.
  exists rb'. split; [reflexivity|]. split; [exact R'|]. split; [exact Hc|].
  split; assumption.
Qed.

Lemma Dequeue_some fuel rb (x : V) q :
  Repr rb (Some x :: q) →
  ∃ rb', Dequeue (S fuel) rb = (rb', [], Returned (Some x, None)) ∧ Repr rb' q
         ∧ cap rb' = cap rb
         ∧ putWaits rb' = putWaits rb ∧ getWaits rb' = getWaits rb.
Proof.
  intros R.
  destruct (Dequeue_Repr fuel rb (Some x) q R) as (rb' & E' & R').
  pose proof (Dequeue_frame (S fuel) rb) as ((Hc & _) & _ & Hp & _).
  destruct (Dequeue_turns fuel rb) as [(Hs & _)|(_ & _ & Hg & _)].
  { rewrite E' in Hs. discriminate. }
  rewrite E' in *. cbn [fst snd check_nil] in *.
  exists rb'. split; [reflexivity|]. split; [exact R'|]. split; [exact Hc|].
  split; assumption.
Qed.


(** ** Conservation of payloads *)

Lemma flat_map_insert {A B} (f : A → list B) l i x :
  l !! i = Some x →
  ∃ R, flat_map f l ≡ₚ f x ++ R ∧ ∀ y, flat_map f (<[i := y]> l) ≡ₚ f y ++ R.
Proof.
  revert i. induction l as [|a l IH]; intros i Hl; [discriminate|].
  destruct i as [|i].
  - cbn in Hl. inversion Hl; subst. exists (flat_map f l).
    split; [reflexivity|]. intros y. reflexivity.
  - cbn in Hl. destruct (IH i Hl) as (R & H1 & H2). exists (f a ++ R).
    split.
    + cbn [flat_map]. rewrite H1. apply Permutation_app_swap_app.
    + intros y. cbn [flat_map insert list_insert]. 
      change (list_insert i y l) with (<[i := y]> l).
      rewrite (H2 y). apply Permutation_app_swap_app.
Qed.

Lemma resident_insert rb h it y :
  data rb !! h = Some it →
  ∃ R, resident rb ≡ₚ in_slot it ++ R
       ∧ resident (set_data rb (<[h := y]> (data rb))) ≡ₚ in_slot y ++ R.
Proof.
  intros Hl. destruct (flat_map_insert in_slot _ _ _ Hl) as (R & H1 & H2).
  exists R. split; [exact H1|]. apply H2.
Qed.

Lemma rw_at_lookup rb h : rw_at rb h ≠ 0 → ∃ it, data rb !! h = Some it ∧ readWrite it = rw_at rb h.
Proof.
  unfold rw_at. destruct (data rb !! h) as [it|]; [eauto|congruence].
Qed.

Lemma in_slot_mk rw (v : option V) :
  in_slot (mkItem rw v) = if decide (rw = 1 ∨ rw = 3) then [v] else [].
Proof. reflexivity. Qed.

Lemma value_at_insert rb h x j it :
  data rb !! h = Some it →
  value_at (set_data rb (<[h := x]> (data rb))) j
  = if decide (j = h) then value x else value_at rb j.
Proof.
  intros Hit. unfold value_at. cbn [data set_data].
  destruct (decide (j = h)) as [->|Hne].
  - rewrite list_lookup_insert_eq; [reflexivity|].
    apply lookup_lt_is_Some_1. eauto.
  - rewrite list_lookup_insert_ne by congruence. reflexivity.
Qed.

Lemma step_enq_balance item pc rb :
  raced_task (TEnqueue item pc) = false →
  (∀ k, holds_w k (TEnqueue item pc) = 1%nat → rw_at rb k = 2) →
  carries rb (TEnqueue item pc) →
  ∃ a a' RA,
    resident rb ≡ₚ a ++ RA
    ∧ resident (snd (step_enq item pc rb)) ≡ₚ a' ++ RA
    ∧ a ++ enqueued (TEnqueue item (fst (step_enq item pc rb)))
      ≡ₚ a' ++ enqueued (TEnqueue item pc)
    ∧ carries (snd (step_enq item pc rb)) (TEnqueue item (fst (step_enq item pc rb)))
    ∧ (∀ j, value_at (snd (step_enq item pc rb)) j = value_at rb j
            ∨ holds j (TEnqueue item pc)).
Proof.
  intros Hr Hh Hc.
  destruct pc as [|hd tl nt h|tl nt h|tl nt h| |h|h|out].
  - (* E_load *)
    exists [], [], (resident rb). rewrite step_enq_load_mem.
    split; [reflexivity|]. split; [reflexivity|].
    split; [|split; [|auto]].
    + cbn. destruct (_ =? _); [reflexivity|]. destruct (data rb !! _); reflexivity.
    + cbn. destruct (_ =? _); [exact I|]. destruct (data rb !! _); exact I.
  - (* E_claim *)
    cbn [step_enq]. destruct (data rb !! h) as [it|] eqn:Hit.
    + destruct (Z.eq_dec (readWrite it) 0) as [E|E].
      * rewrite (CAS_rw_hit _ _ _ _ _ Hit E). cbn [fst snd].
        destruct (resident_insert rb h it (mkItem 2 (value it)) Hit) as (R & H1 & H2).
        exists (in_slot it), (in_slot (mkItem 2 (value it))), R.
        split; [exact H1|]. split; [exact H2|].
        split; [|split; [exact I|]].
        -- unfold in_slot. cbn [readWrite]. rewrite E.
           rewrite !decide_False by lia. reflexivity.
        -- intros j. left. rewrite (value_at_insert _ _ _ _ _ Hit).
           destruct (decide (j = h)) as [->|]; [|reflexivity].
           unfold value_at. rewrite Hit. reflexivity.
      * rewrite (CAS_rw_miss _ _ _ _ _ Hit E). cbn [fst snd].
        exists [], [], (resident rb). split; [reflexivity|]. split; [reflexivity|].
        split; [reflexivity|]. split; [exact I|auto].
    + unfold CompareAndSwap_readWrite. rewrite Hit. cbn [fst snd].
      exists [], [], (resident rb). split; [reflexivity|]. split; [reflexivity|].
      split; [reflexivity|]. split; [exact I|auto].
  - (* E_store *)
    cbn [step_enq fst snd].
    assert (rw_at rb h = 2) as Hrw.
    { apply Hh. cbn. now rewrite decide_True. }
    destruct (rw_at_lookup rb h) as (it & Hit & Eit); [lia|].
    unfold store_value. rewrite Hit.
    destruct (resident_insert rb h it (mkItem (readWrite it) item) Hit) as (R & H1 & H2).
    exists (in_slot it), (in_slot (mkItem (readWrite it) item)), R.
    split; [exact H1|]. split; [exact H2|]. split; [|split].
    + unfold in_slot. cbn [readWrite]. rewrite !decide_False by lia. reflexivity.
    + cbn [carries]. rewrite (value_at_insert _ _ _ _ _ Hit).
      rewrite decide_True by reflexivity. reflexivity.
    + intros j. rewrite (value_at_insert _ _ _ _ _ Hit).
      destruct (decide (j = h)) as [->|]; [|left; reflexivity].
      right. left. cbn. now rewrite decide_True.
  - (* E_advance *)
    cbn [step_enq]. unfold CompareAndSwap_tail.
    exists [], [], (resident rb).
    destruct (_ =? _); cbn [fst snd]; (split; [reflexivity|]); (split; [reflexivity|]);
      (split; [reflexivity|]); (split; [exact Hc|auto]).
  - (* E_wait *)
    cbn [step_enq fst snd]. exists [], [], (resident rb).
    split; [reflexivity|]. split; [reflexivity|]. split; [reflexivity|].
    split; [exact I|auto].
  - (* E_release *)
    cbn [step_enq].
    assert (rw_at rb h = 2) as Hrw.
    { apply Hh. cbn. now rewrite decide_True. }
    destruct (rw_at_lookup rb h) as (it & Hit & Eit); [lia|].
    rewrite Hrw in Eit. rewrite (CAS_rw_hit _ _ _ _ _ Hit Eit). cbn [negb fst snd].
    destruct (resident_insert rb h it (mkItem 1 (value it)) Hit) as (R & H1 & H2).
    exists (in_slot it), (in_slot (mkItem 1 (value it))), R.
    split; [exact H1|]. split; [exact H2|]. split; [|split; [exact I|]].
    + cbn [carries] in Hc. unfold value_at in Hc. rewrite Hit in Hc.
      unfold in_slot. cbn [readWrite value enqueued]. rewrite Eit.
      rewrite decide_False by lia. rewrite decide_True by lia.
      rewrite Hc. rewrite app_nil_r. reflexivity.
    + intros j. left. rewrite (value_at_insert _ _ _ _ _ Hit).
      destruct (decide (j = h)) as [->|]; [|reflexivity].
      unfold value_at. rewrite Hit. reflexivity.
  - (* E_errorf *) discriminate.
  - (* E_end *)
    cbn [step_enq fst snd]. exists [], [], (resident rb).
    split; [reflexivity|]. split; [reflexivity|]. split; [reflexivity|].
    split; [exact I|auto].
Qed.

Lemma step_deq_balance pc rb :
  raced_task (TDequeue pc) = false →
  (∀ k, holds_r k (TDequeue pc) = 1%nat → rw_at rb k = 3) →
  carries rb (TDequeue pc) →
  ∃ a a' RA,
    resident rb ≡ₚ a ++ RA
    ∧ resident (snd (fst (step_deq pc rb))) ≡ₚ a' ++ RA
    ∧ a ++ taken (TDequeue pc) ≡ₚ a' ++ taken (TDequeue (fst (fst (step_deq pc rb))))
    ∧ carries (snd (fst (step_deq pc rb))) (TDequeue (fst (fst (step_deq pc rb))))
    ∧ (∀ j, value_at (snd (fst (step_deq pc rb))) j = value_at rb j).
Proof.
  intros Hr Hh Hc.
  destruct pc as [|hd tl h|hd tl h|item hd tl nh h| |item hd tl nh h|item h
                  |item hd tl nh|out].
  - (* D_load *)
    exists [], [], (resident rb).
    destruct (step_deq_load_mem rb) as [-> _].
    split; [reflexivity|]. split; [reflexivity|].
    split; [|split; [|auto]].
    + cbn. destruct (_ =? _); [reflexivity|]. destruct (data rb !! _); reflexivity.
    + cbn. destruct (_ =? _); [exact I|]. destruct (data rb !! _); exact I.
  - (* D_claim *)
    cbn [step_deq]. destruct (data rb !! h) as [it|] eqn:Hit.
    + destruct (Z.eq_dec (readWrite it) 1) as [E|E].
      * rewrite (CAS_rw_hit _ _ _ _ _ Hit E). cbn [fst snd].
        destruct (resident_insert rb h it (mkItem 3 (value it)) Hit) as (R & H1 & H2).
        exists (in_slot it), (in_slot (mkItem 3 (value it))), R.
        split; [exact H1|]. split; [exact H2|].
        split; [|split; [exact I|]].
        -- unfold in_slot. cbn [readWrite value]. rewrite E.
           rewrite !decide_True by lia. reflexivity.
        -- intros j. rewrite (value_at_insert _ _ _ _ _ Hit).
           destruct (decide (j = h)) as [->|]; [|reflexivity].
           unfold value_at. rewrite Hit. reflexivity.
      * rewrite (CAS_rw_miss _ _ _ _ _ Hit E). cbn [fst snd].
        exists [], [], (resident rb). split; [reflexivity|]. split; [reflexivity|].
        split; [reflexivity|]. split; [exact I|auto].
    + unfold CompareAndSwap_readWrite. rewrite Hit. cbn [fst snd].
      exists [], [], (resident rb). split; [reflexivity|]. split; [reflexivity|].
      split; [reflexivity|]. split; [exact I|auto].
  - (* D_read *)
    cbn [step_deq fst snd]. exists [], [], (resident rb).
    split; [reflexivity|]. split; [reflexivity|]. split; [reflexivity|].
    split; [reflexivity|auto].
  - (* D_advance *)
    cbn [step_deq]. unfold CompareAndSwap_head.
    exists [], [], (resident rb).
    destruct (_ =? _); cbn [fst snd]; (split; [reflexivity|]); (split; [reflexivity|]);
      (split; [reflexivity|]); (split; [exact Hc|auto]).
  - (* D_wait *)
    cbn [step_deq fst snd]. exists [], [], (resident rb).
    split; [reflexivity|]. split; [reflexivity|]. split; [reflexivity|].
    split; [exact I|auto].
  - (* D_release *)
    cbn [step_deq].
    assert (rw_at rb h = 3) as Hrw.
    { apply Hh. cbn. now rewrite decide_True. }
    destruct (rw_at_lookup rb h) as (it & Hit & Eit); [lia|].
    rewrite Hrw in Eit. rewrite (CAS_rw_hit _ _ _ _ _ Hit Eit). cbn [negb fst snd].
    destruct (resident_insert rb h it (mkItem 0 (value it)) Hit) as (R & H1 & H2).
    exists (in_slot it), (in_slot (mkItem 0 (value it))), R.
    split; [exact H1|]. split; [exact H2|]. split; [|split; [exact I|]].
    + cbn [carries] in Hc. unfold value_at in Hc. rewrite Hit in Hc.
      unfold in_slot. cbn [readWrite value taken]. rewrite Eit.
      rewrite decide_True by lia. rewrite decide_False by lia.
      rewrite Hc. rewrite app_nil_r. reflexivity.
    + intros j. rewrite (value_at_insert _ _ _ _ _ Hit).
      destruct (decide (j = h)) as [->|]; [|reflexivity].
      unfold value_at. rewrite Hit. reflexivity.
  - (* D_errorf *) discriminate.
  - (* D_check *)
    cbn [step_deq]. exists [], [], (resident rb).
    destruct item as [v|]; cbn [check_nil fst snd taken];
      (split; [reflexivity|]); (split; [reflexivity|]);
      (split; [reflexivity|]); (split; [exact I|auto]).
  - (* D_end *)
    cbn [step_deq fst snd]. exists [], [], (resident rb).
    split; [reflexivity|]. split; [reflexivity|]. split; [reflexivity|].
    split; [exact I|auto].
Qed.

Lemma carries_other (c : config V) rb' i i' t t' :
  owned c → tasks c !! i = Some t → tasks c !! i' = Some t' → i ≠ i' →
  (∀ j, value_at rb' j = value_at (mem c) j ∨ holds j t) →
  carries (mem c) t' → carries rb' t'.
Proof.
  intros Ho Hi Hi' Hne Hv Hc.
  assert (∀ j, holds j t' → value_at rb' j = value_at (mem c) j) as Hj.
  { intros j Hj. destruct (Hv j) as [E|Ht]; [exact E|].
    exfalso. apply Hne. exact (owned_exclusive c j i i' t t' Ho Hi Hi' Ht Hj). }
  destruct t' as [item pc|pc]; destruct pc; cbn [carries] in *; try exact I;
    (rewrite Hj; [exact Hc|]); [left|left|right|right];
    cbn; now rewrite decide_True.
Qed.

Lemma balance_step {A} (init a a' RA tk tk' RT e e' RE A1 A1' T1 T1' E1 E1' : list A) :
  A1 ≡ₚ a ++ RA → A1' ≡ₚ a' ++ RA →
  T1 ≡ₚ tk ++ RT → T1' ≡ₚ tk' ++ RT →
  E1 ≡ₚ e ++ RE → E1' ≡ₚ e' ++ RE →
  a ++ tk ++ e' ≡ₚ a' ++ tk' ++ e →
  A1 ++ T1 ≡ₚ init ++ E1 → A1' ++ T1' ≡ₚ init ++ E1'.
Proof.
  intros HA HA' HT HT' HE HE' Hb H.
  rewrite HA, HT, HE in H. rewrite HA', HT', HE'.
  apply (Permutation_app_inv_l e).
  transitivity ((a' ++ tk' ++ e) ++ RA ++ RT); [solve_Permutation|].
  rewrite <- Hb.
  transitivity (e' ++ (a ++ RA) ++ tk ++ RT); [solve_Permutation|].
  rewrite H. solve_Permutation.
Qed.

Lemma sched_step_conserved init (c : config V) i :
  conserved init c → conserved init (sched_step c i).
Proof.
  intros (Ho & Hc & Hp).
  split; [exact (sched_step_owned c i Ho)|].
  unfold sched_step. destruct (tasks c !! i) as [t|] eqn:Hl; [|split; assumption].
  pose proof (lookup_lt_Some _ _ _ Hl) as Hlen.
  pose proof (Forall_lookup_1 _ _ _ _ Hc Hl) as Hct.
  pose proof Ho as (_ & _ & Hnr).
  pose proof (Forall_lookup_1 _ _ _ _ Hnr Hl) as Hrt. cbv beta in Hrt.
  destruct (flat_map_insert taken _ _ _ Hl) as (RT & HT & HT').
  destruct (flat_map_insert enqueued _ _ _ Hl) as (RE & HE & HE').
  destruct t as [item pc|pc].
  - destruct (step_enq_balance item pc (mem c) Hrt) as (a & a' & RA & HA & HA' & Hb & Hn & Hv);
      [intros k Hk; exact (owned_holds_w c i _ k Ho Hl Hk)|exact Hct|].
    destruct (step_enq item pc (mem c)) as [pc' rb']. cbn [fst snd mem tasks] in *.
    split.
    + apply Forall_lookup_2. intros i' t' Hl'.
      apply list_lookup_insert_Some in Hl' as [(-> & <- & _)|(Hne & Hl')]; [exact Hn|].
      apply (carries_other c rb' i i' _ t' Ho Hl Hl' Hne Hv).
      exact (Forall_lookup_1 _ _ _ _ Hc Hl').
    + apply (balance_step init a a' RA [] [] RT
               (enqueued (TEnqueue item pc)) (enqueued (TEnqueue item pc')) RE
               _ _ _ _ _ _ HA HA' HT (HT' (TEnqueue item pc'))
               HE (HE' (TEnqueue item pc'))); [|exact Hp].
      cbn [app]. exact Hb.
  - destruct (step_deq_balance pc (mem c) Hrt) as (a & a' & RA & HA & HA' & Hb & Hn & Hv);
      [intros k Hk; exact (owned_holds_r c i _ k Ho Hl Hk)|exact Hct|].
    destruct (step_deq pc (mem c)) as [[pc' rb'] lg]. cbn [fst snd mem tasks] in *.
    split.
    + apply Forall_lookup_2. intros i' t' Hl'.
      apply list_lookup_insert_Some in Hl' as [(-> & <- & _)|(Hne & Hl')]; [exact Hn|].
      apply (carries_other c rb' i i' _ t' Ho Hl Hl' Hne); [auto|].
      exact (Forall_lookup_1 _ _ _ _ Hc Hl').
    + apply (balance_step init a a' RA
               (taken (TDequeue pc)) (taken (TDequeue pc')) RT [] [] RE
               _ _ _ _ _ _ HA HA' HT (HT' (TDequeue pc'))
               HE (HE' (TDequeue pc'))); [|exact Hp].
      rewrite !app_nil_r. exact Hb.
Qed.

Lemma run_conserved init sched (c : config V) :
  conserved init c → conserved init (run sched c).
Proof.
  revert c. induction sched as [|i sched IH]; intros c H; [exact H|].
  cbn. apply IH. now apply sched_step_conserved.
Qed.

Lemma spawn_conserved rb cs :
  (∀ j, rw_at rb j ≠ 2 ∧ rw_at rb j ≠ 3) → conserved (resident rb) (spawn rb cs).
Proof.
  intros Hq. split; [now apply spawn_owned|]. unfold spawn. cbn [mem tasks].
  split.
  - induction cs as [|c cs IH]; constructor; [now destruct c|exact IH].
  - assert (flat_map taken (map start cs) = [] ∧ flat_map enqueued (map start cs) = [])
      as [-> ->]; [|reflexivity].
    induction cs as [|c cs [IH1 IH2]]; [split; reflexivity|].
    cbn [map flat_map]. rewrite IH1, IH2. destruct c; split; reflexivity.
Qed.

Lemma flat_map_by_index {A B} (f : A → list B) (g : nat → list B) d : ∀ k,
  (∀ i x, d !! i = Some x → f x = g (k + i)%nat) →
  flat_map f d = flat_map g (seq k (length d)).
Proof.
  induction d as [|x d IH]; intros k H; [reflexivity|].
  cbn [length seq flat_map]. f_equal.
  - rewrite (H 0%nat x eq_refl). f_equal. lia.
  - apply IH. intros i y Hy. rewrite (H (S i) y Hy). f_equal. lia.
Qed.

Lemma flat_map_window {B} (g : nat → list B) (l : list B) m : ∀ k a,
  (∀ j, (j < m)%nat → g (k + j)%nat = option_list (l !! (a + j)%nat)) →
  flat_map g (seq k m) = take m (drop a l).
Proof.
  induction m as [|m IH]; intros k a H; [reflexivity|].
  cbn [seq flat_map]. rewrite (IH (S k) (S a)).
  - pose proof (H 0%nat) as H0. rewrite !Nat.add_0_r in H0. rewrite H0 by lia.
    destruct (l !! a) as [x|] eqn:Hx.
    + rewrite (drop_S _ _ _ Hx). reflexivity.
    + apply lookup_ge_None in Hx. rewrite !drop_ge by lia. rewrite !take_nil. reflexivity.
  - intros j Hj. pose proof (H (S j)) as Hs.
    replace (S k + j)%nat with (k + S j)%nat by lia.
    replace (S a + j)%nat with (a + S j)%nat by lia. apply Hs. lia.
Qed.

(** The payloads in a buffer that holds the queue [q] are those of [q]. *)
Lemma Repr_resident rb q : Repr rb q → resident rb ≡ₚ q.
Proof.
  intros R. pose proof (Repr_cap_bounds _ _ R) as Hcb.
  pose proof (repr_head _ _ R) as Hh. pose proof (repr_len _ _ R) as Hlen.
  pose proof (Repr_length_le _ _ R) as Hq.
  set (g := λ i : nat,
         option_list (q !! Z.to_nat ((Z.of_nat i - head rb) mod cap rb))).
  assert (resident rb = flat_map g (seq 0 (length (data rb)))) as ->.
  { unfold resident. apply flat_map_by_index. intros i it Hit.
    pose proof (repr_slots _ _ R _ _ Hit) as Hs. unfold g, in_slot.
    cbn [Nat.add]. destruct (q !! _) as [v|].
    - destruct Hs as [-> ->]. rewrite decide_True by lia. reflexivity.
    - rewrite Hs. rewrite decide_False by lia. reflexivity. }
  set (h := Z.to_nat (head rb)). set (c := Z.to_nat (cap rb)).
  assert (length (data rb) = (h + (c - h))%nat) as -> by lia.
  rewrite seq_app, flat_map_app. cbn [Nat.add].
  rewrite (flat_map_window g q h 0%nat (c - h)%nat).
  2:{ intros j Hj. unfold g. do 2 f_equal. cbn [Nat.add].
      replace ((Z.of_nat j - head rb) mod cap rb)
        with ((Z.of_nat j - head rb + cap rb) mod cap rb).
      - rewrite Z.mod_small by lia. lia.
      - rewrite <- (Z_mod_plus_full (Z.of_nat j - head rb) 1 (cap rb)).
        f_equal. lia. }
  rewrite (flat_map_window g q (c - h)%nat h 0%nat).
  2:{ intros j Hj. unfold g. do 2 f_equal. cbn [Nat.add].
      rewrite Z.mod_small by lia. lia. }
  rewrite drop_0. rewrite take_ge by (rewrite length_drop; lia).
  rewrite Permutation_app_comm. rewrite take_drop. reflexivity.
Qed.

Lemma dequeued_taken (t : task V) : dequeued t = [] ∨ dequeued t = taken t.
Proof.
  destruct t as [item pc|pc]; [left; reflexivity|].
  destruct pc as [| | | | | | | |out]; try (left; reflexivity).
  destruct out as [[item [e|]]| | |]; try (left; reflexivity).
  right. reflexivity.
Qed.

Lemma dequeued_le_taken (l : list (task V)) :
  (length (flat_map dequeued l) ≤ length (flat_map taken l))%nat.
Proof.
  induction l as [|t l IH]; [reflexivity|].
  cbn [flat_map]. rewrite !length_app.
  destruct (dequeued_taken t) as [-> | ->]; cbn [length]; lia.
Qed.

(** X11.  No payload is made up, doubled or destroyed, whatever the
    interleaving.  At every moment of every interleaving of any calls, by
    any number of producers and consumers, on a buffer that holds the
    queue [q], the payloads in the slots that are readable or being read,
    together with the payloads that consumers have taken out, are the
    payloads of [q] together with those of the calls of [Enqueue] that
    have returned without error, each as many times.  So every payload
    that [Dequeue] returns was in [q] or was handed to an [Enqueue]
    that has returned without error, and consumers never receive more
    payloads than that. *)
Theorem payloads_are_conserved rb q cs sched :
  Repr rb q →
  resident (mem (run sched (spawn rb cs)))
    ++ flat_map taken (tasks (run sched (spawn rb cs)))
  ≡ₚ q ++ flat_map enqueued (tasks (run sched (spawn rb cs)))
  ∧ (∀ i item,
       tasks (run sched (spawn rb cs)) !! i
       = Some (TDequeue (D_end (Returned (item, None)))) →
       In item (q ++ flat_map enqueued (tasks (run sched (spawn rb cs)))))
  ∧ (length (flat_map dequeued (tasks (run sched (spawn rb cs))))
     ≤ length q + length (flat_map enqueued (tasks (run sched (spawn rb cs)))))%nat.
Proof.
  intros R.
  assert (conserved (resident rb) (run sched (spawn rb cs))) as (_ & _ & Hp).
  { apply run_conserved, spawn_conserved. exact (Repr_quiescent rb q R). }
  rewrite (Repr_resident rb q R) in Hp.
  generalize dependent (run sched (spawn rb cs)). intros c Hp.
  split; [exact Hp|]. split.
  - intros i item Hl. apply (Permutation_in _ Hp).
    apply in_or_app. right. apply in_flat_map.
    exists (TDequeue (D_end (Returned (item, None)))).
    split; [|left; reflexivity].
    apply list_elem_of_In. apply (list_elem_of_lookup_2 _ i). exact Hl.
  - apply Permutation_length in Hp. rewrite !length_app in Hp.
    pose proof (dequeued_le_taken (tasks c)). lia.
Qed.


(** ** One producer and one consumer: the program order *)

Lemma slot_view_rest (o : option (task V)) i r : at_rest o → slot_view o i r = r.
Proof.
  destruct o as [[item pc|pc]|]; [| |reflexivity];
    destruct pc; cbn; try reflexivity; discriminate.
Qed.

Lemma in_step_rest rb Q (o : option (task V)) : at_rest o → in_step rb Q o.
Proof.
  destruct o as [[item pc|pc]|]; [| |intros; exact I];
    destruct pc; cbn; try (intros; exact I); discriminate.
Qed.

Lemma ready_earlier (c : config V) i t :
  ready c i = true → tasks c !! i = Some t →
  ∀ j t0, (j < i)%nat → tasks c !! j = Some t0 →
          is_producer t0 = is_producer t → finished t0 = true.
Proof.
  unfold ready. intros Hr Hl j t0 Hj Hl0 Hk. rewrite Hl in Hr.
  rewrite forallb_forall in Hr.
  assert (In t0 (take i (tasks c))) as Hin.
  { apply list_elem_of_In. apply (list_elem_of_lookup_2 _ j).
    rewrite lookup_take_lt by exact Hj. exact Hl0. }
  specialize (Hr t0 Hin). rewrite Hk in Hr.
  rewrite eqb_reflx in Hr. exact Hr.
Qed.

Lemma all_fresh_rest k (l : list (task V)) :
  Forall (λ t', is_producer t' = k → fresh t' = true) l →
  at_rest (cur_of k l) ∧ ordered k l.
Proof.
  induction l as [|t l IH]; intros H; [split; exact I|].
  inversion H as [|? ? Ht Hl]; subst. destruct (IH Hl) as [IH1 IH2].
  cbn [cur_of ordered].
  destruct (Bool.eqb (is_producer t) k && negb (finished t)) eqn:E.
  - apply andb_true_iff in E as [E1 E2]. apply eqb_prop in E1.
    split; [|exact Hl]. cbn. rewrite (Ht E1). reflexivity.
  - split; assumption.
Qed.

Lemma cur_of_current k (l : list (task V)) : ∀ i t,
  ordered k l → l !! i = Some t → is_producer t = k → finished t = false →
  (∀ j t0, (j < i)%nat → l !! j = Some t0 → is_producer t0 = k → finished t0 = true) →
  cur_of k l = Some t
  ∧ (∀ j t0, (i < j)%nat → l !! j = Some t0 → is_producer t0 = k → fresh t0 = true)
  ∧ ∀ t', is_producer t' = k →
          ordered k (<[i := t']> l)
          ∧ (finished t' = false → cur_of k (<[i := t']> l) = Some t')
          ∧ (finished t' = true → at_rest (cur_of k (<[i := t']> l))).
Proof.
  induction l as [|t1 l IH]; intros i t Ho Hl Hk Hf Hbefore; [discriminate|].
  destruct i as [|i].
  - cbn in Hl. inversion Hl; subst t1. cbn [cur_of ordered] in *.
    rewrite Hk, eqb_reflx, Hf in *. cbn [andb negb] in *.
    split; [reflexivity|]. split.
    + intros j t0 Hj Hl0. destruct j as [|j]; [lia|]. cbn in Hl0.
      exact (Forall_lookup_1 _ _ _ _ Ho Hl0).
    + intros t' Hk'. cbn [insert list_insert cur_of ordered].
      rewrite Hk', eqb_reflx. cbn [andb].
      destruct (finished t') eqn:Hf'; cbn [negb].
      * destruct (all_fresh_rest _ _ Ho) as [H1 H2].
        split; [exact H2|]. split; [discriminate|]. intros _. exact H1.
      * split; [exact Ho|]. split; [reflexivity|discriminate].
  - cbn in Hl. cbn [cur_of ordered] in *.
    assert (Bool.eqb (is_producer t1) k && negb (finished t1) = false) as E.
    { destruct (Bool.eqb (is_producer t1) k) eqn:E1; [|reflexivity].
      apply eqb_prop in E1.
      rewrite (Hbefore 0%nat t1) by (try lia; auto). reflexivity. }
    rewrite E in *.
    destruct (IH i t Ho Hl Hk Hf) as (H1 & H2 & H3).
    { intros j t0 Hj Hl0. apply (Hbefore (S j) t0); [lia|exact Hl0]. }
    split; [exact H1|]. split.
    + intros j t0 Hj Hl0. destruct j as [|j]; [lia|]. cbn in Hl0.
      apply (H2 j t0); [lia|exact Hl0].
    + intros t' Hk'. cbn [insert list_insert cur_of ordered]. rewrite E.
      exact (H3 t' Hk').
Qed.

Lemma cur_of_other k (l : list (task V)) : ∀ i t t',
  l !! i = Some t → is_producer t = negb k → is_producer t' = negb k →
  cur_of k (<[i := t']> l) = cur_of k l
  ∧ (ordered k l → ordered k (<[i := t']> l)).
Proof.
  induction l as [|t1 l IH]; intros i t t' Hl Hk Hk'; [discriminate|].
  assert (∀ x : task V, is_producer x = negb k →
            Bool.eqb (is_producer x) k && negb (finished x) = false) as Hoff.
  { intros x Hx. rewrite Hx. now destruct k. }
  destruct i as [|i].
  - cbn in Hl. inversion Hl; subst t1.
    cbn [insert list_insert cur_of ordered].
    rewrite (Hoff t Hk), (Hoff t' Hk'). split; [reflexivity|auto].
  - cbn in Hl. cbn [insert list_insert cur_of ordered].
    destruct (IH i t t' Hl Hk Hk') as [H1 H2].
    change (list_insert i t' l) with (<[i := t']> l).
    destruct (Bool.eqb (is_producer t1) k && negb (finished t1)).
    + split; [reflexivity|]. intros Ho.
      apply Forall_insert; [exact Ho|]. intros E. rewrite Hk' in E. now destruct k.
    + split; assumption.
Qed.

Lemma flat_map_insert_same {A B} (f : A → list B) l : ∀ i x y,
  l !! i = Some x → f y = f x → flat_map f (<[i := y]> l) = flat_map f l.
Proof.
  induction l as [|a l IH]; intros i x y Hl E; [reflexivity|].
  destruct i as [|i]; cbn in Hl.
  - inversion Hl; subst. cbn. now rewrite E.
  - cbn. f_equal. exact (IH i x y Hl E).
Qed.

Lemma flat_map_insert_last {A B} (f : A → list B) l : ∀ i x y,
  l !! i = Some x → f x = [] →
  (∀ j z, (i < j)%nat → l !! j = Some z → f z = []) →
  flat_map f (<[i := y]> l) = flat_map f l ++ f y.
Proof.
  induction l as [|a l IH]; intros i x y Hl E Hafter; [discriminate|].
  destruct i as [|i]; cbn in Hl.
  - inversion Hl; subst. cbn. rewrite E. cbn.
    assert (flat_map f l = []) as ->; [|now rewrite app_nil_r].
    clear -Hafter. induction l as [|b l IH]; [reflexivity|].
    cbn. rewrite (Hafter 1%nat b) by (try lia; reflexivity). cbn.
    apply IH. intros j z Hj Hz. destruct j as [|j]; [lia|].
    apply (Hafter (S (S j)) z); [lia|exact Hz].
  - cbn. rewrite <- app_assoc. f_equal. apply (IH i x y Hl E).
    intros j z Hj Hz. apply (Hafter (S j) z); [lia|exact Hz].
Qed.

(** ** One producer and one consumer: the buffer with the calls in
    flight accounted for *)

Lemma Repr_agree rb rb' Q :
  Repr rb Q →
  cap rb' = cap rb → capModMask rb' = capModMask rb →
  head rb' = head rb → tail rb' = tail rb →
  length (data rb') = length (data rb) →
  (∀ i it', data rb' !! i = Some it' →
     ∃ it, data rb !! i = Some it ∧ readWrite it' = readWrite it
           ∧ (readWrite it = 0 ∨ value it' = value it)) →
  Repr rb' Q.
Proof.
  intros R Hc Hm Hh Ht Hl Hs.
  constructor; rewrite ?Hc, ?Hm, ?Hh, ?Ht, ?Hl.
  - apply (repr_cap _ _ R).
  - apply (repr_mask _ _ R).
  - apply (repr_len _ _ R).
  - apply (repr_head _ _ R).
  - apply (repr_tail _ _ R).
  - apply (repr_qlen _ _ R).
  - intros i it' Hi. destruct (Hs i it' Hi) as (it & Hit & Hrw & Hv).
    pose proof (repr_slots _ _ R _ _ Hit) as H0.
    destruct (Q !! _) as [v|].
    + destruct H0 as [H1 H2]. split; [congruence|].
      destruct Hv as [Hv|Hv]; [lia|congruence].
    + congruence.
Qed.

Lemma settled_lookup (p c : option (task V)) rb i :
  data (settled p c rb) !! i
  = (λ it, mkItem (slot_view c i (slot_view p i (readWrite it))) (value it))
      <$> (data rb !! i).
Proof. unfold settled. cbn [data set_data]. apply list_lookup_imap. Qed.

Lemma settled_length (p c : option (task V)) rb :
  length (data (settled p c rb)) = length (data rb).
Proof. unfold settled. cbn [data set_data]. apply length_imap. Qed.

Lemma settled_agree (p c p' c' : option (task V)) rb rb' Q :
  Repr (settled p c rb) Q →
  cap rb' = cap rb → capModMask rb' = capModMask rb →
  head rb' = head rb → tail rb' = tail rb →
  length (data rb') = length (data rb) →
  (∀ i it', data rb' !! i = Some it' →
     ∃ it, data rb !! i = Some it
           ∧ slot_view c' i (slot_view p' i (readWrite it'))
             = slot_view c i (slot_view p i (readWrite it))
           ∧ (slot_view c i (slot_view p i (readWrite it)) = 0
              ∨ value it' = value it)) →
  Repr (settled p' c' rb') Q.
Proof.
  intros R Hc Hm Hh Ht Hl Hs.
  apply (Repr_agree (settled p c rb)); [exact R|exact Hc|exact Hm|exact Hh|exact Ht| |].
  - rewrite !settled_length. exact Hl.
  - intros i it' Hi. rewrite settled_lookup in Hi.
    destruct (data rb' !! i) as [x'|] eqn:Hx'; [|discriminate].
    cbn in Hi. inversion Hi; subst it'. clear Hi.
    destruct (Hs i x' Hx') as (x & Hx & E & Hv).
    exists (mkItem (slot_view c i (slot_view p i (readWrite x))) (value x)).
    rewrite settled_lookup, Hx. cbn [fmap option_fmap option_map readWrite value].
    split; [reflexivity|]. split; [exact E|exact Hv].
Qed.


Lemma Repr_push rb rb' Q item :
  Repr rb Q → Z.of_nat (length Q) < cap rb - 1 →
  cap rb' = cap rb → capModMask rb' = capModMask rb →
  head rb' = head rb → tail rb' = (tail rb + 1) mod cap rb →
  length (data rb') = length (data rb) →
  (∀ i it', data rb' !! i = Some it' →
     if decide (i = Z.to_nat (tail rb))
     then readWrite it' = 1 ∧ value it' = item
     else ∃ it, data rb !! i = Some it ∧ readWrite it' = readWrite it
                ∧ (readWrite it = 0 ∨ value it' = value it)) →
  Repr rb' (Q ++ [item]).
Proof.
  intros R Hlen Hc Hm Hh Ht Hl Hs.
  assert (¬ full_at rb) as Hnf.
  { intros Hf. apply (Repr_full_iff _ _ R) in Hf. lia. }
  destruct (Repr_tail_slot _ _ R) as (it0 & Hit0 & Hrw0).
  pose proof (Repr_snapshot _ _ R) as Hsnap.
  pose proof (repr_tail _ _ R) as Htl.
  destruct (Enqueue_Repr 0 rb Q item R Hnf) as (X & EX & RX).
  rewrite (Enqueue_claimed 0 rb item it0 Hnf) in EX;
    [|rewrite Hsnap; exact Hit0|exact Hrw0].
  rewrite Hsnap in EX. cbn [fst snd] in EX.
  rewrite (Repr_next _ _ _ R Htl) in EX.
  unfold CompareAndSwap_tail in EX. rewrite Z.eqb_refl in EX. cbn [snd] in EX.
  inversion EX as [EX']. clear EX. rewrite <- EX' in RX. clear EX' X.
  apply (Repr_agree _ rb' _ RX); cbn [cap capModMask head tail data set_data set_tail].
  - exact Hc.
  - exact Hm.
  - exact Hh.
  - exact Ht.
  - rewrite length_insert. exact Hl.
  - intros i it' Hi. specialize (Hs i it' Hi).
    destruct (decide (i = Z.to_nat (tail rb))) as [->|Hne].
    + exists (mkItem 1 item). rewrite (lookup_insert_slot _ _ _ _ Hit0).
      destruct Hs as [H1 H2]. cbn [readWrite value].
      split; [reflexivity|]. split; [exact H1|right; exact H2].
    + rewrite list_lookup_insert_ne by congruence. exact Hs.
Qed.

Lemma Repr_pop rb rb' v Q :
  Repr rb (v :: Q) →
  cap rb' = cap rb → capModMask rb' = capModMask rb →
  tail rb' = tail rb → head rb' = (head rb + 1) mod cap rb →
  length (data rb') = length (data rb) →
  (∀ i it', data rb' !! i = Some it' →
     if decide (i = Z.to_nat (head rb))
     then readWrite it' = 0
     else ∃ it, data rb !! i = Some it ∧ readWrite it' = readWrite it
                ∧ (readWrite it = 0 ∨ value it' = value it)) →
  Repr rb' Q.
Proof.
  intros R Hc Hm Ht Hh Hl Hs.
  pose proof (Repr_head_slot _ _ _ R) as Hit0.
  pose proof (Repr_snapshot _ _ R) as Hsnap.
  pose proof (repr_head _ _ R) as Hhd.
  assert (¬ empty_at rb) as Hne.
  { intros He. apply (Repr_empty_iff _ _ R) in He. discriminate. }
  destruct (Dequeue_Repr 0 rb v Q R) as (X & EX & RX).
  rewrite (Dequeue_claimed 0 rb (mkItem 1 v) Hne) in EX;
    [|rewrite Hsnap; exact Hit0|reflexivity].
  cbv zeta in EX. rewrite Hsnap in EX. cbn [fst snd] in EX.
  rewrite (Repr_next _ _ _ R Hhd) in EX.
  unfold CompareAndSwap_head in EX. rewrite Z.eqb_refl in EX. cbn [snd] in EX.
  apply (f_equal (λ x, fst (fst x))) in EX. cbn [fst] in EX.
  rewrite <- EX in RX. clear EX X.
  apply (Repr_agree _ rb' _ RX); cbn [cap capModMask head tail data set_data set_head].
  - exact Hc.
  - exact Hm.
  - exact Hh.
  - exact Ht.
  - rewrite length_insert. exact Hl.
  - intros i it' Hi. specialize (Hs i it' Hi).
    destruct (decide (i = Z.to_nat (head rb))) as [->|Hn].
    + exists (mkItem 0 v). rewrite (lookup_insert_slot _ _ _ _ Hit0).
      cbn [readWrite value]. split; [reflexivity|]. split; [exact Hs|left; reflexivity].
    + rewrite list_lookup_insert_ne by congruence. exact Hs.
Qed.


Lemma cur_of_spec k (l : list (task V)) t :
  cur_of k l = Some t →
  is_producer t = k ∧ finished t = false ∧ ∃ j, l !! j = Some t.
Proof.
  induction l as [|t1 l IH]; [discriminate|]. cbn [cur_of].
  destruct (Bool.eqb (is_producer t1) k && negb (finished t1)) eqn:E.
  - intros H. inversion H; subst t1. apply andb_true_iff in E as [E1 E2].
    apply eqb_prop in E1. apply negb_true_iff in E2.
    split; [exact E1|]. split; [exact E2|]. exists 0%nat. reflexivity.
  - intros H. destruct (IH H) as (H1 & H2 & j & Hj).
    split; [exact H1|]. split; [exact H2|]. exists (S j). exact Hj.
Qed.

Lemma slot_view_consumer (c : config V) h r :
  owned c → rw_at (mem c) h ≠ 3 → slot_view (cur_of false (tasks c)) h r = r.
Proof.
  intros Ho Hrw. destruct (cur_of false (tasks c)) as [t|] eqn:E; [|reflexivity].
  destruct (cur_of_spec _ _ _ E) as (Hk & _ & j & Hj).
  destruct t as [item pc|pc]; [discriminate|].
  destruct pc as [|hd tl h'|hd tl h'|it hd tl nh h'| |it hd tl nh h'|it h'
                  |it hd tl nh|out]; cbn [slot_view]; try reflexivity;
    (destruct (decide (h = h')) as [->|]; [|reflexivity]);
    exfalso; apply Hrw; apply (owned_holds_r c j _ h' Ho Hj);
    cbn; now rewrite decide_True.
Qed.

Lemma slot_view_producer (c : config V) h r :
  owned c → rw_at (mem c) h ≠ 2 → slot_view (cur_of true (tasks c)) h r = r.
Proof.
  intros Ho Hrw. destruct (cur_of true (tasks c)) as [t|] eqn:E; [|reflexivity].
  destruct (cur_of_spec _ _ _ E) as (Hk & _ & j & Hj).
  destruct t as [item pc|pc]; [|discriminate].
  destruct pc as [|hd tl nt h'|tl nt h'|tl nt h'| |h'|h'|out];
    cbn [slot_view]; try reflexivity;
    (destruct (decide (h = h')) as [->|]; [|reflexivity]);
    exfalso; apply Hrw; apply (owned_holds_w c j _ h' Ho Hj);
    cbn; now rewrite decide_True.
Qed.

Lemma in_step_fields rb rb' Q (o : option (task V)) :
  head rb' = head rb → tail rb' = tail rb → cap rb' = cap rb →
  in_step rb Q o → in_step rb' Q o.
Proof.
  intros Hh Ht Hc. unfold in_step. rewrite Hh, Ht, Hc. auto.
Qed.

(** What the consumer knows stays true when the producer appends. *)
Lemma in_step_consumer rb rb' Q l (o : option (task V)) :
  (∀ t, o = Some t → is_producer t = false) →
  head rb' = head rb → cap rb' = cap rb →
  in_step rb Q o → in_step rb' (Q ++ l) o.
Proof.
  intros Hk Hh Hc. destruct o as [[item pc|pc]|]; [|
    |intros; exact I].
  { specialize (Hk _ eq_refl). discriminate. }
  destruct pc as [|hd tl h|hd tl h|it hd tl nh h| |it hd tl nh h|it h
                  |it hd tl nh|out]; cbn [in_step]; rewrite ?Hh, ?Hc; try (intros; exact I).
  - intros (H1 & H2 & H3). split; [exact H1|]. split; [exact H2|].
    destruct Q; [congruence|discriminate].
  - intros (H1 & H2 & H3). split; [exact H1|]. split; [exact H2|].
    destruct Q; [congruence|discriminate].
  - intros (H1 & H2 & H3 & Q' & ->). split; [exact H1|]. split; [exact H2|].
    split; [exact H3|]. exists (Q' ++ l). reflexivity.
  - auto.
Qed.

(** What the producer knows stays true when the consumer takes the first
    payload, provided one is left for a producer that has moved [tail]. *)
Lemma in_step_producer rb rb' v Q (o : option (task V)) :
  (∀ t, o = Some t → is_producer t = true) →
  tail rb' = tail rb → cap rb' = cap rb →
  ((∃ item h, o = Some (TEnqueue item (E_release h))) → Q ≠ []) →
  in_step rb (v :: Q) o → in_step rb' Q o.
Proof.
  intros Hk Ht Hc Hl. destruct o as [[item pc|pc]|]; [|
    specialize (Hk _ eq_refl); discriminate|intros; exact I].
  destruct pc as [|hd tl nt h|tl nt h|tl nt h| |h|h|out];
    cbn [in_step]; rewrite ?Ht, ?Hc; try (intros; exact I).
  - intros (H1 & H2 & H3 & H4). cbn [length] in H4. repeat (split; [assumption|]). lia.
  - intros (H1 & H2 & H3 & H4). cbn [length] in H4. repeat (split; [assumption|]). lia.
  - intros (H1 & H2 & H3 & H4). cbn [length] in H4. repeat (split; [assumption|]). lia.
  - auto.
  - intros (H1 & _). split; [exact H1|]. apply Hl. eauto.
Qed.

Lemma settled_facts (p c : option (task V)) rb Q :
  Repr (settled p c rb) Q →
  snapshot rb = (head rb, tail rb)
  ∧ (full_at rb ↔ Z.of_nat (length Q) = cap rb - 1)
  ∧ (empty_at rb ↔ Q = [])
  ∧ 0 ≤ head rb < cap rb ∧ 0 ≤ tail rb < cap rb ∧ 1 ≤ cap rb ≤ 2 ^ 31
  ∧ (∀ x, 0 ≤ x < cap rb → Z.land (u32 (x + 1)) (capModMask rb) = (x + 1) mod cap rb)
  ∧ Z.of_nat (length Q) = (tail rb - head rb) mod cap rb
  ∧ Z.of_nat (length Q) ≤ cap rb - 1
  ∧ Z.of_nat (length (data rb)) = cap rb.
Proof.
  intros R.
  split; [exact (Repr_snapshot _ _ R)|].
  split; [exact (Repr_full_iff _ _ R)|].
  split; [exact (Repr_empty_iff _ _ R)|].
  split; [exact (repr_head _ _ R)|].
  split; [exact (repr_tail _ _ R)|].
  split; [exact (Repr_cap_bounds _ _ R)|].
  split; [intros x Hx; exact (Repr_next _ _ x R Hx)|].
  split; [exact (repr_qlen _ _ R)|].
  split; [exact (Repr_length_le _ _ R)|].
  rewrite <- (settled_length p c rb). exact (repr_len _ _ R).
Qed.


(** The slot under [tail] is out of the consumer's reach while there is
    room. *)
Lemma tail_free rb Q (co : option (task V)) r :
  (∀ t, co = Some t → is_producer t = false) →
  in_step rb Q co →
  Z.of_nat (length Q) < cap rb - 1 →
  0 ≤ head rb < cap rb → 0 ≤ tail rb < cap rb →
  Z.of_nat (length Q) = (tail rb - head rb) mod cap rb →
  slot_view co (Z.to_nat (tail rb)) r = 0 → r = 0.
Proof.
  intros Hk Ic Hlen Hh Ht Hq.
  destruct co as [[item pc|pc]|]; [specialize (Hk _ eq_refl); discriminate
                                   | |intros E; exact E].
  destruct pc as [|hd tl h|hd tl h|it hd tl nh h| |it hd tl nh h|it h
                  |it hd tl nh|out]; cbn [slot_view]; try (intros E; exact E).
  - destruct (decide (Z.to_nat (tail rb) = h)); [discriminate|auto].
  - destruct (decide (Z.to_nat (tail rb) = h)); [discriminate|auto].
  - destruct (decide (Z.to_nat (tail rb) = h)) as [E|]; [|auto].
    exfalso. cbn [in_step] in Ic. rewrite Ic in E.
    assert (0 ≤ (head rb - 1) mod cap rb < cap rb) as Hb
      by (apply Z.mod_pos_bound; lia).
    assert ((head rb - 1) mod cap rb = tail rb) as E' by lia.
    rewrite mod_sub_cases in Hq by lia.
    destruct (Z.eq_dec (head rb) 0) as [E0|E0].
    + rewrite E0 in E'. rewrite mod_sub_cases in E' by lia.
      destruct (Z.ltb_spec 0 1); [|lia].
      destruct (Z.ltb_spec (tail rb) (head rb)); lia.
    + rewrite Z.mod_small in E' by lia.
      destruct (Z.ltb_spec (tail rb) (head rb)); lia.
Qed.

(** A step of the producer's call. *)
Lemma producer_step item pc rb (co : option (task V)) Q :
  Repr (settled (Some (TEnqueue item pc)) co rb) Q →
  in_step rb Q (Some (TEnqueue item pc)) →
  in_step rb Q co →
  (∀ t, co = Some t → is_producer t = false) →
  (∀ k, holds_w k (TEnqueue item pc) = 1%nat → rw_at rb k = 2) →
  (∀ h r, rw_at rb h = 2 → slot_view co h r = r) →
  carries rb (TEnqueue item pc) →
  raced_task (TEnqueue item pc) = false →
  ∃ Q',
    Repr (settled (Some (TEnqueue item (fst (step_enq item pc rb)))) co
                  (snd (step_enq item pc rb))) Q'
    ∧ in_step (snd (step_enq item pc rb)) Q'
              (Some (TEnqueue item (fst (step_enq item pc rb))))
    ∧ in_step (snd (step_enq item pc rb)) Q' co
    ∧ ((put_done (TEnqueue item (fst (step_enq item pc rb)))
        = put_done (TEnqueue item pc) ∧ Q' = Q)
       ∨ (put_done (TEnqueue item pc) = []
          ∧ Q' = Q ++ put_done (TEnqueue item (fst (step_enq item pc rb))))).
Proof.
  intros R Ip Ic Hk Hw Hco Hca Hra.
  destruct (settled_facts _ _ _ _ R)
    as (Hsnap & Hfull & Hempty & Hh & Ht & Hcb & Hnext & Hqlen & Hqle & Hdl).
  destruct pc as [|hd tl nt h|tl nt h|tl nt h| |h|h|out].
  - (* E_load *)
    rewrite step_enq_load. cbv zeta. rewrite Hsnap. cbn [fst snd].
    rewrite (Hnext _ Ht).
    destruct (Z.eqb_spec ((tail rb + 1) mod cap rb) (head rb)) as [E|E].
    + exists Q. cbn [fst snd]. split; [exact R|]. split; [exact I|].
      split; [exact Ic|]. left. split; reflexivity.
    + destruct (data rb !! Z.to_nat (tail rb)) as [it|]; cbn [fst snd].
      * exists Q. split; [exact R|]. split; [|split; [exact Ic|left; split; reflexivity]].
        cbn [in_step]. split; [reflexivity|]. split; [reflexivity|].
        split; [reflexivity|].
        assert (¬ full_at rb) as Hnf.
        { unfold full_at. rewrite Hsnap. cbn [fst snd]. rewrite (Hnext _ Ht). exact E. }
        destruct (Z.eq_dec (Z.of_nat (length Q)) (cap rb - 1)) as [E'|E']; [|lia].
        exfalso. apply Hnf, Hfull, E'.
      * exists Q. split; [exact R|]. split; [exact I|].
        split; [exact Ic|left; split; reflexivity].
  - (* E_claim: the slot under [tail] is writable *)
    cbn [step_enq].
    assert (∃ it, data rb !! h = Some it ∧ readWrite it = 0) as (it & Hit & E).
    { pose proof Ip as (_ & -> & _ & Hlen).
      destruct (Repr_tail_slot _ _ R) as (it0 & Hit0 & Hrw0).
      change (tail (settled _ _ rb)) with (tail rb) in Hit0.
      rewrite settled_lookup in Hit0.
      destruct (data rb !! Z.to_nat (tail rb)) as [x|]; [|discriminate].
      cbn in Hit0. inversion Hit0 as [Ex]. rewrite <- Ex in Hrw0.
      cbn [readWrite slot_view] in Hrw0.
      exists x. split; [reflexivity|].
      exact (tail_free rb Q co _ Hk Ic Hlen Hh Ht Hqlen Hrw0). }
    rewrite (CAS_rw_hit _ _ _ _ _ Hit E). cbn [fst snd].
    exists Q. split; [|split; [|split; [|left; split; reflexivity]]].
    + apply (settled_agree _ _ _ _ _ _ _ R); try reflexivity.
      { cbn [data set_data]. apply length_insert. }
      intros i it' Hi. cbn [data set_data] in Hi.
      destruct (decide (i = h)) as [->|Hne].
      * rewrite (lookup_insert_slot _ _ _ _ Hit) in Hi. inversion Hi; subst it'.
        exists it. split; [exact Hit|]. cbn [slot_view readWrite value].
        rewrite decide_True by reflexivity. rewrite E. auto.
      * rewrite list_lookup_insert_ne in Hi by congruence.
        exists it'. split; [exact Hi|]. cbn [slot_view].
        rewrite decide_False by exact Hne. auto.
    + exact Ip.
    + exact Ic.
  - (* E_store *)
    cbn [step_enq fst snd].
    assert (rw_at rb h = 2) as Hrw.
    { apply Hw. cbn. now rewrite decide_True. }
    destruct (rw_at_lookup rb h) as (it & Hit & Eit); [lia|].
    unfold store_value. rewrite Hit.
    exists Q. split; [|split; [|split; [|left; split; reflexivity]]].
    + apply (settled_agree _ _ _ _ _ _ _ R); try reflexivity.
      { cbn [data set_data]. apply length_insert. }
      intros i it' Hi. cbn [data set_data] in Hi.
      destruct (decide (i = h)) as [->|Hne].
      * rewrite (lookup_insert_slot _ _ _ _ Hit) in Hi. inversion Hi; subst it'.
        exists it. split; [exact Hit|]. cbn [slot_view readWrite value].
        rewrite decide_True by reflexivity. split; [reflexivity|].
        left. apply Hco. exact Hrw.
      * rewrite list_lookup_insert_ne in Hi by congruence.
        exists it'. split; [exact Hi|]. cbn [slot_view].
        rewrite decide_False by exact Hne. auto.
    + exact Ip.
    + exact Ic.
  - (* E_advance *)
    cbn [step_enq]. cbn [in_step] in Ip. destruct Ip as (-> & -> & -> & Hlen).
    assert (rw_at rb (Z.to_nat (tail rb)) = 2) as Hrw.
    { apply Hw. cbn. now rewrite decide_True. }
    destruct (rw_at_lookup rb (Z.to_nat (tail rb))) as (it & Hit & Eit); [lia|].
    cbn [carries] in Hca. unfold value_at in Hca. rewrite Hit in Hca.
    unfold CompareAndSwap_tail. rewrite Z.eqb_refl. cbn [fst snd].
    exists (Q ++ [item]).
    split; [|split; [|split; [|right; split; reflexivity]]].
    + apply (Repr_push _ _ _ _ R); try reflexivity.
      { exact Hlen. }
      { rewrite !settled_length. reflexivity. }
      intros i it' Hi. rewrite settled_lookup in Hi. cbn [data set_tail] in Hi.
      change (tail (settled _ _ rb)) with (tail rb).
      destruct (data rb !! i) as [x|] eqn:Hx; [|discriminate].
      cbn in Hi. inversion Hi; subst it'. clear Hi. cbn [readWrite value].
      destruct (decide (i = Z.to_nat (tail rb))) as [->|Hne].
      * rewrite Hit in Hx. inversion Hx; subst x. cbn [slot_view].
        rewrite ?decide_True by reflexivity. split; [|exact Hca].
        apply Hco. exact Hrw.
      * exists (mkItem (slot_view co i (slot_view
                   (Some (TEnqueue item (E_advance (tail rb) ((tail rb + 1) mod cap rb)
                                                   (Z.to_nat (tail rb))))) i (readWrite x)))
                       (value x)).
        rewrite settled_lookup, Hx. cbn [fmap option_fmap option_map readWrite value slot_view].
        rewrite !decide_False by exact Hne. auto.
    + cbn [in_step tail cap set_tail]. split; [|now destruct Q].
      f_equal. rewrite mod_succ_cases by lia.
      destruct (Z.eqb_spec (tail rb + 1) (cap rb)).
      * rewrite mod_sub_cases by lia. destruct (Z.ltb_spec 0 1); lia.
      * rewrite Z.mod_small by lia. lia.
    + apply (in_step_consumer rb); [exact Hk|reflexivity|reflexivity|exact Ic].
  - (* E_wait *) destruct Ip.
  - (* E_release *)
    cbn [step_enq].
    assert (rw_at rb h = 2) as Hrw.
    { apply Hw. cbn. now rewrite decide_True. }
    destruct (rw_at_lookup rb h) as (it & Hit & Eit); [lia|].
    rewrite Hrw in Eit. rewrite (CAS_rw_hit _ _ _ _ _ Hit Eit). cbn [negb fst snd].
    exists Q. split; [|split; [exact I|split; [|left; split; reflexivity]]].
    + apply (settled_agree _ _ _ _ _ _ _ R); try reflexivity.
      { cbn [data set_data]. apply length_insert. }
      intros i it' Hi. cbn [data set_data] in Hi.
      destruct (decide (i = h)) as [->|Hne].
      * rewrite (lookup_insert_slot _ _ _ _ Hit) in Hi. inversion Hi; subst it'.
        exists it. split; [exact Hit|]. cbn [slot_view readWrite value].
        rewrite decide_True by reflexivity. auto.
      * rewrite list_lookup_insert_ne in Hi by congruence.
        exists it'. split; [exact Hi|]. cbn [slot_view].
        rewrite decide_False by exact Hne. auto.
    + apply (in_step_fields rb); [reflexivity|reflexivity|reflexivity|exact Ic].
  - (* E_errorf *) discriminate.
  - (* E_end *)
    cbn [step_enq fst snd]. exists Q. split; [exact R|]. split; [exact I|].
    split; [exact Ic|left; split; reflexivity].
Qed.


(** A step of the consumer's call. *)
Lemma consumer_step pc rb (po : option (task V)) Q :
  Repr (settled po (Some (TDequeue pc)) rb) Q →
  in_step rb Q (Some (TDequeue pc)) →
  in_step rb Q po →
  (∀ t, po = Some t → is_producer t = true) →
  (∀ k, holds_r k (TDequeue pc) = 1%nat → rw_at rb k = 3) →
  (∀ h r, rw_at rb h ≠ 2 → slot_view po h r = r) →
  (∀ item h, po = Some (TEnqueue item (E_release h)) → rw_at rb h = 2) →
  raced_task (TDequeue pc) = false →
  ∃ Q',
    Repr (settled po (Some (TDequeue (fst (fst (step_deq pc rb)))))
                  (snd (fst (step_deq pc rb)))) Q'
    ∧ in_step (snd (fst (step_deq pc rb))) Q'
              (Some (TDequeue (fst (fst (step_deq pc rb)))))
    ∧ in_step (snd (fst (step_deq pc rb))) Q' po
    ∧ ((got_done (TDequeue (fst (fst (step_deq pc rb)))) = got_done (TDequeue pc)
        ∧ Q' = Q)
       ∨ (got_done (TDequeue pc) = []
          ∧ Q = got_done (TDequeue (fst (fst (step_deq pc rb)))) ++ Q')).
Proof.
  intros R Ic Ip Hk Hr Hpo Hrel Hra.
  destruct (settled_facts _ _ _ _ R)
    as (Hsnap & Hfull & Hempty & Hh & Ht & Hcb & Hnext & Hqlen & Hqle & Hdl).
  destruct pc as [|hd tl h|hd tl h|item hd tl nh h| |item hd tl nh h|item h
                  |item hd tl nh|out].
  - (* D_load *)
    rewrite step_deq_load. cbv zeta. rewrite Hsnap. cbn [fst snd].
    destruct (Z.eqb_spec (head rb) (tail rb)) as [E|E].
    + exists Q. cbn [fst snd]. split; [exact R|]. split; [exact I|].
      split; [exact Ip|]. left. split; reflexivity.
    + destruct (data rb !! Z.to_nat (head rb)) as [it|]; cbn [fst snd].
      * exists Q. split; [exact R|]. split; [|split; [exact Ip|left; split; reflexivity]].
        cbn [in_step]. split; [reflexivity|]. split; [reflexivity|].
        intros ->. apply E.
        assert (empty_at rb) as He by (apply Hempty; reflexivity).
        unfold empty_at in He. rewrite Hsnap in He. exact He.
      * exists Q. split; [exact R|]. split; [exact I|].
        split; [exact Ip|left; split; reflexivity].
  - (* D_claim *)
    cbn [step_deq]. destruct (data rb !! h) as [it|] eqn:Hit.
    + destruct (Z.eq_dec (readWrite it) 1) as [E|E].
      * rewrite (CAS_rw_hit _ _ _ _ _ Hit E). cbn [fst snd].
        exists Q. split; [|split; [|split; [|left; split; reflexivity]]].
        -- apply (settled_agree _ _ _ _ _ _ _ R); try reflexivity.
           { cbn [data set_data]. apply length_insert. }
           intros i it' Hi. cbn [data set_data] in Hi.
           destruct (decide (i = h)) as [->|Hne].
           ++ rewrite (lookup_insert_slot _ _ _ _ Hit) in Hi. inversion Hi; subst it'.
              exists it. split; [exact Hit|]. cbn [slot_view readWrite value].
              rewrite decide_True by reflexivity. rewrite E.
              rewrite (Hpo h 1); [auto|].
              unfold rw_at. rewrite Hit. lia.
           ++ rewrite list_lookup_insert_ne in Hi by congruence.
              exists it'. split; [exact Hi|]. cbn [slot_view].
              rewrite decide_False by exact Hne. auto.
        -- exact Ic.
        -- apply (in_step_fields rb); [reflexivity|reflexivity|reflexivity|exact Ip].
      * rewrite (CAS_rw_miss _ _ _ _ _ Hit E). cbn [fst snd].
        exists Q. split; [exact R|]. split; [exact I|].
        split; [exact Ip|left; split; reflexivity].
    + unfold CompareAndSwap_readWrite. rewrite Hit. cbn [fst snd].
      exists Q. split; [exact R|]. split; [exact I|].
      split; [exact Ip|left; split; reflexivity].
  - (* D_read *)
    cbn [step_deq fst snd]. cbn [in_step] in Ic. destruct Ic as (-> & -> & Hne).
    exists Q. split; [exact R|]. split; [|split; [exact Ip|left; split; reflexivity]].
    cbn [in_step]. split; [reflexivity|]. split; [reflexivity|].
    split; [exact (Hnext _ Hh)|].
    destruct Q as [|v Q']; [congruence|]. exists Q'. f_equal.
    pose proof (Repr_head_slot _ _ _ R) as Hs.
    change (head (settled _ _ rb)) with (head rb) in Hs.
    rewrite settled_lookup in Hs. unfold value_at.
    destruct (data rb !! Z.to_nat (head rb)) as [x|]; [|discriminate].
    cbn in Hs. inversion Hs. reflexivity.
  - (* D_advance *)
    cbn [step_deq]. cbn [in_step] in Ic. destruct Ic as (-> & -> & -> & Q' & ->).
    assert (rw_at rb (Z.to_nat (head rb)) = 3) as Hrw.
    { apply Hr. cbn. now rewrite decide_True. }
    unfold CompareAndSwap_head. rewrite Z.eqb_refl. cbn [fst snd].
    exists Q'.
    split; [|split; [|split; [|right; split; reflexivity]]].
    2:{ cbn [length] in Hqle.
        cbn [in_step head cap set_head]. f_equal. rewrite mod_succ_cases by lia.
        destruct (Z.eqb_spec (head rb + 1) (cap rb)).
        - rewrite mod_sub_cases by lia. destruct (Z.ltb_spec 0 1); lia.
        - rewrite Z.mod_small by lia. lia. }
    + apply (Repr_pop _ _ _ _ R); try reflexivity.
      { rewrite !settled_length. reflexivity. }
      intros i it' Hi. rewrite settled_lookup in Hi. cbn [data set_head] in Hi.
      change (head (settled _ _ rb)) with (head rb).
      destruct (data rb !! i) as [x|] eqn:Hx; [|discriminate].
      cbn in Hi. inversion Hi; subst it'. clear Hi. cbn [readWrite value].
      destruct (decide (i = Z.to_nat (head rb))) as [->|Hne].
      * cbn [slot_view]. rewrite ?decide_True by reflexivity. reflexivity.
      * exists (mkItem (slot_view
                   (Some (TDequeue (D_advance item (head rb) tl
                                     ((head rb + 1) mod cap rb) (Z.to_nat (head rb)))))
                   i (slot_view po i (readWrite x)))
                       (value x)).
        rewrite settled_lookup, Hx. cbn [fmap option_fmap option_map readWrite value slot_view].
        rewrite !decide_False by exact Hne. auto.
    + apply (in_step_producer rb _ item); [exact Hk|reflexivity|reflexivity| |exact Ip].
      intros (it & h & ->). intros ->.
      pose proof (Hrel _ _ eq_refl) as H2. cbn [in_step] in Ip. destruct Ip as [Eh _].
      cbn [length] in Hqlen.
      assert ((tail rb - 1) mod cap rb = head rb) as E.
      { rewrite mod_sub_cases in Hqlen by lia.
        destruct (Z.ltb_spec (tail rb) (head rb)).
        - assert (tail rb = 0) as -> by lia.
          rewrite mod_sub_cases by lia. destruct (Z.ltb_spec 0 1); lia.
        - rewrite Z.mod_small by lia. lia. }
      rewrite E in Eh. subst h. lia.
  - (* D_wait *)
    cbn [step_deq fst snd]. exists Q.
    split; [|split; [exact I|split; [|left; split; reflexivity]]].
    + apply (settled_agree _ _ _ _ _ _ _ R); try reflexivity.
      intros i it' Hi. exists it'. split; [exact Hi|]. auto.
    + apply (in_step_fields rb); [reflexivity|reflexivity|reflexivity|exact Ip].
  - (* D_release *)
    cbn [step_deq].
    assert (rw_at rb h = 3) as Hrw.
    { apply Hr. cbn. now rewrite decide_True. }
    destruct (rw_at_lookup rb h) as (it & Hit & Eit); [lia|].
    rewrite Hrw in Eit. rewrite (CAS_rw_hit _ _ _ _ _ Hit Eit). cbn [negb fst snd].
    exists Q. split; [|split; [exact I|split; [|left; split; reflexivity]]].
    + apply (settled_agree _ _ _ _ _ _ _ R); try reflexivity.
      { cbn [data set_data]. apply length_insert. }
      intros i it' Hi. cbn [data set_data] in Hi.
      destruct (decide (i = h)) as [->|Hne].
      * rewrite (lookup_insert_slot _ _ _ _ Hit) in Hi. inversion Hi; subst it'.
        exists it. split; [exact Hit|]. cbn [slot_view readWrite value].
        rewrite decide_True by reflexivity.
        rewrite (Hpo h 0) by lia. auto.
      * rewrite list_lookup_insert_ne in Hi by congruence.
        exists it'. split; [exact Hi|]. cbn [slot_view].
        rewrite decide_False by exact Hne. auto.
    + apply (in_step_fields rb); [reflexivity|reflexivity|reflexivity|exact Ip].
  - (* D_errorf *) discriminate.
  - (* D_check *)
    cbn [step_deq]. exists Q.
    destruct item as [v|]; cbn [check_nil fst snd];
      (split; [exact R|]); (split; [exact I|]);
      (split; [exact Ip|left; split; reflexivity]).
  - (* D_end *)
    cbn [step_deq fst snd]. exists Q. split; [exact R|]. split; [exact I|].
    split; [exact Ip|left; split; reflexivity].
Qed.


Lemma fresh_done (z : task V) : fresh z = true → put_done z = [] ∧ got_done z = [].
Proof.
  destruct z as [item pc|pc]; destruct pc; cbn; try discriminate; auto.
Qed.

Lemma put_done_consumer (z : task V) : is_producer z = false → put_done z = [].
Proof. destruct z; [discriminate|reflexivity]. Qed.

Lemma got_done_producer (z : task V) : is_producer z = true → got_done z = [].
Proof. destruct z; [reflexivity|discriminate]. Qed.

Lemma settled_rest (p p' c c' : option (task V)) rb Q :
  (∀ i r, slot_view p' i r = slot_view p i r) →
  (∀ i r, slot_view c' i r = slot_view c i r) →
  Repr (settled p c rb) Q → Repr (settled p' c' rb) Q.
Proof.
  intros Hp Hc R. apply (settled_agree _ _ _ _ _ _ _ R); try reflexivity.
  intros i it Hi. exists it. split; [exact Hi|]. rewrite Hc, Hp. auto.
Qed.

Lemma finished_rest (t : task V) : finished t = true → at_rest (Some t).
Proof. intros H. cbn. rewrite H. apply orb_true_r. Qed.

(** Every step of a ready task keeps the invariant. *)
Lemma sched_step_spsc init q0 (c : config V) i :
  conserved init c → spsc q0 c → ready c i = true → spsc q0 (sched_step c i).
Proof.
  intros (Ho & Hca & _) (Q & Op & Oc & R & Ip & Ic & Eq) Hr.
  unfold sched_step. destruct (tasks c !! i) as [t|] eqn:Hl.
  2:{ exists Q. repeat (split; [assumption|]). assumption. }
  pose proof (ready_earlier c i t Hr Hl) as Hbefore.
  pose proof Ho as (_ & _ & Hnr).
  pose proof (Forall_lookup_1 _ _ _ _ Hnr Hl) as Hrt. cbv beta in Hrt.
  pose proof (Forall_lookup_1 _ _ _ _ Hca Hl) as Hct.
  destruct (finished t) eqn:Hf.
  { (* a call that has ended stays as it is *)
    destruct t as [item pc|pc]; destruct pc; try discriminate;
      cbn [step_enq step_deq mem tasks]; rewrite list_insert_id by exact Hl;
      exists Q; repeat (split; [assumption|]); assumption. }
  destruct t as [item pc|pc].
  - (* the producer *)
    destruct (cur_of_current true (tasks c) i _ Op Hl eq_refl Hf)
      as (Hcur & Hafter & Hins).
    { intros j t0 Hj Hl0 Hk0. apply (Hbefore j t0 Hj Hl0). exact Hk0. }
    rewrite Hcur in R, Ip.
    destruct (producer_step item pc (mem c) (cur_of false (tasks c)) Q R Ip Ic)
      as (Q' & R' & Ip' & Ic' & Hq).
    { intros t0 E. apply (cur_of_spec _ _ _ E). }
    { intros k Hk. exact (owned_holds_w c i _ k Ho Hl Hk). }
    { intros h r Hrw. apply slot_view_consumer; [exact Ho|lia]. }
    { exact Hct. }
    { exact Hrt. }
    destruct (step_enq item pc (mem c)) as [pc' rb']. cbn [fst snd mem tasks] in *.
    destruct (Hins (TEnqueue item pc') eq_refl) as (Op' & Hcur1 & Hcur2).
    destruct (cur_of_other false (tasks c) i _ (TEnqueue item pc') Hl eq_refl eq_refl)
      as (Hco' & Oc').
    exists Q'. cbn [mem tasks]. rewrite Hco'.
    split; [exact Op'|]. split; [exact (Oc' Oc)|].
    assert (Repr (settled (cur_of true (<[i := TEnqueue item pc']> (tasks c)))
                          (cur_of false (tasks c)) rb') Q'
            ∧ in_step rb' Q' (cur_of true (<[i := TEnqueue item pc']> (tasks c))))
      as [R'' Ip''].
    { destruct (finished (TEnqueue item pc')) eqn:Hf'.
      - specialize (Hcur2 eq_refl). split; [|now apply in_step_rest].
        refine (settled_rest _ _ _ _ _ _ _ _ R'); [|intros; reflexivity].
        intros j r. rewrite (slot_view_rest _ j r Hcur2).
        rewrite (slot_view_rest _ j r (finished_rest _ Hf')). reflexivity.
      - rewrite (Hcur1 eq_refl). split; assumption. }
    split; [exact R''|]. split; [exact Ip''|]. split; [exact Ic'|].
    rewrite (flat_map_insert_same got_done _ i _ (TEnqueue item pc') Hl eq_refl).
    destruct Hq as [[E1 ->]|[E1 ->]].
    + rewrite (flat_map_insert_same put_done _ i _ (TEnqueue item pc') Hl E1). exact Eq.
    + rewrite (flat_map_insert_last put_done _ i _ (TEnqueue item pc') Hl E1).
      * rewrite !app_assoc. rewrite Eq. reflexivity.
      * intros j z Hj Hz. destruct (is_producer z) eqn:Hkz.
        -- apply fresh_done. exact (Hafter j z Hj Hz Hkz).
        -- now apply put_done_consumer.
  - (* the consumer *)
    destruct (cur_of_current false (tasks c) i _ Oc Hl eq_refl Hf)
      as (Hcur & Hafter & Hins).
    { intros j t0 Hj Hl0 Hk0. apply (Hbefore j t0 Hj Hl0). exact Hk0. }
    rewrite Hcur in R, Ic.
    destruct (consumer_step pc (mem c) (cur_of true (tasks c)) Q R Ic Ip)
      as (Q' & R' & Ic' & Ip' & Hq).
    { intros t0 E. apply (cur_of_spec _ _ _ E). }
    { intros k Hk. exact (owned_holds_r c i _ k Ho Hl Hk). }
    { intros h r Hrw. apply slot_view_producer; [exact Ho|exact Hrw]. }
    { intros it h E. destruct (cur_of_spec _ _ _ E) as (_ & _ & j & Hj).
      apply (owned_holds_w c j _ h Ho Hj). cbn. now rewrite decide_True. }
    { exact Hrt. }
    destruct (step_deq pc (mem c)) as [[pc' rb'] lg]. cbn [fst snd mem tasks] in *.
    destruct (Hins (TDequeue pc') eq_refl) as (Oc' & Hcur1 & Hcur2).
    destruct (cur_of_other true (tasks c) i _ (TDequeue pc') Hl eq_refl eq_refl)
      as (Hpo' & Op').
    exists Q'. cbn [mem tasks]. rewrite Hpo'.
    split; [exact (Op' Op)|]. split; [exact Oc'|].
    assert (Repr (settled (cur_of true (tasks c))
                          (cur_of false (<[i := TDequeue pc']> (tasks c))) rb') Q'
            ∧ in_step rb' Q' (cur_of false (<[i := TDequeue pc']> (tasks c))))
      as [R'' Ic''].
    { destruct (finished (TDequeue pc')) eqn:Hf'.
      - specialize (Hcur2 eq_refl). split; [|now apply in_step_rest].
        refine (settled_rest _ _ _ _ _ _ _ _ R'); [intros; reflexivity|].
        intros j r. rewrite (slot_view_rest _ j r Hcur2).
        rewrite (slot_view_rest _ j r (finished_rest _ Hf')). reflexivity.
      - rewrite (Hcur1 eq_refl). split; assumption. }
    split; [exact R''|]. split; [exact Ip'|]. split; [exact Ic''|].
    rewrite (flat_map_insert_same put_done _ i _ (TDequeue pc') Hl eq_refl).
    destruct Hq as [[E1 ->]|[E1 E2]].
    + rewrite (flat_map_insert_same got_done _ i _ (TDequeue pc') Hl E1). exact Eq.
    + rewrite (flat_map_insert_last got_done _ i _ (TDequeue pc') Hl E1).
      * rewrite Eq, E2. rewrite <- !app_assoc. reflexivity.
      * intros j z Hj Hz. destruct (is_producer z) eqn:Hkz.
        -- now apply got_done_producer.
        -- apply fresh_done. exact (Hafter j z Hj Hz Hkz).
Qed.

Lemma run_spsc init q0 sched : ∀ c : config V,
  conserved init c → spsc q0 c → respects sched c = true → spsc q0 (run sched c).
Proof.
  induction sched as [|i sched IH]; intros c Hc Hs Hr; [exact Hs|].
  cbn [respects] in Hr. apply andb_true_iff in Hr as [Hr1 Hr2].
  cbn. apply IH.
  - now apply sched_step_conserved.
  - exact (sched_step_spsc init q0 c i Hc Hs Hr1).
  - exact Hr2.
Qed.


Lemma start_fresh (cs : list (call V)) k :
  Forall (λ t', is_producer t' = k → fresh t' = true) (map start cs).
Proof.
  induction cs as [|c cs IH]; constructor; [|exact IH].
  intros _. now destruct c.
Qed.

Lemma spawn_spsc rb q cs : Repr rb q → spsc q (spawn rb cs).
Proof.
  intros R. exists q. unfold spawn. cbn [mem tasks].
  destruct (all_fresh_rest true _ (start_fresh cs true)) as [Rp Op].
  destruct (all_fresh_rest false _ (start_fresh cs false)) as [Rc Oc].
  split; [exact Op|]. split; [exact Oc|].
  split; [|split; [now apply in_step_rest|split; [now apply in_step_rest|]]].
  - apply (Repr_agree rb _ _ R); [reflexivity|reflexivity|reflexivity|reflexivity
                                  |apply settled_length|].
    intros i it' Hi. rewrite settled_lookup in Hi.
    destruct (data rb !! i) as [x|]; [|discriminate].
    cbn in Hi. inversion Hi; subst it'. exists x. split; [reflexivity|].
    cbn [readWrite value]. rewrite !slot_view_rest by assumption. auto.
  - assert (flat_map put_done (map start cs) = []
            ∧ flat_map got_done (map start cs) = []) as [-> ->].
    { clear. induction cs as [|c cs [IH1 IH2]]; [split; reflexivity|].
      cbn [map flat_map]. rewrite IH1, IH2. destruct c; split; reflexivity. }
    now rewrite app_nil_r.
Qed.

(** The payloads of the calls that have moved [tail] are those of the
    calls that have returned and, at the end, that of a producer about
    to release its slot; likewise for [head]. *)
Lemma put_done_enqueued (l : list (task V)) :
  ordered true l →
  flat_map put_done l = flat_map enqueued l
  ∨ ∃ item h, cur_of true l = Some (TEnqueue item (E_release h))
              ∧ flat_map put_done l = flat_map enqueued l ++ [item].
Proof.
  induction l as [|t l IH]; intros Ho; [left; reflexivity|].
  cbn [ordered cur_of flat_map] in *.
  destruct (Bool.eqb (is_producer t) true && negb (finished t)) eqn:E.
  - apply andb_true_iff in E as [E1 E2]. apply eqb_prop in E1.
    apply negb_true_iff in E2.
    assert (flat_map put_done l = [] ∧ flat_map enqueued l = []) as [-> ->].
    { clear -Ho. induction l as [|z l IH]; [split; reflexivity|].
      inversion Ho as [|? ? Hz Hl]; subst. cbn [flat_map].
      destruct (IH Hl) as [-> ->]. rewrite !app_nil_r.
      destruct z as [it pc|pc]; [|split; reflexivity].
      specialize (Hz eq_refl). destruct pc; try discriminate. split; reflexivity. }
    rewrite !app_nil_r. destruct t as [item pc|pc]; [|discriminate].
    destruct pc; try discriminate; try (left; reflexivity).
    right. eauto.
  - assert (put_done t = enqueued t) as ->.
    { destruct t as [item pc|pc]; [|reflexivity].
      destruct pc; try discriminate; reflexivity. }
    destruct (IH Ho) as [->|(item & h & Hc & ->)]; [left; reflexivity|].
    right. exists item, h. split; [exact Hc|]. now rewrite app_assoc.
Qed.

Lemma got_done_taken (l : list (task V)) :
  ordered false l →
  flat_map got_done l = flat_map taken l
  ∨ ∃ item hd tl nh h,
      cur_of false l = Some (TDequeue (D_release item hd tl nh h))
      ∧ flat_map got_done l = flat_map taken l ++ [item].
Proof.
  induction l as [|t l IH]; intros Ho; [left; reflexivity|].
  cbn [ordered cur_of flat_map] in *.
  destruct (Bool.eqb (is_producer t) false && negb (finished t)) eqn:E.
  - apply andb_true_iff in E as [E1 E2]. apply eqb_prop in E1.
    apply negb_true_iff in E2.
    assert (flat_map got_done l = [] ∧ flat_map taken l = []) as [-> ->].
    { clear -Ho. induction l as [|z l IH]; [split; reflexivity|].
      inversion Ho as [|? ? Hz Hl]; subst. cbn [flat_map].
      destruct (IH Hl) as [-> ->]. rewrite !app_nil_r.
      destruct z as [it pc|pc]; [split; reflexivity|].
      specialize (Hz eq_refl). destruct pc; try discriminate. split; reflexivity. }
    rewrite !app_nil_r. destruct t as [item pc|pc]; [discriminate|].
    destruct pc; try discriminate; try (left; reflexivity).
    right. eauto 10.
  - assert (got_done t = taken t) as ->.
    { destruct t as [item pc|pc]; [reflexivity|].
      destruct pc; try discriminate; reflexivity. }
    destruct (IH Ho) as [->|(item & hd & tl & nh & h & Hc & ->)]; [left; reflexivity|].
    right. exists item, hd, tl, nh, h. split; [exact Hc|]. now rewrite app_assoc.
Qed.

Lemma all_finished_cur k (l : list (task V)) :
  Forall (λ t, finished t = true) l → cur_of k l = None.
Proof.
  induction l as [|t l IH]; intros H; [reflexivity|].
  inversion H as [|? ? Ht Hl]; subst. cbn [cur_of]. rewrite Ht.
  rewrite andb_false_r. exact (IH Hl).
Qed.


(** X12.  With one producer and one consumer the buffer is a
    first-in first-out queue in every interleaving.  All calls of
    [Enqueue] are made by one goroutine, one after the other, and all
    calls of [Dequeue] by another; their steps are interleaved in any
    way.  At every moment the payloads that the consumer has taken out,
    in the order of its calls, are the first of the payloads of [q]
    followed by those of the calls of [Enqueue] that have returned
    without error, in the order of these calls: none is lost, doubled or
    overtaken.  Once all calls have ended, the buffer holds a queue again,
    made of exactly the payloads that have not been taken out. *)
Theorem one_producer_one_consumer_fifo rb q cs sched :
  Repr rb q → respects sched (spawn rb cs) = true →
  (∃ rest, q ++ flat_map enqueued (tasks (run sched (spawn rb cs)))
           = flat_map taken (tasks (run sched (spawn rb cs))) ++ rest)
  ∧ (Forall (λ t, finished t = true) (tasks (run sched (spawn rb cs))) →
     ∃ Q, Repr (mem (run sched (spawn rb cs))) Q
          ∧ q ++ flat_map enqueued (tasks (run sched (spawn rb cs)))
            = flat_map taken (tasks (run sched (spawn rb cs))) ++ Q).
Proof.
  intros R Hr.
  assert (spsc q (run sched (spawn rb cs))) as (Q & Op & Oc & RS & Ip & Ic & Eq).
  { apply (run_spsc (resident rb)).
    - apply spawn_conserved. exact (Repr_quiescent rb q R).
    - apply spawn_spsc. exact R.
    - exact Hr. }
  generalize dependent (run sched (spawn rb cs)). intros c Op Oc RS Ip Ic Eq.
  split.
  - destruct (put_done_enqueued _ Op) as [Ep|(item & h & Hc & Ep)];
      destruct (got_done_taken _ Oc) as [Eg|(x & hd & tl & nh & h' & _ & Eg)];
      rewrite Ep, Eg in Eq.
    + exists Q. exact Eq.
    + exists ([x] ++ Q). rewrite Eq, <- app_assoc. reflexivity.
    + rewrite Hc in Ip. cbn [in_step] in Ip. destruct Ip as [_ Hne].
      destruct (exists_last Hne) as (Q1 & z & ->).
      rewrite !app_assoc in Eq. apply app_inj_tail in Eq as [Eq _].
      exists Q1. exact Eq.
    + rewrite Hc in Ip. cbn [in_step] in Ip. destruct Ip as [_ Hne].
      destruct (exists_last Hne) as (Q1 & z & ->).
      rewrite !app_assoc in Eq. apply app_inj_tail in Eq as [Eq _].
      exists ([x] ++ Q1). rewrite Eq, <- !app_assoc. reflexivity.
  - intros Hfin.
    pose proof (all_finished_cur true _ Hfin) as Hp.
    pose proof (all_finished_cur false _ Hfin) as Hc.
    rewrite Hp, Hc in RS. exists Q. split.
    + apply (Repr_agree _ _ _ RS); try reflexivity.
      { symmetry. apply settled_length. }
      intros i it' Hi. exists it'. rewrite settled_lookup, Hi.
      destruct it'. cbn. auto.
    + destruct (put_done_enqueued _ Op) as [Ep|(item & h & Hc' & _)]; [|congruence].
      destruct (got_done_taken _ Oc) as [Eg|(x & hd & tl & nh & h' & Hc' & _)];
        [|congruence].
      rewrite <- Ep, <- Eg. exact Eq.
Qed.


(** ** One producer never waits *)

Lemma step_enq_putWaits item pc rb :
  pc ≠ E_wait → putWaits (snd (step_enq item pc rb)) = putWaits rb.
Proof.
  intros Hne. destruct pc as [|hd tl nt h|tl nt h|tl nt h| |h|h|out].
  - now rewrite step_enq_load_mem.
  - cbn [step_enq].
    pose proof (CAS_rw_shape rb h 0 2) as (_ & _ & _ & Hp & _).
    destruct (CompareAndSwap_readWrite rb h 0 2) as [[] rb1]; exact Hp.
  - cbn [step_enq snd]. apply store_value_shape.
  - cbn [step_enq].
    pose proof (CAS_tail_shape rb tl nt) as (_ & _ & Hp & _).
    destruct (CompareAndSwap_tail rb tl nt) as [b rb1]. exact Hp.
  - congruence.
  - cbn [step_enq].
    pose proof (CAS_rw_shape rb h 2 1) as (_ & _ & _ & Hp & _).
    destruct (CompareAndSwap_readWrite rb h 2 1) as [[] rb1]; exact Hp.
  - reflexivity.
  - reflexivity.
Qed.

Lemma ordered_cases k (l : list (task V)) : ∀ i t,
  ordered k l → l !! i = Some t → is_producer t = k →
  finished t = true ∨ cur_of k l = Some t ∨ fresh t = true.
Proof.
  induction l as [|t1 l IH]; intros i t Ho Hl Hk; [discriminate|].
  cbn [ordered cur_of] in *.
  destruct (Bool.eqb (is_producer t1) k && negb (finished t1)) eqn:E.
  - destruct i as [|i]; cbn in Hl.
    + inversion Hl; subst. auto.
    + right. right. exact (Forall_lookup_1 _ _ _ _ Ho Hl Hk).
  - destruct i as [|i]; cbn in Hl.
    + inversion Hl; subst t1. rewrite Hk, eqb_reflx in E. cbn [andb] in E.
      apply negb_false_iff in E. auto.
    + exact (IH i t Ho Hl Hk).
Qed.

Lemma spsc_no_wait q0 (c : config V) i item :
  spsc q0 c → tasks c !! i ≠ Some (TEnqueue item E_wait).
Proof.
  intros (Q & Op & _ & _ & Ip & _) Hl.
  destruct (ordered_cases true _ i _ Op Hl eq_refl) as [H|[H|H]];
    [discriminate| |discriminate].
  rewrite H in Ip. exact Ip.
Qed.

Lemma sched_step_putWaits q0 (c : config V) i :
  spsc q0 c → putWaits (mem (sched_step c i)) = putWaits (mem c).
Proof.
  intros Hs. unfold sched_step.
  destruct (tasks c !! i) as [[item pc|pc]|] eqn:Hl; [| |reflexivity].
  - pose proof (step_enq_putWaits item pc (mem c)) as Hp.
    destruct (step_enq item pc (mem c)) as [pc' rb']. cbn [mem snd] in *.
    apply Hp. intros ->. exact (spsc_no_wait q0 c i item Hs Hl).
  - pose proof (step_deq_frame pc (mem c)) as (_ & _ & Hp & _).
    destruct (step_deq pc (mem c)) as [[pc' rb'] lg]. cbn [mem fst snd] in *.
    exact Hp.
Qed.

Lemma run_putWaits init q0 sched : ∀ c : config V,
  conserved init c → spsc q0 c → respects sched c = true →
  putWaits (mem (run sched c)) = putWaits (mem c).
Proof.
  induction sched as [|i sched IH]; intros c Hc Hs Hr; [reflexivity|].
  cbn [respects] in Hr. apply andb_true_iff in Hr as [Hr1 Hr2].
  change (run (i :: sched) c) with (run sched (sched_step c i)). rewrite IH.
  - exact (sched_step_putWaits q0 c i Hs).
  - now apply sched_step_conserved.
  - exact (sched_step_spsc init q0 c i Hc Hs Hr1).
  - exact Hr2.
Qed.

(** X13.  A single producer never waits.  When all calls of [Enqueue]
    are made by one goroutine, one after the other, while another
    goroutine makes the calls of [Dequeue], every claim of a slot by
    [Enqueue] succeeds at its first attempt: in no interleaving does a call
    of [Enqueue] reach the sleep of lines 104-105, and [putWaits] stays
    as it was.  (The consumer can be made to wait, by a producer that has
    moved [tail] and not yet released its slot.) *)
Theorem single_producer_never_waits rb q cs sched :
  Repr rb q → respects sched (spawn rb cs) = true →
  putWaits (mem (run sched (spawn rb cs))) = putWaits rb
  ∧ ∀ i item, tasks (run sched (spawn rb cs)) !! i ≠ Some (TEnqueue item E_wait).
Proof.
  intros R Hr.
  pose proof (spawn_conserved rb cs (Repr_quiescent rb q R)) as Hc.
  pose proof (spawn_spsc rb q cs R) as Hs.
  split.
  - exact (run_putWaits _ q sched _ Hc Hs Hr).
  - intros i item. apply (spsc_no_wait q).
    exact (run_spsc _ q sched _ Hc Hs Hr).
Qed.


(** ** Producers alone, consumers alone *)

Lemma pview_lookup m rb i :
  data (phase_view m rb) !! i
  = (λ it : rbItem V, mkItem (claimed_as rb m i (readWrite it)) (value it))
      <$> (data rb !! i).
Proof. unfold phase_view. cbn [data set_data]. apply list_lookup_imap. Qed.

Lemma pview_length m rb : length (data (phase_view m rb)) = length (data rb).
Proof. unfold phase_view. cbn [data set_data]. apply length_imap. Qed.

Lemma pview_facts m rb Q :
  Repr (phase_view m rb) Q →
  snapshot rb = (head rb, tail rb)
  ∧ (Z.of_nat (length Q) = cap rb - 1 ↔ (tail rb + 1) mod cap rb = head rb)
  ∧ (Q = [] ↔ head rb = tail rb)
  ∧ 0 ≤ head rb < cap rb ∧ 0 ≤ tail rb < cap rb ∧ 1 ≤ cap rb ≤ 2 ^ 31
  ∧ (∀ x, 0 ≤ x < cap rb → Z.land (u32 (x + 1)) (capModMask rb) = (x + 1) mod cap rb)
  ∧ Z.of_nat (length Q) = (tail rb - head rb) mod cap rb
  ∧ Z.of_nat (length Q) ≤ cap rb - 1
  ∧ Z.of_nat (length (data rb)) = cap rb.
Proof.
  intros R.
  pose proof (Repr_snapshot _ _ R) as Hsnap.
  change (snapshot rb = (head rb, tail rb)) in Hsnap.
  pose proof (repr_tail _ _ R) as Ht. change (0 ≤ tail rb < cap rb) in Ht.
  pose proof (Repr_next _ _ _ R Ht) as Hn.
  change (Z.land (u32 (tail rb + 1)) (capModMask rb) = (tail rb + 1) mod cap rb) in Hn.
  split; [exact Hsnap|].
  split.
  { rewrite <- (Repr_full_iff _ _ R). unfold full_at.
    change (snapshot (phase_view m rb)) with (snapshot rb).
    change (capModMask (phase_view m rb)) with (capModMask rb).
    rewrite Hsnap. cbn [fst snd]. rewrite Hn. reflexivity. }
  split.
  { rewrite <- (Repr_empty_iff _ _ R). unfold empty_at.
    change (snapshot (phase_view m rb)) with (snapshot rb).
    rewrite Hsnap. reflexivity. }
  split; [exact (repr_head _ _ R)|].
  split; [exact Ht|].
  split; [exact (Repr_cap_bounds _ _ R)|].
  split; [intros x Hx; exact (Repr_next _ _ x R Hx)|].
  split; [exact (repr_qlen _ _ R)|].
  split; [exact (Repr_length_le _ _ R)|].
  rewrite <- (pview_length m rb). exact (repr_len _ _ R).
Qed.

Lemma tail_succ_len H T C :
  0 ≤ H < C → 0 ≤ T < C → (T + 1) mod C ≠ H →
  ((T + 1) mod C - H) mod C = (T - H) mod C + 1.
Proof.
  intros HH HT Hnf.
  assert (0 ≤ (T + 1) mod C < C) as Hb by (apply Z.mod_pos_bound; lia).
  rewrite (mod_sub_cases ((T + 1) mod C)) by lia.
  rewrite (mod_sub_cases T) by lia.
  rewrite mod_succ_cases in * by lia.
  destruct (Z.eqb_spec (T + 1) C), (Z.ltb_spec T H);
    match goal with |- context [?a <? ?b] => destruct (Z.ltb_spec a b) end; lia.
Qed.

Lemma head_succ_len H T C :
  0 ≤ H < C → 0 ≤ T < C → H ≠ T →
  (T - (H + 1) mod C) mod C = (T - H) mod C - 1.
Proof.
  intros HH HT Hne.
  assert (0 ≤ (H + 1) mod C < C) as Hb by (apply Z.mod_pos_bound; lia).
  rewrite (mod_sub_cases T ((H + 1) mod C)) by lia.
  rewrite (mod_sub_cases T H) by lia.
  rewrite mod_succ_cases in * by lia.
  destruct (Z.eqb_spec (H + 1) C), (Z.ltb_spec T H);
    match goal with |- context [?a <? ?b] => destruct (Z.ltb_spec a b) end; lia.
Qed.

(** The slots between [head] and [tail] after [tail] has moved on by
    one: the same, and the slot that was under [tail]. *)
Lemma in_range_push rb rb' i :
  cap rb' = cap rb → head rb' = head rb → tail rb' = (tail rb + 1) mod cap rb →
  0 ≤ head rb < cap rb → 0 ≤ tail rb < cap rb →
  (tail rb + 1) mod cap rb ≠ head rb →
  in_range rb (Z.to_nat (tail rb)) = false
  ∧ in_range rb' (Z.to_nat (tail rb)) = true
  ∧ (in_range rb i = true → in_range rb' i = true)
  ∧ ((i < Z.to_nat (cap rb))%nat → i ≠ Z.to_nat (tail rb) →
     in_range rb' i = in_range rb i).
Proof.
  intros Hc Hh Ht HH HT Hnf. unfold in_range. rewrite Hc, Hh, Ht.
  rewrite (tail_succ_len _ _ _ HH HT Hnf). rewrite Z2Nat.id by lia.
  split; [apply Z.ltb_irrefl|]. split; [apply Z.ltb_lt; lia|].
  split.
  - intros H. apply Z.ltb_lt in H. apply Z.ltb_lt. lia.
  - intros Hi Hne.
    assert ((Z.of_nat i - head rb) mod cap rb ≠ (tail rb - head rb) mod cap rb) as Hd.
    { intros E. apply offset_inj in E; lia. }
    destruct (Z.ltb_spec ((Z.of_nat i - head rb) mod cap rb)
                         ((tail rb - head rb) mod cap rb + 1)),
             (Z.ltb_spec ((Z.of_nat i - head rb) mod cap rb)
                         ((tail rb - head rb) mod cap rb)); try reflexivity; lia.
Qed.

(** The slots between [head] and [tail] after [head] has moved on by
    one: the same, less the slot that was under [head]. *)
Lemma in_range_pop rb rb' i :
  cap rb' = cap rb → tail rb' = tail rb → head rb' = (head rb + 1) mod cap rb →
  0 ≤ head rb < cap rb → 0 ≤ tail rb < cap rb →
  head rb ≠ tail rb →
  in_range rb (Z.to_nat (head rb)) = true
  ∧ in_range rb' (Z.to_nat (head rb)) = false
  ∧ ((i < Z.to_nat (cap rb))%nat → in_range rb i = false → in_range rb' i = false)
  ∧ ((i < Z.to_nat (cap rb))%nat → i ≠ Z.to_nat (head rb) →
     in_range rb' i = in_range rb i).
Proof.
  intros Hc Ht Hh HH HT Hne. unfold in_range. rewrite Hc, Hh, Ht.
  rewrite (head_succ_len _ _ _ HH HT Hne). rewrite Z2Nat.id by lia.
  assert (0 ≤ (head rb + 1) mod cap rb < cap rb) as Hb by (apply Z.mod_pos_bound; lia).
  assert (0 < (tail rb - head rb) mod cap rb) as Hpos.
  { rewrite mod_sub_cases by lia. destruct (Z.ltb_spec (tail rb) (head rb)); lia. }
  assert (∀ j, 0 ≤ j < cap rb →
            (j - (head rb + 1) mod cap rb) mod cap rb
            = if j =? head rb then cap rb - 1 else (j - head rb) mod cap rb - 1) as Hk.
  { intros j Hj. rewrite (mod_sub_cases j ((head rb + 1) mod cap rb)) by lia.
    rewrite (mod_sub_cases j (head rb)) by lia.
    rewrite mod_succ_cases in * by lia.
    destruct (Z.eqb_spec (head rb + 1) (cap rb)), (Z.eqb_spec j (head rb)),
             (Z.ltb_spec j (head rb));
      match goal with |- context [?a <? ?b] => destruct (Z.ltb_spec a b) end; lia. }
  assert ((tail rb - head rb) mod cap rb ≤ cap rb - 1) as Hle.
  { pose proof (Z.mod_pos_bound (tail rb - head rb) (cap rb)). lia. }
  split; [|split; [|split]].
  - rewrite Z.sub_diag, Z.mod_0_l by lia. apply Z.ltb_lt. exact Hpos.
  - rewrite Hk by lia. rewrite Z.eqb_refl. apply Z.ltb_ge. lia.
  - intros Hi H. apply Z.ltb_ge in H. apply Z.ltb_ge.
    rewrite Hk by lia. destruct (Z.eqb_spec (Z.of_nat i) (head rb)); lia.
  - intros Hi Hn. rewrite Hk by lia.
    destruct (Z.eqb_spec (Z.of_nat i) (head rb)) as [E|E]; [lia|].
    destruct (Z.ltb_spec ((Z.of_nat i - head rb) mod cap rb - 1)
                         ((tail rb - head rb) mod cap rb - 1)),
             (Z.ltb_spec ((Z.of_nat i - head rb) mod cap rb)
                         ((tail rb - head rb) mod cap rb)); try reflexivity; lia.
Qed.


Lemma producing_fields rb rb' (t : task V) :
  head rb' = head rb → tail rb' = tail rb → cap rb' = cap rb →
  producing rb t → producing rb' t.
Proof.
  intros Hh Ht Hc. unfold producing, in_range. rewrite Hh, Ht, Hc. auto.
Qed.

Lemma pview_agree m rb rb' Q :
  Repr (phase_view m rb) Q →
  cap rb' = cap rb → capModMask rb' = capModMask rb →
  head rb' = head rb → tail rb' = tail rb →
  length (data rb') = length (data rb) →
  (∀ i it', data rb' !! i = Some it' →
     ∃ it, data rb !! i = Some it
           ∧ claimed_as rb m i (readWrite it') = claimed_as rb m i (readWrite it)
           ∧ (claimed_as rb m i (readWrite it) = 0 ∨ value it' = value it)) →
  Repr (phase_view m rb') Q.
Proof.
  intros R Hc Hm Hh Ht Hl Hs.
  apply (Repr_agree (phase_view m rb)); [exact R|exact Hc|exact Hm|exact Hh|exact Ht| |].
  - rewrite !pview_length. exact Hl.
  - intros i it' Hi. rewrite pview_lookup in Hi.
    destruct (data rb' !! i) as [x'|] eqn:Hx'; [|discriminate].
    cbn in Hi. inversion Hi; subst it'. clear Hi.
    destruct (Hs i x' Hx') as (x & Hx & E & Hv).
    exists (mkItem (claimed_as rb m i (readWrite x)) (value x)).
    rewrite pview_lookup, Hx. cbn [fmap option_fmap option_map readWrite value].
    split; [reflexivity|]. split; [|exact Hv].
    rewrite <- E. unfold claimed_as, in_range. rewrite Hh, Ht, Hc. reflexivity.
Qed.

(** Every step of a producer keeps the queue, while no consumer runs. *)
Lemma sched_step_producers init q0 (c : config V) i :
  conserved init c → producers_only q0 c → producers_only q0 (sched_step c i).
Proof.
  intros (Ho & Hca & _) (l & R & Hp).
  unfold sched_step. destruct (tasks c !! i) as [t|] eqn:Hl.
  2:{ exists l. split; assumption. }
  pose proof (Forall_lookup_1 _ _ _ _ Hp Hl) as Hpt.
  pose proof Ho as (_ & _ & Hnr).
  pose proof (Forall_lookup_1 _ _ _ _ Hnr Hl) as Hrt. cbv beta in Hrt.
  pose proof (Forall_lookup_1 _ _ _ _ Hca Hl) as Hct.
  destruct t as [item pc|pc]; [|destruct Hpt].
  destruct (pview_facts _ _ _ R)
    as (Hsnap & Hfull & Hempty & Hh & Ht & Hcb & Hnext & Hqlen & Hqle & Hdl).
  assert (∀ rb' pc' l',
            Repr (phase_view 2 rb') (q0 ++ l') →
            producing rb' (TEnqueue item pc') →
            (∀ j t', j ≠ i → tasks c !! j = Some t' → producing rb' t') →
            producers_only q0
              (mkConfig rb' (logged c) (<[i := TEnqueue item pc']> (tasks c)))) as Hdone.
  { intros rb' pc' l' R' Hn Hoth. exists l'. cbn [mem tasks]. split; [exact R'|].
    apply Forall_lookup_2. intros j t' Hj.
    apply list_lookup_insert_Some in Hj as [(-> & <- & _)|(Hne & Hj)]; [exact Hn|].
    apply (Hoth j t'); [congruence|exact Hj]. }
  assert (∀ rb', head rb' = head (mem c) → tail rb' = tail (mem c) →
                 cap rb' = cap (mem c) →
                 ∀ j t', j ≠ i → tasks c !! j = Some t' → producing rb' t') as Hsame.
  { intros rb' E1 E2 E3 j t' _ Hj.
    apply (producing_fields (mem c)); [exact E1|exact E2|exact E3|].
    exact (Forall_lookup_1 _ _ _ _ Hp Hj). }
  destruct pc as [|hd tl nt h|tl nt h|tl nt h| |h|h|out].
  - (* E_load *)
    rewrite step_enq_load. cbv zeta. rewrite Hsnap. cbn [fst snd].
    rewrite (Hnext _ Ht).
    destruct (Z.eqb_spec ((tail (mem c) + 1) mod cap (mem c)) (head (mem c))) as [E|E].
    + apply (Hdone _ _ l R); [exact I|]. now apply Hsame.
    + destruct (data (mem c) !! Z.to_nat (tail (mem c))) as [it|].
      * apply (Hdone _ _ l R); [|now apply Hsame].
        cbn [producing]. split; [reflexivity|]. split; [exact Ht|].
        split; [reflexivity|]. split; [exact E|]. lia.
      * apply (Hdone _ _ l R); [exact I|]. now apply Hsame.
  - (* E_claim *)
    cbn [step_enq]. cbn [producing] in Hpt.
    destruct Hpt as (-> & Htl & -> & Hnf & Hle).
    destruct (data (mem c) !! Z.to_nat tl) as [it|] eqn:Hit.
    2:{ unfold CompareAndSwap_readWrite. rewrite Hit.
        apply (Hdone _ _ l R); [exact I|]. now apply Hsame. }
    destruct (Z.eq_dec (readWrite it) 0) as [E|E].
    2:{ rewrite (CAS_rw_miss _ _ _ _ _ Hit E).
        apply (Hdone _ _ l R); [exact I|]. now apply Hsame. }
    rewrite (CAS_rw_hit _ _ _ _ _ Hit E).
    (* the slot is writable, so it is the slot under [tail] *)
    assert (tl = tail (mem c)) as ->.
    { pose proof (repr_slots _ _ R (Z.to_nat tl)
                    (mkItem (claimed_as (mem c) 2 (Z.to_nat tl) (readWrite it)) (value it)))
        as Hs.
      rewrite pview_lookup, Hit in Hs. specialize (Hs eq_refl).
      change (head (phase_view 2 (mem c))) with (head (mem c)) in Hs.
      change (cap (phase_view 2 (mem c))) with (cap (mem c)) in Hs.
      rewrite Z2Nat.id in Hs by lia.
      assert (0 ≤ (tl - head (mem c)) mod cap (mem c) < cap (mem c)) as Hb
        by (apply Z.mod_pos_bound; lia).
      destruct ((q0 ++ l) !! Z.to_nat ((tl - head (mem c)) mod cap (mem c))) as [v|] eqn:Hq.
      - destruct Hs as [Hs _]. cbn [readWrite] in Hs. unfold claimed_as in Hs.
        rewrite E in Hs. rewrite decide_False in Hs by lia. lia.
      - apply lookup_ge_None_1 in Hq.
        apply (offset_inj _ _ (head (mem c)) (cap (mem c))); lia. }
    apply (Hdone _ _ l).
    + apply (pview_agree _ _ _ _ R); try reflexivity.
      { cbn [data set_data]. apply length_insert. }
      intros j it' Hj. cbn [data set_data] in Hj.
      destruct (decide (j = Z.to_nat (tail (mem c)))) as [->|Hne].
      * rewrite (lookup_insert_slot _ _ _ _ Hit) in Hj. inversion Hj; subst it'.
        exists it. split; [exact Hit|]. cbn [readWrite value].
        unfold claimed_as. rewrite E. rewrite decide_True by reflexivity.
        rewrite decide_False by lia.
        destruct (in_range_push (mem c) (set_tail (mem c) ((tail (mem c) + 1) mod cap (mem c)))
                    0%nat eq_refl eq_refl eq_refl Hh Ht Hnf) as (-> & _). auto.
      * rewrite list_lookup_insert_ne in Hj by congruence.
        exists it'. split; [exact Hj|]. auto.
    + cbn [producing tail head cap set_data]. repeat (split; [reflexivity|]). exact Hnf.
    + now apply Hsame.
  - (* E_store *)
    cbn [step_enq]. cbn [producing] in Hpt. destruct Hpt as (-> & -> & -> & Hnf).
    assert (rw_at (mem c) (Z.to_nat (tail (mem c))) = 2) as Hrw.
    { apply (owned_holds_w c i _ _ Ho Hl). cbn. now rewrite decide_True. }
    destruct (rw_at_lookup (mem c) (Z.to_nat (tail (mem c)))) as (it & Hit & Eit); [lia|].
    unfold store_value. rewrite Hit.
    apply (Hdone _ _ l).
    + apply (pview_agree _ _ _ _ R); try reflexivity.
      { cbn [data set_data]. apply length_insert. }
      intros j it' Hj. cbn [data set_data] in Hj.
      destruct (decide (j = Z.to_nat (tail (mem c)))) as [->|Hne].
      * rewrite (lookup_insert_slot _ _ _ _ Hit) in Hj. inversion Hj; subst it'.
        exists it. split; [exact Hit|]. cbn [readWrite value].
        split; [reflexivity|]. left.
        unfold claimed_as. rewrite Eit, Hrw. rewrite decide_True by reflexivity.
        destruct (in_range_push (mem c) (set_tail (mem c) ((tail (mem c) + 1) mod cap (mem c)))
                    0%nat eq_refl eq_refl eq_refl Hh Ht Hnf) as (-> & _). reflexivity.
      * rewrite list_lookup_insert_ne in Hj by congruence.
        exists it'. split; [exact Hj|]. auto.
    + cbn [producing tail head cap set_data]. repeat (split; [reflexivity|]). exact Hnf.
    + now apply Hsame.
  - (* E_advance *)
    cbn [step_enq]. cbn [producing] in Hpt. destruct Hpt as (-> & -> & -> & Hnf).
    assert (rw_at (mem c) (Z.to_nat (tail (mem c))) = 2) as Hrw.
    { apply (owned_holds_w c i _ _ Ho Hl). cbn. now rewrite decide_True. }
    destruct (rw_at_lookup (mem c) (Z.to_nat (tail (mem c)))) as (it & Hit & Eit); [lia|].
    cbn [carries] in Hct. unfold value_at in Hct. rewrite Hit in Hct.
    unfold CompareAndSwap_tail. rewrite Z.eqb_refl.
    set (rb' := set_tail (mem c) ((tail (mem c) + 1) mod cap (mem c))).
    destruct (in_range_push (mem c) rb' 0%nat eq_refl eq_refl eq_refl Hh Ht Hnf)
      as (Hr1 & Hr2 & _).
    apply (Hdone _ _ (l ++ [item])).
    + rewrite app_assoc. apply (Repr_push _ _ _ _ R); try reflexivity.
      { change (Z.of_nat (length (q0 ++ l)) < cap (mem c) - 1).
        destruct (Z.eq_dec (Z.of_nat (length (q0 ++ l))) (cap (mem c) - 1)) as [E'|E'];
          [|lia]. exfalso. apply Hnf, Hfull, E'. }
      { rewrite !pview_length. reflexivity. }
      intros j it' Hj. rewrite pview_lookup in Hj.
      change (data rb') with (data (mem c)) in Hj.
      change (tail (phase_view 2 (mem c))) with (tail (mem c)).
      destruct (data (mem c) !! j) as [x|] eqn:Hx; [|discriminate].
      cbn in Hj. inversion Hj; subst it'. clear Hj. cbn [readWrite value].
      destruct (decide (j = Z.to_nat (tail (mem c)))) as [->|Hne].
      * rewrite Hit in Hx. inversion Hx; subst x.
        unfold claimed_as. rewrite Eit, Hrw. rewrite decide_True by reflexivity.
        rewrite Hr2. split; [reflexivity|exact Hct].
      * exists (mkItem (claimed_as (mem c) 2 j (readWrite x)) (value x)).
        rewrite pview_lookup, Hx.
        cbn [fmap option_fmap option_map readWrite value].
        split; [reflexivity|]. split; [|auto].
        unfold claimed_as.
        destruct (in_range_push (mem c) rb' j eq_refl eq_refl eq_refl Hh Ht Hnf)
          as (_ & _ & _ & Hr4).
        rewrite Hr4; [reflexivity| |exact Hne].
        apply lookup_lt_Some in Hx. lia.
    + cbn [producing]. exact Hr2.
    + intros j t' Hne Hj. pose proof (Forall_lookup_1 _ _ _ _ Hp Hj) as Hpj.
      destruct t' as [it' pc'|pc']; [|destruct Hpj].
      destruct pc' as [|hd' tl' nt' h'|tl' nt' h'|tl' nt' h'| |h'|h'|out'];
        cbn [producing] in *; try exact I.
      * destruct Hpj as (H1 & H2 & H3 & H4 & H5).
        repeat (split; [assumption|]).
        change (tail rb') with ((tail (mem c) + 1) mod cap (mem c)).
        change (head rb') with (head (mem c)). change (cap rb') with (cap (mem c)).
        rewrite (tail_succ_len _ _ _ Hh Ht Hnf). lia.
      * exfalso. destruct Hpj as (-> & -> & _). apply Hne.
        apply (owned_exclusive c (Z.to_nat (tail (mem c))) j i _ _ Ho Hj Hl);
          left; cbn; now rewrite decide_True.
      * exfalso. destruct Hpj as (-> & -> & _). apply Hne.
        apply (owned_exclusive c (Z.to_nat (tail (mem c))) j i _ _ Ho Hj Hl);
          left; cbn; now rewrite decide_True.
      * destruct (in_range_push (mem c) rb' h' eq_refl eq_refl eq_refl Hh Ht Hnf)
          as (_ & _ & Hr3 & _). exact (Hr3 Hpj).
  - (* E_wait *)
    cbn [step_enq]. apply (Hdone _ _ l).
    + apply (pview_agree _ _ _ _ R); try reflexivity.
      intros j it' Hj. exists it'. split; [exact Hj|]. auto.
    + exact I.
    + now apply Hsame.
  - (* E_release *)
    cbn [step_enq]. cbn [producing] in Hpt.
    assert (rw_at (mem c) h = 2) as Hrw.
    { apply (owned_holds_w c i _ _ Ho Hl). cbn. now rewrite decide_True. }
    destruct (rw_at_lookup (mem c) h) as (it & Hit & Eit); [lia|].
    rewrite Hrw in Eit. rewrite (CAS_rw_hit _ _ _ _ _ Hit Eit). cbn [negb].
    apply (Hdone _ _ l).
    + apply (pview_agree _ _ _ _ R); try reflexivity.
      { cbn [data set_data]. apply length_insert. }
      intros j it' Hj. cbn [data set_data] in Hj.
      destruct (decide (j = h)) as [->|Hne].
      * rewrite (lookup_insert_slot _ _ _ _ Hit) in Hj. inversion Hj; subst it'.
        exists it. split; [exact Hit|]. cbn [readWrite value].
        unfold claimed_as. rewrite Eit. rewrite decide_False by lia.
        rewrite decide_True by reflexivity. rewrite Hpt. auto.
      * rewrite list_lookup_insert_ne in Hj by congruence.
        exists it'. split; [exact Hj|]. auto.
    + exact I.
    + now apply Hsame.
  - (* E_errorf *) discriminate.
  - (* E_end *)
    cbn [step_enq]. apply (Hdone _ _ l R); [exact I|]. now apply Hsame.
Qed.


Lemma run_producers_only init q0 sched : ∀ c : config V,
  conserved init c → producers_only q0 c → producers_only q0 (run sched c).
Proof.
  induction sched as [|i sched IH]; intros c Hc Hs; [exact Hs|].
  cbn. apply IH.
  - now apply sched_step_conserved.
  - exact (sched_step_producers init q0 c i Hc Hs).
Qed.

Lemma pview_quiet m rb Q :
  (∀ j, rw_at rb j ≠ m) → (Repr (phase_view m rb) Q ↔ Repr rb Q).
Proof.
  intros Hq.
  assert (∀ i it, data rb !! i = Some it → claimed_as rb m i (readWrite it) = readWrite it)
    as Hid.
  { intros i it Hit. unfold claimed_as. rewrite decide_False; [reflexivity|].
    specialize (Hq i). unfold rw_at in Hq. now rewrite Hit in Hq. }
  split; intros R.
  - apply (Repr_agree _ _ _ R); try reflexivity.
    { symmetry. apply pview_length. }
    intros i it' Hi. exists (mkItem (claimed_as rb m i (readWrite it')) (value it')).
    rewrite pview_lookup, Hi. cbn [fmap option_fmap option_map readWrite value].
    split; [reflexivity|]. rewrite (Hid _ _ Hi). auto.
  - apply (Repr_agree _ _ _ R); try reflexivity.
    { apply pview_length. }
    intros i it' Hi. rewrite pview_lookup in Hi.
    destruct (data rb !! i) as [x|] eqn:Hx; [|discriminate].
    cbn in Hi. inversion Hi; subst it'. exists x. split; [reflexivity|].
    cbn [readWrite value]. rewrite (Hid _ _ Hx). auto.
Qed.

Lemma finished_hold_nothing (l : list (task V)) j :
  Forall (λ t, finished t = true) l →
  total (holds_w j) l = 0%nat ∧ total (holds_r j) l = 0%nat.
Proof.
  induction l as [|t l IH]; intros H; [split; reflexivity|].
  inversion H as [|? ? Ht Hl]; subst. destruct (IH Hl) as [IH1 IH2].
  cbn [total]. rewrite IH1, IH2.
  destruct t as [item pc|pc]; destruct pc; try discriminate; split; reflexivity.
Qed.

Lemma finished_quiet (c : config V) j :
  owned c → Forall (λ t, finished t = true) (tasks c) →
  rw_at (mem c) j ≠ 2 ∧ rw_at (mem c) j ≠ 3.
Proof.
  intros (Hw & Hr & _) Hf. destruct (finished_hold_nothing _ j Hf) as [E1 E2].
  specialize (Hw j). specialize (Hr j). rewrite E1 in Hw. rewrite E2 in Hr.
  unfold ind in Hw, Hr. split; intros E.
  - rewrite decide_True in Hw by exact E. discriminate.
  - rewrite decide_True in Hr by exact E. discriminate.
Qed.

Lemma producers_take_nothing (l : list (task V)) rb :
  Forall (producing rb) l → flat_map taken l = [].
Proof.
  induction l as [|t l IH]; intros H; [reflexivity|].
  inversion H as [|? ? Ht Hl]; subst. cbn [flat_map]. rewrite (IH Hl).
  destruct t as [item pc|pc]; [reflexivity|destruct Ht].
Qed.

Lemma spawn_producers_only rb q (items : list (option V)) :
  Repr rb q → producers_only q (spawn rb (map CallEnqueue items)).
Proof.
  intros R. exists []. unfold spawn. cbn [mem tasks]. rewrite app_nil_r. split.
  - apply pview_quiet; [|exact R]. intros j. apply (Repr_quiescent rb q R).
  - clear R. induction items as [|x items IH]; constructor; [exact I|exact IH].
Qed.

(** X15.  Producers alone keep the queue.  While no call of
    [Dequeue] is in progress, any number of goroutines may call [Enqueue]
    at the same time: in every interleaving the buffer, with the slots
    that producers hold accounted for, holds a queue that begins with the
    payloads [q] it held at the start, and once all calls have ended it
    holds, behind [q], exactly the payloads of the calls that returned
    without error, each once. *)
Theorem producers_alone_keep_the_queue rb q items sched :
  Repr rb q →
  (∃ l, Repr (phase_view 2 (mem (run sched (spawn rb (map CallEnqueue items)))))
             (q ++ l))
  ∧ (Forall (λ t, finished t = true)
            (tasks (run sched (spawn rb (map CallEnqueue items)))) →
     ∃ l, Repr (mem (run sched (spawn rb (map CallEnqueue items)))) (q ++ l)
          ∧ l ≡ₚ flat_map enqueued
                   (tasks (run sched (spawn rb (map CallEnqueue items))))).
Proof.
  intros R.
  pose proof (spawn_conserved rb (map CallEnqueue items) (Repr_quiescent rb q R)) as Hc.
  pose proof (spawn_producers_only rb q items R) as Hs.
  apply (run_conserved _ sched) in Hc.
  apply (run_producers_only (resident rb) q sched) in Hs;
    [|exact (spawn_conserved rb _ (Repr_quiescent rb q R))].
  generalize dependent (run sched (spawn rb (map CallEnqueue items))).
  intros c (Ho & _ & Hperm) (l & Rv & Hp).
  split; [exists l; exact Rv|].
  intros Hf. exists l.
  assert (Repr (mem c) (q ++ l)) as Rc.
  { apply (pview_quiet 2); [|exact Rv]. intros j. apply (finished_quiet c j Ho Hf). }
  split; [exact Rc|].
  rewrite (producers_take_nothing _ _ Hp), app_nil_r in Hperm.
  rewrite (Repr_resident _ _ Rc), (Repr_resident _ _ R) in Hperm.
  exact (Permutation_app_inv_l _ _ _ Hperm).
Qed.


Lemma consuming_fields rb rb' (t : task V) :
  head rb' = head rb → tail rb' = tail rb → cap rb' = cap rb →
  consuming rb t → consuming rb' t.
Proof.
  intros Hh Ht Hc. unfold consuming, in_range. rewrite Hh, Ht, Hc. auto.
Qed.

Lemma behind_head H T hd C :
  0 ≤ H < C → 0 ≤ T < C → 0 ≤ hd < C →
  (hd - H) mod C < (T - H) mod C → (T - H) mod C ≤ (T - hd) mod C → hd = H.
Proof.
  intros HH HT Hhd. rewrite !mod_sub_cases by lia.
  destruct (Z.ltb_spec hd H), (Z.ltb_spec T H), (Z.ltb_spec T hd); lia.
Qed.

(** Every step of a consumer keeps the queue, while no producer runs. *)
Lemma sched_step_consumers init q0 (c : config V) i :
  conserved init c → consumers_only q0 c → consumers_only q0 (sched_step c i).
Proof.
  intros (Ho & Hca & _) (l & Q & Eq & R & Hp).
  unfold sched_step. destruct (tasks c !! i) as [t|] eqn:Hl.
  2:{ exists l, Q. repeat (split; [assumption|]). assumption. }
  pose proof (Forall_lookup_1 _ _ _ _ Hp Hl) as Hpt.
  pose proof Ho as (_ & _ & Hnr).
  pose proof (Forall_lookup_1 _ _ _ _ Hnr Hl) as Hrt. cbv beta in Hrt.
  destruct t as [item pc|pc]; [destruct Hpt|].
  destruct (pview_facts _ _ _ R)
    as (Hsnap & Hfull & Hempty & Hh & Ht & Hcb & Hnext & Hqlen & Hqle & Hdl).
  assert (∀ rb' pc' lg l' Q',
            q0 = l' ++ Q' →
            Repr (phase_view 3 rb') Q' →
            consuming rb' (TDequeue pc') →
            (∀ j t', j ≠ i → tasks c !! j = Some t' → consuming rb' t') →
            consumers_only q0
              (mkConfig rb' (logged c ++ lg) (<[i := TDequeue pc']> (tasks c)))) as Hdone.
  { intros rb' pc' lg l' Q' E' R' Hn Hoth. exists l', Q'. cbn [mem tasks].
    split; [exact E'|]. split; [exact R'|].
    apply Forall_lookup_2. intros j t' Hj.
    apply list_lookup_insert_Some in Hj as [(-> & <- & _)|(Hne & Hj)]; [exact Hn|].
    apply (Hoth j t'); [congruence|exact Hj]. }
  assert (∀ rb', head rb' = head (mem c) → tail rb' = tail (mem c) →
                 cap rb' = cap (mem c) →
                 ∀ j t', j ≠ i → tasks c !! j = Some t' → consuming rb' t') as Hsame.
  { intros rb' E1 E2 E3 j t' _ Hj.
    apply (consuming_fields (mem c)); [exact E1|exact E2|exact E3|].
    exact (Forall_lookup_1 _ _ _ _ Hp Hj). }
  destruct pc as [|hd tl h|hd tl h|item hd tl nh h| |item hd tl nh h|item h
                  |item hd tl nh|out].
  - (* D_load *)
    rewrite step_deq_load. cbv zeta. rewrite Hsnap. cbn [fst snd].
    destruct (Z.eqb_spec (head (mem c)) (tail (mem c))) as [E|E].
    + apply (Hdone _ _ _ l Q Eq R); [exact I|]. now apply Hsame.
    + destruct (data (mem c) !! Z.to_nat (head (mem c))) as [it|].
      * apply (Hdone _ _ _ l Q Eq R); [|now apply Hsame].
        cbn [consuming]. split; [reflexivity|]. split; [exact Hh|]. lia.
      * apply (Hdone _ _ _ l Q Eq R); [exact I|]. now apply Hsame.
  - (* D_claim *)
    cbn [step_deq]. cbn [consuming] in Hpt. destruct Hpt as (-> & Hhd & Hle).
    destruct (data (mem c) !! Z.to_nat hd) as [it|] eqn:Hit.
    2:{ unfold CompareAndSwap_readWrite. rewrite Hit.
        apply (Hdone _ _ _ l Q Eq R); [exact I|]. now apply Hsame. }
    destruct (Z.eq_dec (readWrite it) 1) as [E|E].
    2:{ rewrite (CAS_rw_miss _ _ _ _ _ Hit E).
        apply (Hdone _ _ _ l Q Eq R); [exact I|]. now apply Hsame. }
    rewrite (CAS_rw_hit _ _ _ _ _ Hit E).
    (* the slot is readable, so it is the slot under [head] *)
    assert (hd = head (mem c) ∧ head (mem c) ≠ tail (mem c)) as [-> Hne].
    { pose proof (repr_slots _ _ R (Z.to_nat hd)
                    (mkItem (claimed_as (mem c) 3 (Z.to_nat hd) (readWrite it)) (value it)))
        as Hs.
      rewrite pview_lookup, Hit in Hs. specialize (Hs eq_refl).
      change (head (phase_view 3 (mem c))) with (head (mem c)) in Hs.
      change (cap (phase_view 3 (mem c))) with (cap (mem c)) in Hs.
      rewrite Z2Nat.id in Hs by lia.
      assert (0 ≤ (hd - head (mem c)) mod cap (mem c) < cap (mem c)) as Hb
        by (apply Z.mod_pos_bound; lia).
      destruct (Q !! Z.to_nat ((hd - head (mem c)) mod cap (mem c))) as [v|] eqn:Hq.
      - apply lookup_lt_Some in Hq.
        assert (hd = head (mem c)) as ->.
        { apply (behind_head _ (tail (mem c)) _ (cap (mem c))); lia. }
        split; [reflexivity|]. intros E'. rewrite E', Z.sub_diag in Hqlen.
        rewrite Z.mod_0_l in Hqlen by lia. lia.
      - cbn [readWrite] in Hs. unfold claimed_as in Hs.
        rewrite E in Hs. rewrite decide_False in Hs by lia. lia. }
    destruct (in_range_pop (mem c) (set_head (mem c) ((head (mem c) + 1) mod cap (mem c)))
                0%nat eq_refl eq_refl eq_refl Hh Ht Hne) as (Hr1 & _).
    apply (Hdone _ _ _ l Q Eq).
    + apply (pview_agree _ _ _ _ R); try reflexivity.
      { cbn [data set_data]. apply length_insert. }
      intros j it' Hj. cbn [data set_data] in Hj.
      destruct (decide (j = Z.to_nat (head (mem c)))) as [->|Hn].
      * rewrite (lookup_insert_slot _ _ _ _ Hit) in Hj. inversion Hj; subst it'.
        exists it. split; [exact Hit|]. cbn [readWrite value].
        unfold claimed_as. rewrite E. rewrite decide_True by reflexivity.
        rewrite decide_False by lia. rewrite Hr1. auto.
      * rewrite list_lookup_insert_ne in Hj by congruence.
        exists it'. split; [exact Hj|]. auto.
    + cbn [consuming tail head cap set_data]. repeat (split; [reflexivity|]). exact Hne.
    + now apply Hsame.
  - (* D_read *)
    cbn [step_deq]. cbn [consuming] in Hpt. destruct Hpt as (-> & -> & Hne).
    apply (Hdone _ _ _ l Q Eq R); [|now apply Hsame].
    cbn [consuming]. split; [reflexivity|]. split; [reflexivity|].
    split; [exact (Hnext _ Hh)|exact Hne].
  - (* D_advance *)
    cbn [step_deq]. cbn [consuming] in Hpt. destruct Hpt as (-> & -> & -> & Hne).
    assert (rw_at (mem c) (Z.to_nat (head (mem c))) = 3) as Hrw.
    { apply (owned_holds_r c i _ _ Ho Hl). cbn. now rewrite decide_True. }
    destruct (rw_at_lookup (mem c) (Z.to_nat (head (mem c)))) as (it & Hit & Eit); [lia|].
    unfold CompareAndSwap_head. rewrite Z.eqb_refl.
    set (rb' := set_head (mem c) ((head (mem c) + 1) mod cap (mem c))).
    destruct (in_range_pop (mem c) rb' 0%nat eq_refl eq_refl eq_refl Hh Ht Hne)
      as (Hr1 & Hr2 & _).
    destruct Q as [|v Q']; [exfalso; apply Hne, Hempty; reflexivity|].
    apply (Hdone _ _ _ (l ++ [v]) Q').
    + rewrite <- app_assoc. exact Eq.
    + apply (Repr_pop _ _ _ _ R); try reflexivity.
      { rewrite !pview_length. reflexivity. }
      intros j it' Hj. rewrite pview_lookup in Hj.
      change (data rb') with (data (mem c)) in Hj.
      change (head (phase_view 3 (mem c))) with (head (mem c)).
      destruct (data (mem c) !! j) as [x|] eqn:Hx; [|discriminate].
      cbn in Hj. inversion Hj; subst it'. clear Hj. cbn [readWrite value].
      destruct (decide (j = Z.to_nat (head (mem c)))) as [->|Hn].
      * rewrite Hit in Hx. inversion Hx; subst x.
        unfold claimed_as. rewrite Eit, Hrw. rewrite decide_True by reflexivity.
        rewrite Hr2. reflexivity.
      * exists (mkItem (claimed_as (mem c) 3 j (readWrite x)) (value x)).
        rewrite pview_lookup, Hx.
        cbn [fmap option_fmap option_map readWrite value].
        split; [reflexivity|]. split; [|auto].
        unfold claimed_as.
        destruct (in_range_pop (mem c) rb' j eq_refl eq_refl eq_refl Hh Ht Hne)
          as (_ & _ & _ & Hr4).
        rewrite Hr4; [reflexivity| |exact Hn].
        apply lookup_lt_Some in Hx. lia.
    + cbn [consuming]. split; [|exact Hr2].
      change (cap rb') with (cap (mem c)). lia.
    + intros j t' Hn Hj. pose proof (Forall_lookup_1 _ _ _ _ Hp Hj) as Hpj.
      destruct t' as [it' pc'|pc']; [destruct Hpj|].
      destruct pc' as [|hd' tl' h'|hd' tl' h'|it' hd' tl' nh' h'| |it' hd' tl' nh' h'
                       |it' h'|it' hd' tl' nh'|out'];
        cbn [consuming] in *; try exact I.
      * destruct Hpj as (H1 & H2 & H3).
        repeat (split; [assumption|]).
        change (tail rb') with (tail (mem c)).
        change (head rb') with ((head (mem c) + 1) mod cap (mem c)).
        change (cap rb') with (cap (mem c)).
        rewrite (head_succ_len _ _ _ Hh Ht Hne). lia.
      * exfalso. destruct Hpj as (-> & -> & _). apply Hn.
        apply (owned_exclusive c (Z.to_nat (head (mem c))) j i _ _ Ho Hj Hl);
          right; cbn; now rewrite decide_True.
      * exfalso. destruct Hpj as (-> & -> & _). apply Hn.
        apply (owned_exclusive c (Z.to_nat (head (mem c))) j i _ _ Ho Hj Hl);
          right; cbn; now rewrite decide_True.
      * destruct Hpj as [Hb Hpj]. split; [exact Hb|].
        destruct (in_range_pop (mem c) rb' h' eq_refl eq_refl eq_refl Hh Ht Hne)
          as (_ & _ & Hr3 & _). exact (Hr3 Hb Hpj).
  - (* D_wait *)
    cbn [step_deq]. apply (Hdone _ _ _ l Q Eq).
    + apply (pview_agree _ _ _ _ R); try reflexivity.
      intros j it' Hj. exists it'. split; [exact Hj|]. auto.
    + exact I.
    + now apply Hsame.
  - (* D_release *)
    cbn [step_deq]. cbn [consuming] in Hpt. destruct Hpt as [Hb Hout].
    assert (rw_at (mem c) h = 3) as Hrw.
    { apply (owned_holds_r c i _ _ Ho Hl). cbn. now rewrite decide_True. }
    destruct (rw_at_lookup (mem c) h) as (it & Hit & Eit); [lia|].
    rewrite Hrw in Eit. rewrite (CAS_rw_hit _ _ _ _ _ Hit Eit). cbn [negb].
    apply (Hdone _ _ _ l Q Eq).
    + apply (pview_agree _ _ _ _ R); try reflexivity.
      { cbn [data set_data]. apply length_insert. }
      intros j it' Hj. cbn [data set_data] in Hj.
      destruct (decide (j = h)) as [->|Hn].
      * rewrite (lookup_insert_slot _ _ _ _ Hit) in Hj. inversion Hj; subst it'.
        exists it. split; [exact Hit|]. cbn [readWrite value].
        unfold claimed_as. rewrite Eit. rewrite decide_False by lia.
        rewrite decide_True by reflexivity. rewrite Hout. auto.
      * rewrite list_lookup_insert_ne in Hj by congruence.
        exists it'. split; [exact Hj|]. auto.
    + exact I.
    + now apply Hsame.
  - (* D_errorf *) discriminate.
  - (* D_check *)
    cbn [step_deq]. destruct (check_nil (mem c) item hd tl nh) as [lg out].
    apply (Hdone _ _ _ l Q Eq R); [exact I|]. now apply Hsame.
  - (* D_end *)
    cbn [step_deq]. apply (Hdone _ _ _ l Q Eq R); [exact I|]. now apply Hsame.
Qed.


Lemma run_consumers_only init q0 sched : ∀ c : config V,
  conserved init c → consumers_only q0 c → consumers_only q0 (run sched c).
Proof.
  induction sched as [|i sched IH]; intros c Hc Hs; [exact Hs|].
  cbn. apply IH.
  - now apply sched_step_conserved.
  - exact (sched_step_consumers init q0 c i Hc Hs).
Qed.

Lemma consumers_put_nothing (l : list (task V)) rb :
  Forall (consuming rb) l → flat_map enqueued l = [].
Proof.
  induction l as [|t l IH]; intros H; [reflexivity|].
  inversion H as [|? ? Ht Hl]; subst. cbn [flat_map]. rewrite (IH Hl).
  destruct t as [item pc|pc]; [destruct Ht|reflexivity].
Qed.

Lemma spawn_consumers_only rb q n :
  Repr rb q → consumers_only q (spawn rb (repeat CallDequeue n)).
Proof.
  intros R. exists [], q. unfold spawn. cbn [mem tasks].
  split; [reflexivity|]. split.
  - apply pview_quiet; [|exact R]. intros j. apply (Repr_quiescent rb q R).
  - clear R. induction n as [|n IH]; constructor; [exact I|exact IH].
Qed.

(** X16.  Consumers alone keep the queue.  While no call of
    [Enqueue] is in progress, any number of goroutines may call [Dequeue]
    at the same time: in every interleaving the buffer, with the slots
    that consumers hold accounted for, holds what is left of the queue [q]
    it held at the start once a first part has been taken away, and once
    all calls have ended the payloads that the calls have taken out are
    exactly those of that first part, each once. *)
Theorem consumers_alone_keep_the_queue rb q n sched :
  Repr rb q →
  (∃ l Q, q = l ++ Q
          ∧ Repr (phase_view 3 (mem (run sched (spawn rb (repeat CallDequeue n))))) Q)
  ∧ (Forall (λ t, finished t = true)
            (tasks (run sched (spawn rb (repeat CallDequeue n)))) →
     ∃ l Q, q = l ++ Q
            ∧ Repr (mem (run sched (spawn rb (repeat CallDequeue n)))) Q
            ∧ l ≡ₚ flat_map taken (tasks (run sched (spawn rb (repeat CallDequeue n))))).
Proof.
  intros R.
  pose proof (spawn_conserved rb (repeat CallDequeue n) (Repr_quiescent rb q R)) as Hc.
  pose proof (spawn_consumers_only rb q n R) as Hs.
  apply (run_conserved _ sched) in Hc.
  apply (run_consumers_only (resident rb) q sched) in Hs;
    [|exact (spawn_conserved rb _ (Repr_quiescent rb q R))].
  generalize dependent (run sched (spawn rb (repeat CallDequeue n))).
  intros c (Ho & _ & Hperm) (l & Q & Eq & Rv & Hp).
  split; [exists l, Q; split; assumption|].
  intros Hf. exists l, Q. split; [exact Eq|].
  assert (Repr (mem c) Q) as Rc.
  { apply (pview_quiet 3); [|exact Rv]. intros j. apply (finished_quiet c j Ho Hf). }
  split; [exact Rc|].
  rewrite (consumers_put_nothing _ _ Hp), app_nil_r in Hperm.
  rewrite (Repr_resident _ _ Rc), (Repr_resident _ _ R), Eq in Hperm.
  rewrite (Permutation_app_comm l Q) in Hperm.
  symmetry. exact (Permutation_app_inv_l _ _ _ Hperm).
Qed.

End Properties.

(** * The boundary scenario and the interleavings *)

(** C1.  A fresh buffer of capacity 16 has [head = tail = 0], sixteen
    writable slots and zero counters.  Called one after the other on it,
    [Enqueue] of 0, ..., 14 returns without error fifteen times and the
    sixteenth [Enqueue] returns [ErrQueueFull]; then fifteen calls of
    [Dequeue] return 0, ..., 14 in this order without error and the
    sixteenth returns [ErrQueueEmpty].  Every call returns in its first
    turn of the loop. *)
Theorem C1_capacity_16_scenario (fuel : nat) (debug : bool) :
  New (V := Z) 16 debug
  = mkRingBuf 16 15 0 0 0 0 (replicate 16 (mkItem 0 None)) debug
  ∧ snd (run_calls (S fuel) scenario16 (New 16 debug)) =
    repeat (EnqueueReply (Returned None)) 15
    ++ [EnqueueReply (Returned (Some ErrQueueFull))]
    ++ map (fun i => DequeueReply (Returned (Some i, None))) (ints 15)
    ++ [DequeueReply (Returned (None, Some ErrQueueEmpty))].
Proof. split; vm_compute; reflexivity. Qed.

(** The run of [lost_schedule], phase by phase: the snapshot of the
    second producer; the buffer after the first producer has enqueued 10;
    after the consumer has dequeued it; after the second producer has
    claimed slot 0 with its old snapshot; after its compare-and-swap on
    [tail] from 0 has failed; and after it has published. *)
Lemma lost_schedule_phases :
  let at_ k := run (firstn k lost_schedule) (spawn (New 4 false) lost_calls) in
  tasks (at_ 1%nat) !! 1%nat = Some (TEnqueue (Some 20) (E_claim 0 0 1 0))
  ∧ (head (mem (at_ 6%nat)), tail (mem (at_ 6%nat)),
     data (mem (at_ 6%nat)) !! 0%nat) = (0, 1, Some (mkItem 1 (Some 10)))
  ∧ (head (mem (at_ 12%nat)), tail (mem (at_ 12%nat)),
     data (mem (at_ 12%nat)) !! 0%nat) = (1, 1, Some (mkItem 0 (Some 10)))
  ∧ tasks (at_ 12%nat) !! 2%nat = Some (TDequeue (D_end (Returned (Some 10, None))))
  ∧ tasks (at_ 12%nat) !! 1%nat = Some (TEnqueue (Some 20) (E_claim 0 0 1 0))
  ∧ data (mem (at_ 13%nat)) !! 0%nat = Some (mkItem 2 (Some 10))
  ∧ tasks (at_ 14%nat) !! 1%nat = Some (TEnqueue (Some 20) (E_advance 0 1 0))
  ∧ (head (mem (at_ 15%nat)), tail (mem (at_ 15%nat))) = (1, 1)
  ∧ (head (mem (at_ 16%nat)), tail (mem (at_ 16%nat)),
     data (mem (at_ 16%nat)) !! 0%nat) = (1, 1, Some (mkItem 1 (Some 20)))
  ∧ tasks (at_ 16%nat) !! 1%nat = Some (TEnqueue (Some 20) (E_end (Returned None))).
Proof. vm_compute. repeat split; reflexivity. Qed.


(** C3, on the code.  In the interleaving [lost_schedule] every task
    runs to its end, both calls of [Enqueue] return without error and
    the buffer reports empty, yet the consumer has received 10 only: the
    payload 20 sits in slot 0 behind both indices.  [Dequeue] on the
    buffer left behind answers [ErrQueueEmpty]; and once [tail] has come
    round to slot 0, [Enqueue] waits for ever while [Dequeue] answers
    [ErrQueueEmpty], so 20 is never delivered. *)
Theorem C3_payload_lost_in_interleaving :
  forallb finished (tasks lost_config) = true
  ∧ flat_map enqueued (tasks lost_config) = [Some 10; Some 20]
  ∧ flat_map dequeued (tasks lost_config) = [Some 10]
  ∧ IsEmpty (mem lost_config) = true
  ∧ data (mem lost_config) !! 0%nat = Some (mkItem 1 (Some 20))
  ∧ (∀ fuel, Dequeue (S fuel) (mem lost_config)
             = (mem lost_config, [], Returned (None, Some ErrQueueEmpty)))
  ∧ (∀ fuel item, snd (Enqueue fuel after_loss item) = Spinning)
  ∧ (∀ fuel, snd (Dequeue (S fuel) after_loss) = Returned (None, Some ErrQueueEmpty)).
Proof.
  split; [vm_compute; reflexivity|].
  split; [vm_compute; reflexivity|].
  split; [vm_compute; reflexivity|].
  split; [vm_compute; reflexivity|].
  split; [vm_compute; reflexivity|].
  split; [|split].
  - intros fuel. apply Dequeue_empty. vm_compute. reflexivity.
  - intros fuel item.
    apply (Enqueue_spins fuel after_loss item (mkItem 1 (Some 20))).
    + vm_compute. discriminate.
    + vm_compute. reflexivity.
    + vm_compute. discriminate.
  - intros fuel. rewrite Dequeue_empty; [reflexivity|]. vm_compute. reflexivity.
Qed.

(** A fresh buffer of capacity 16 meets the hypotheses of C6. *)
Lemma C6_witness :
  cap (New (V := Z) 16 false) = 2 ^ 4
  ∧ ∀ fuel cs,
      cap (fst (run_calls fuel cs (New (V := Z) 16 false))) = cap (New (V := Z) 16 false)
      ∧ 0 ≤ head (fst (run_calls fuel cs (New (V := Z) 16 false))) < cap (New (V := Z) 16 false)
      ∧ 0 ≤ tail (fst (run_calls fuel cs (New (V := Z) 16 false))) < cap (New (V := Z) 16 false).
Proof.
  split; [reflexivity|].
  apply (C6_indices_below_capacity (New (V := Z) 16 false) 4);
    [vm_compute; discriminate | reflexivity | reflexivity | reflexivity | reflexivity].
Defined.

(** The boundary scenario on a fresh buffer, for C8. *)
Lemma C8_witness :
  Repr (New (V := Z) 16 false) []
  ∧ Forall orderly (snd (run_calls 1 scenario16 (New 16 false))).
Proof.
  assert (Repr (New (V := Z) 16 false) []) as R
    by (apply New_Repr; vm_compute; discriminate).
  split; [exact R|].
  apply (C8_Raced_exactly_on_failed_release (New 16 false) [] 0 scenario16 R).
Defined.

(** The nil payload through a fresh buffer of capacity 4, for C9. *)
Lemma C9_witness :
  Repr (New (V := Z) 4 false) [] ∧ ¬ full_at (New (V := Z) 4 false)
  ∧ ∃ rb1, Enqueue 1 (New (V := Z) 4 false) None = (rb1, Returned None)
           ∧ Repr rb1 ([] ++ [None])
           ∧ ∃ rb3 lg e,
               Dequeue 1 (fst (run_calls 1 (repeat CallDequeue 0) rb1))
               = (rb3, lg, Fatal (None, Some e)) ∧ In LogFatal lg.
Proof.
  assert (Repr (New (V := Z) 4 false) []) as R
    by (apply New_Repr; vm_compute; discriminate).
  assert (¬ full_at (New (V := Z) 4 false)) as Hnf by (vm_compute; discriminate).
  split; [exact R|]. split; [exact Hnf|].
  apply (C9_nil_payload_enqueued_then_fatal (New 4 false) [] 0 R Hnf).
Defined.

(** The boundary scenario as a schedule of its thirty-two tasks. *)
Lemma sequential_calls_are_an_interleaving_witness :
  Forall (λ r, spins r = false) (snd (run_calls 1 scenario16 (New 16 false)))
  ∧ ∃ sched,
      mem (run sched (spawn (New 16 false) scenario16))
      = fst (run_calls 1 scenario16 (New 16 false))
      ∧ tasks (run sched (spawn (New 16 false) scenario16))
        = zip_with ended scenario16 (snd (run_calls 1 scenario16 (New 16 false))).
Proof.
  assert (Forall (λ r, spins r = false)
                 (snd (run_calls 1 scenario16 (New (V := Z) 16 false)))) as H
    by (vm_compute; repeat constructor).
  split; [exact H|].
  apply (sequential_calls_are_an_interleaving 1 scenario16 (New 16 false) H).
Defined.

(** Fifteen payloads through a fresh buffer of capacity 16. *)
Lemma fifo_single_producer_single_consumer_witness :
  Repr (New (V := Z) 16 false) (map Some [])
  ∧ snd (run_calls 1
           (map (λ v, CallEnqueue (Some v)) (ints 15)
            ++ repeat CallDequeue (length ([] ++ ints 15))) (New 16 false))
    = repeat (EnqueueReply (Returned None)) (length (ints 15))
      ++ map (λ v, DequeueReply (Returned (Some v, None))) ([] ++ ints 15).
Proof.
  assert (Repr (New (V := Z) 16 false) (map Some [])) as R
    by (apply New_Repr; vm_compute; discriminate).
  split; [exact R|].
  apply (fifo_single_producer_single_consumer 0 (New 16 false) [] (ints 15) R).
  vm_compute. discriminate.
Defined.


(** A producer that has claimed slot 0 of a fresh buffer of capacity 4
    while another has only loaded its snapshot. *)
Lemma slot_held_by_one_task_at_a_time_witness :
  Repr (New (V := Z) 4 false) []
  ∧ (rw_at (mem (run [1; 0; 0]%nat (spawn (New 4 false) lost_calls))) 0 = 2
     ↔ ∃ i t, tasks (run [1; 0; 0]%nat (spawn (New 4 false) lost_calls)) !! i = Some t
              ∧ holds_w 0 t = 1%nat).
Proof.
  assert (Repr (New (V := Z) 4 false) []) as R
    by (apply New_Repr; vm_compute; discriminate).
  split; [exact R|].
  destruct (slot_held_by_one_task_at_a_time
              (New 4 false) [] lost_calls [1; 0; 0]%nat 0%nat R) as (_ & H & _).
  exact H.
Defined.


(** Four calls of [Put] and two of [Get] on a fresh buffer of capacity 4,
    which holds three payloads at most. *)
Lemma sequential_use_is_a_bounded_queue_witness :
  Repr (New (V := Z) 4 false) (map Some [])
  ∧ snd (run_calls 1 (map to_call [QPut 1; QPut 2; QPut 3; QPut 4; QGet; QGet])
           (New 4 false))
    = snd (queue_calls (cap (New (V := Z) 4 false))
             [QPut 1; QPut 2; QPut 3; QPut 4; QGet; QGet] []).
Proof.
  assert (Repr (New (V := Z) 4 false) (map Some [])) as R
    by (apply New_Repr; vm_compute; discriminate).
  split; [exact R|].
  destruct (sequential_use_is_a_bounded_queue 0 (New 4 false) []
              [QPut 1; QPut 2; QPut 3; QPut 4; QGet; QGet] R) as (_ & _ & H & _).
  exact H.
Defined.


(** ** The sequential test *)

Lemma put_loop_fills fuel k : ∀ steps size i (rb : ringBuf Z) q,
  Repr rb (map Some q) → size = cap rb - 1 →
  0 ≤ i → i + Z.of_nat k = size → Z.of_nat (length q) = i →
  (k < steps)%nat →
  ∃ rb' q', put_loop steps (S fuel) size i rb = (rb', None)
            ∧ Repr rb' (map Some q') ∧ cap rb' = cap rb
            ∧ Z.of_nat (length q') = cap rb - 1
            ∧ putWaits rb' = putWaits rb ∧ getWaits rb' = getWaits rb.
Proof.
  induction k as [|k IH]; intros steps size i rb q R Hs Hi Hk Hq Hst.
  - destruct steps as [|steps]; [lia|]. cbn [put_loop].
    rewrite (proj2 (Z.ltb_ge i size)) by lia.
    exists rb, q. split; [reflexivity|]. split; [exact R|]. split; [reflexivity|].
    split; [lia|]. split; reflexivity.
  - destruct steps as [|steps]; [lia|]. cbn [put_loop].
    rewrite (proj2 (Z.ltb_lt i size)) by lia.
    assert (¬ full_at rb) as Hnf.
    { intros Hf. apply (Repr_full_iff _ _ R) in Hf. rewrite length_map in Hf. lia. }
    destruct (Enqueue_room fuel rb _ (Some i) R Hnf) as (rb1 & E1 & R1 & Hc & Hp & Hg).
    rewrite E1.
    pose proof (Repr_cap_bounds _ _ R) as Hcb.
    change [Some i] with (map Some [i]) in R1. rewrite <- map_app in R1.
    rewrite u32_small by lia.
    destruct (IH steps size (i + 1) rb1 (q ++ [i]) R1)
      as (rb' & q' & E & R' & Hc' & Hl' & Hp' & Hg');
      [lia|lia|lia|rewrite length_app; cbn [length]; lia|lia|].
    exists rb', q'. split; [exact E|]. split; [exact R'|].
    split; [lia|]. split; [lia|]. split; congruence.
Qed.

Lemma full_loop_refused fuel k : ∀ steps bound i (rb : ringBuf Z),
  full_at rb → 0 ≤ i → i + Z.of_nat k = bound → bound < 2 ^ 32 →
  (k < steps)%nat →
  full_loop steps (S fuel) bound i rb = (rb, None).
Proof.
  induction k as [|k IH]; intros steps bound i rb Hf Hi Hk Hb Hst.
  - destruct steps as [|steps]; [lia|]. cbn [full_loop].
    rewrite (proj2 (Z.ltb_ge i bound)) by lia. reflexivity.
  - destruct steps as [|steps]; [lia|]. cbn [full_loop].
    rewrite (proj2 (Z.ltb_lt i bound)) by lia.
    rewrite (Enqueue_full fuel rb (Some i) Hf).
    rewrite u32_small by lia. apply IH; [exact Hf|lia|lia|lia|lia].
Qed.

Lemma get_loop_drains fuel (q : list Z) : ∀ steps i (rb : ringBuf Z),
  Repr rb (map Some q) → (length q < steps)%nat →
  ∃ rb', get_loop steps (S fuel) i rb = (rb', Pass) ∧ Repr rb' []
         ∧ putWaits rb' = putWaits rb ∧ getWaits rb' = getWaits rb.
Proof.
  induction q as [|x q IH]; intros steps i rb R Hst.
  - destruct steps as [|steps]; [cbn in Hst; lia|]. cbn [get_loop].
    assert (empty_at rb) as He by (now apply (Repr_empty_iff rb [])).
    rewrite (Dequeue_empty fuel rb He). exists rb.
    split; [reflexivity|]. split; [exact R|]. split; reflexivity.
  - destruct steps as [|steps]; [cbn in Hst; lia|]. cbn [get_loop].
    cbn [map] in R.
    destruct (Dequeue_some fuel rb x (map Some q) R) as (rb1 & E1 & R1 & _ & Hp & Hg).
    rewrite E1.
    destruct (IH steps (int64 (i + 1)) rb1 R1) as (rb' & E & R' & Hp' & Hg');
      [cbn [length] in Hst; lia|].
    exists rb'. split; [exact E|]. split; [exact R'|]. split; congruence.
Qed.

(** X10.  The test [TestRingBuf_Put_OneByOne] passes, and it does so
    for every requested capacity up to [2^31], not only for [NLtd]:
    the first loop fills the buffer with [Cap() - 1] payloads without an
    error, each of the six further calls of [Enqueue] answers
    [ErrQueueFull], and the last loop ends by [ErrQueueEmpty] after it has
    taken the payloads out, leaving an empty buffer.  No turn of a loop
    reaches [t.Fatalf], and no call waits. *)
Theorem one_by_one_test_passes (steps fuel : nat) (n : Z) :
  n ≤ 2 ^ 31 → roundUpToPower2 n + 6 ≤ Z.of_nat steps →
  snd (one_by_one steps (S fuel) n) = Pass
  ∧ Repr (fst (one_by_one steps (S fuel) n)) []
  ∧ putWaits (fst (one_by_one steps (S fuel) n)) = 0
  ∧ getWaits (fst (one_by_one steps (S fuel) n)) = 0
  ∧ (n = NLtd → snd (TestRingBuf_Put_OneByOne steps (S fuel)) = Pass).
Proof.
  intros Hn Hst.
  assert (∃ rb', one_by_one steps (S fuel) n = (rb', Pass) ∧ Repr rb' []
                 ∧ putWaits rb' = 0 ∧ getWaits rb' = 0) as (rb' & E & R' & Hp & Hg).
  { unfold one_by_one.
    pose proof (New_Repr (V := Z) n true Hn) as R0.
    pose proof (Repr_cap_bounds _ _ R0) as Hcb.
    assert (cap (New (V := Z) n true) = roundUpToPower2 n) as Hcap by reflexivity.
    assert (putWaits (New (V := Z) n true) = 0) as Hp0 by reflexivity.
    assert (getWaits (New (V := Z) n true) = 0) as Hg0 by reflexivity.
    unfold Cap. cbv zeta.
    generalize dependent (New (V := Z) n true). intros rb R0 Hcb Hcap Hp0 Hg0.
    rewrite u32_small by lia. rewrite u32_small by lia.
    destruct (put_loop_fills fuel (Z.to_nat (cap rb - 1)) steps (cap rb - 1) 0 rb [] R0)
      as (rb1 & q1 & E1 & R1 & Hc1 & Hl1 & Hp1 & Hg1);
      [reflexivity|lia|lia|reflexivity|lia|].
    rewrite E1.
    assert (full_at rb1) as Hf1.
    { apply (Repr_full_iff _ _ R1). rewrite length_map. lia. }
    rewrite (full_loop_refused fuel 6 steps (cap rb - 1 + 6) (cap rb - 1) rb1 Hf1)
      by lia.
    destruct (get_loop_drains fuel q1 steps 0 rb1 R1) as (rb2 & E2 & R2 & Hp2 & Hg2);
      [lia|].
    exists rb2. split; [exact E2|]. split; [exact R2|]. split; congruence. }
  rewrite E. cbn [fst snd]. split; [reflexivity|]. split; [exact R'|].
  split; [exact Hp|]. split; [exact Hg|].
  intros ->. unfold TestRingBuf_Put_OneByOne. rewrite E. reflexivity.
Qed.

(** The test as it is written, with [NLtd = 16]. *)
Lemma one_by_one_test_passes_witness :
  NLtd ≤ 2 ^ 31 ∧ roundUpToPower2 NLtd + 6 ≤ Z.of_nat 22
  ∧ snd (TestRingBuf_Put_OneByOne 22 1) = Pass.
Proof.
  assert (NLtd ≤ 2 ^ 31) as H1 by (vm_compute; discriminate).
  assert (roundUpToPower2 NLtd + 6 ≤ Z.of_nat 22) as H2 by (vm_compute; discriminate).
  split; [exact H1|]. split; [exact H2|].
  destruct (one_by_one_test_passes 22 0 NLtd H1 H2) as (_ & _ & _ & _ & H).
  apply H. reflexivity.
Defined.


(** The schedule of [lost_config]: the payload that no consumer reaches
    any more is still in its slot. *)
Lemma payloads_are_conserved_witness :
  Repr (New (V := Z) 4 false) []
  ∧ resident (mem lost_config) ++ flat_map taken (tasks lost_config)
    ≡ₚ [] ++ flat_map enqueued (tasks lost_config).
Proof.
  assert (Repr (New (V := Z) 4 false) []) as R
    by (apply New_Repr; vm_compute; discriminate).
  split; [exact R|].
  destruct (payloads_are_conserved (New 4 false) [] lost_calls lost_schedule R)
    as (H & _).
  exact H.
Defined.


(** The schedule [spsc_schedule] respects the program order of the two
    goroutines. *)
Lemma one_producer_one_consumer_fifo_witness :
  Repr (New (V := Z) 4 false) []
  ∧ respects spsc_schedule (spawn (New 4 false) spsc_calls) = true
  ∧ ∃ rest,
      [] ++ flat_map enqueued (tasks (run spsc_schedule (spawn (New 4 false) spsc_calls)))
      = flat_map taken (tasks (run spsc_schedule (spawn (New 4 false) spsc_calls)))
        ++ rest.
Proof.
  assert (Repr (New (V := Z) 4 false) []) as R
    by (apply New_Repr; vm_compute; discriminate).
  assert (respects spsc_schedule (spawn (New 4 false) spsc_calls) = true) as Hr
    by (vm_compute; reflexivity).
  split; [exact R|]. split; [exact Hr|].
  destruct (one_producer_one_consumer_fifo (New 4 false) [] spsc_calls spsc_schedule
              R Hr) as [H _].
  exact H.
Defined.


(** The producer of [spsc_schedule] has not waited. *)
Lemma single_producer_never_waits_witness :
  Repr (New (V := Z) 4 false) []
  ∧ respects spsc_schedule (spawn (New 4 false) spsc_calls) = true
  ∧ putWaits (mem (run spsc_schedule (spawn (New 4 false) spsc_calls)))
    = putWaits (New (V := Z) 4 false).
Proof.
  assert (Repr (New (V := Z) 4 false) []) as R
    by (apply New_Repr; vm_compute; discriminate).
  assert (respects spsc_schedule (spawn (New 4 false) spsc_calls) = true) as Hr
    by (vm_compute; reflexivity).
  split; [exact R|]. split; [exact Hr|].
  destruct (single_producer_never_waits (New 4 false) [] spsc_calls spsc_schedule
              R Hr) as [H _].
  exact H.
Defined.


(** X14.  With two consumers the order is not kept, even with one
    producer.  In the interleaving [overtake_schedule] every call runs to
    its end without error; the producer has put 1, 2, 3, 4, 5 in this
    order and the second consumer has taken 1 and 2, yet the first
    consumer, which claims the slot of its old snapshot, receives 5 while
    3 and 4 are still in the buffer.  Two further calls of [Dequeue] take
    3 and 4; after them the snapshot is not empty, no payload is left in
    the buffer, and every call of [Dequeue] waits for ever. *)
Theorem two_consumers_break_the_order :
  forallb finished (tasks overtake_config) = true
  ∧ flat_map enqueued (tasks overtake_config)
    = [Some 1; Some 2; Some 3; Some 4; Some 5]
  ∧ tasks overtake_config !! 5%nat = Some (TDequeue (D_end (Returned (Some 5, None))))
  ∧ flat_map dequeued (drop 6 (tasks overtake_config)) = [Some 1; Some 2]
  ∧ resident (mem overtake_config) = [Some 3; Some 4]
  ∧ snd (run_calls 1 [CallDequeue; CallDequeue] (mem overtake_config))
    = [DequeueReply (Returned (Some 3, None)); DequeueReply (Returned (Some 4, None))]
  ∧ IsEmpty after_overtake = false
  ∧ resident after_overtake = []
  ∧ (∀ fuel, snd (Dequeue fuel after_overtake) = Spinning).
Proof.
  split; [vm_compute; reflexivity|].
  split; [vm_compute; reflexivity|].
  split; [vm_compute; reflexivity|].
  split; [vm_compute; reflexivity|].
  split; [vm_compute; reflexivity|].
  split; [vm_compute; reflexivity|].
  split; [vm_compute; reflexivity|].
  split; [vm_compute; reflexivity|].
  intros fuel.
  apply (Dequeue_spins fuel after_overtake (mkItem 0 (Some 5))).
  - vm_compute. discriminate.
  - vm_compute. reflexivity.
  - vm_compute. discriminate.
Qed.


(** Two producers at once on a fresh buffer of capacity 4. *)
Lemma producers_alone_keep_the_queue_witness :
  Repr (New (V := Z) 4 false) []
  ∧ ∃ l, Repr (phase_view 2
                 (mem (run crowd_schedule
                         (spawn (New 4 false) (map CallEnqueue [Some 10; Some 20])))))
              ([] ++ l).
Proof.
  assert (Repr (New (V := Z) 4 false) []) as R
    by (apply New_Repr; vm_compute; discriminate).
  split; [exact R|].
  destruct (producers_alone_keep_the_queue (New 4 false) [] [Some 10; Some 20]
              crowd_schedule R) as [H _].
  exact H.
Defined.

(** Two consumers at once on a buffer that holds 1 and 2. *)
Lemma consumers_alone_keep_the_queue_witness :
  Repr two_in ([] ++ map Some [1; 2])
  ∧ ∃ l Q, [] ++ map Some [1; 2] = l ++ Q
           ∧ Repr (phase_view 3
                     (mem (run crowd_schedule (spawn two_in (repeat CallDequeue 2))))) Q.
Proof.
  assert (Repr (New (V := Z) 4 false) []) as R0
    by (apply New_Repr; vm_compute; discriminate).
  assert (Repr two_in ([] ++ map Some [1; 2])) as R.
  { apply (enqueue_all 0 (New 4 false) [] [1; 2] R0). vm_compute. discriminate. }
  split; [exact R|].
  destruct (consumers_alone_keep_the_queue two_in ([] ++ map Some [1; 2]) 2
              crowd_schedule R) as [H _].
  exact H.
Defined.

End Rb.
